(** * cadbook gear cutter: a shallow embedding and its verified properties

    The TypeScript sources under [src/gearcutter] are embedded as Rocq
    functions.  A JavaScript [number] is read as a real number: rounding,
    overflow, infinities and NaN are outside this model, so every statement
    below is a statement about the exact arithmetic the code spells out.

    A pen is an object with two [void] methods that mutate it; here a pen is
    a state type with an instance of the class [Pen], whose methods return the
    new state, or the exception thrown.  A pen that wraps another pen keeps
    the state of the wrapped pen inside its own.  The optional [reset]
    capability of the interface is only modelled where a caller of this
    development uses it ([RecordingPen]). *)

From Stdlib Require Import Reals Lra Lia ZArith String Sorted.
From stdpp Require Import base list.
From Equations Require Import Equations.

Open Scope R_scope.

(* ================================================================== *)
(** ** Numbers and exceptions *)

#[global] Instance Rlt_decision : RelDecision Rlt := Rlt_dec.
#[global] Instance Rle_decision : RelDecision Rle := Rle_dec.
#[global] Instance Rgt_decision : RelDecision Rgt := Rgt_dec.
#[global] Instance Rge_decision : RelDecision Rge := Rge_dec.
#[global] Instance Req_decision : EqDecision R := Req_dec_T.

Module Js.

(** [Math.floor]: the largest integer not above [x]. *)
Definition floor (x : R) : R := IZR (Int_part x).

(** [Math.sign] on a number that is not NaN. *)
Definition sign (x : R) : R :=
  if decide (x > 0) then 1 else if decide (x < 0) then -1 else x.

(** [isFinite]: every real is finite; infinities and NaN are not modelled. *)
Definition isFinite (_ : R) : bool := true.

(** [x & 1] for an integral [x]: ToInt32 wraps modulo 2^32, which keeps
    the lowest bit. *)
Definition toInt32 (x : R) : Z :=
  let t := if decide (x < 0) then (- Int_part (- x))%Z else Int_part x in
  let m := (t mod 2 ^ 32)%Z in
  if (m <? 2 ^ 31)%Z then m else (m - 2 ^ 32)%Z.

Definition land (x y : R) : Z := Z.land (toInt32 x) (toInt32 y).

End Js.

(** A call either returns or throws [new Error(msg)]. *)
Inductive Result (A : Type) : Type :=
| Ok (a : A)
| Throw (msg : string).
Arguments Ok {A} a.
Arguments Throw {A} msg.

#[global] Instance Result_ret : MRet Result := fun A a => Ok a.
#[global] Instance Result_bind : MBind Result := fun A B k m =>
  match m with
  | Ok a => k a
  | Throw msg => Throw msg
  end.

(* ================================================================== *)
(** ** types.ts: the pen interface *)

Definition Point2D : Type := R * R.

Module Pen.
Class Pen (P : Type) : Type := {
  moveTo : R -> R -> P -> Result P;
  arcTo : R -> R -> R -> P -> Result P
}.
End Pen.
Abbreviation Pen := Pen.Pen.

(** [PathFunc = (pen: Pen, doMove: boolean) => void]. *)
Definition PathFunc : Type := forall P : Type, Pen P -> bool -> P -> Result P.

(** One call on a pen, as data; [run_ops] makes the calls in order and stops
    at the first exception. *)
Inductive PenOp : Type :=
| MoveTo (x y : R)
| ArcTo (x y turn : R).

Definition run_op {P} {pen_P : Pen P} (o : PenOp) (pen : P) : Result P :=
  match o with
  | MoveTo x y => Pen.moveTo x y pen
  | ArcTo x y turn => Pen.arcTo x y turn pen
  end.

Fixpoint run_ops {P} {pen_P : Pen P} (ops : list PenOp) (pen : P) : Result P :=
  match ops with
  | [] => Ok pen
  | o :: ops' => pen' ← run_op o pen; run_ops ops' pen'
  end.

(** A pen that only writes down the calls it receives. *)
Definition LogPen : Type := list PenOp.

#[global] Instance LogPen_pen : Pen LogPen := {
  Pen.moveTo x y log := Ok (log ++ [MoveTo x y]);
  Pen.arcTo x y turn log := Ok (log ++ [ArcTo x y turn])
}.

(* ================================================================== *)
(** ** utils/arcUtils.ts *)

Module ArcUtils.

Definition vecLength (dx dy : R) : R := sqrt (dx * dx + dy * dy).

Definition distance (x1 y1 x2 y2 : R) : R := vecLength (x2 - x1) (y2 - y1).

Definition radiusFromDistance (distance turn : R) : R :=
  (distance * 0.5) / sin (turn * 0.5).

Definition centerDistanceFactor (turn : R) : R := 0.5 / tan (turn * 0.5).

Definition bulgeFactor (turn : R) : R := tan (turn * 0.25) * -0.5.

Definition vecPointFromCrossFactor (dx dy cfac : R) : Point2D :=
  (dx * 0.5 - dy * cfac, dy * 0.5 + dx * cfac).

Definition pointFromCrossFactor (x1 y1 x2 y2 cfac : R) : Point2D :=
  let dx := x2 - x1 in
  let dy := y2 - y1 in
  (x1 + dx * 0.5 - dy * cfac, y1 + dy * 0.5 + dx * cfac).

Definition pointFromForwardAndCrossFactors (x1 y1 x2 y2 ffac cfac : R)
  : Point2D :=
  let dx := x2 - x1 in
  let dy := y2 - y1 in
  (x1 + dx * ffac - dy * cfac, y1 + dy * ffac + dx * cfac).

Definition arcMidpoint (x1 y1 x2 y2 turn : R) : Point2D :=
  pointFromCrossFactor x1 y1 x2 y2 (bulgeFactor turn).

Definition arcLengthFactor (turn : R) : R :=
  (turn * 0.5) / sin (turn * 0.5).

Definition arcCenter (x1 y1 x2 y2 turn : R) : Point2D :=
  pointFromCrossFactor x1 y1 x2 y2 (centerDistanceFactor turn).

Definition versine (theta : R) : R :=
  let x := sin (theta * 0.5) in
  2.0 * x * x.

Definition interpolateArcTurn (x1 y1 x2 y2 turn target_turn : R) : Point2D :=
  let halfturn := turn * 0.5 in
  let endy := sin halfturn in
  let endx := - versine halfturn in
  let midy := sin (target_turn - halfturn) in
  let midx := - versine (target_turn - halfturn) in
  let scale := 0.5 / endy in
  let ffac := midy * scale in
  let cfac := (midx - endx) * scale in
  pointFromForwardAndCrossFactors x1 y1 x2 y2 ffac cfac.

End ArcUtils.

(** Reading [a[i]] where the surrounding code keeps [i] below [a.length]. *)
Definition at_index (a : list R) (i : nat) : R := default 0 (a !! i).

(* ================================================================== *)
(** ** RecordingPen.ts *)

Module RecordingPen.

(** The three parallel arrays: [turns[i]] is [None] ([null]) for a
    [moveTo] and the turn for an [arcTo]. *)
Record t : Type := mk {
  xs : list R;
  ys : list R;
  turns : list (option R)
}.

Definition empty : t := mk [] [] [].

Definition reset (_ : t) : t := mk [] [] [].

Definition moveTo (x y : R) (r : t) : t :=
  let r1 :=
    if bool_decide (length (turns r) ≠ 0%nat)
       && bool_decide (turns r !! (length (turns r) - 1)%nat = Some None)
    then mk (removelast (xs r)) (removelast (ys r)) (removelast (turns r))
    else r in
  mk (xs r1 ++ [x]) (ys r1 ++ [y]) (turns r1 ++ [None]).

Definition arcTo (x y turn : R) (r : t) : Result t :=
  if bool_decide (length (turns r) = 0%nat)
  then Throw "arc without preceding move in RecordingPen"
  else
    let i := (length (turns r) - 1)%nat in
    let dx := x - at_index (xs r) i in
    let dy := y - at_index (ys r) i in
    let mag2 := dx * dx + dy * dy in
    if decide (mag2 < 1e-14) then Ok r
    else
      let turn := if decide (mag2 < 1e-8) then 0 else turn in
      Ok (mk (xs r ++ [x]) (ys r ++ [y]) (turns r ++ [Some turn])).

#[global] Instance pen : Pen t := {
  Pen.moveTo x y r := Ok (moveTo x y r);
  Pen.arcTo := arcTo
}.

(** [while (i < turns.length && turns[i] == null) ++i], at most [fuel]
    rounds. *)
Fixpoint skip_moves (ts : list (option R)) (fuel i : nat) : nat :=
  match fuel with
  | O => i
  | S fuel' =>
      if bool_decide (i < length ts)%nat && bool_decide (ts !! i = Some None)
      then skip_moves ts fuel' (S i)
      else i
  end.

(** [for (; i < turns.length; ++i) { ... }] of [path]. *)
Fixpoint path_loop {P} `{Pen P} (r : t) (fuel i : nat) (pen : P)
  : Result P :=
  match fuel with
  | O => Ok pen
  | S fuel' =>
      if bool_decide (i < length (turns r))%nat then
        let x := at_index (xs r) i in
        let y := at_index (ys r) i in
        pen' ← match turns r !! i with
               | Some (Some a) => Pen.arcTo x y a pen
               | _ => Pen.moveTo x y pen
               end;
        path_loop r fuel' (S i) pen'
      else Ok pen
  end.

Definition path (r : t) : PathFunc := fun P _ doMove pen =>
  let i := 0%nat in
  let i := if negb doMove
           then skip_moves (turns r) (length (turns r)) i else i in
  path_loop r (length (turns r)) i pen.

Definition turn_at (ts : list (option R)) (i : Z) : option R :=
  if bool_decide (i >= Z.of_nat (length ts))%Z then None
  else mjoin (ts !! Z.to_nat i).

(** [while (i >= 0 && (i >= turns.length || turns[i] == null)) --i]. *)
Fixpoint skip_moves_back (ts : list (option R)) (fuel : nat) (i : Z) : Z :=
  match fuel with
  | O => i
  | S fuel' =>
      if bool_decide (i >= 0)%Z
         && (bool_decide (i >= Z.of_nat (length ts))%Z
             || bool_decide (mjoin (ts !! Z.to_nat i) = None))
      then skip_moves_back ts fuel' (i - 1)%Z
      else i
  end.

(** [for (; i > 0; --i) { ... }] of [reversedPath]. *)
Fixpoint reversed_loop {P} `{Pen P} (r : t) (fuel : nat) (i : Z) (pen : P)
  : Result P :=
  match fuel with
  | O => Ok pen
  | S fuel' =>
      if bool_decide (i > 0)%Z then
        let x := at_index (xs r) (Z.to_nat (i - 1)) in
        let y := at_index (ys r) (Z.to_nat (i - 1)) in
        let a := turn_at (turns r) i in
        pen' ← match a with
               | None => Pen.moveTo x y pen
               | Some a => Pen.arcTo x y (- a) pen
               end;
        reversed_loop r fuel' (i - 1)%Z pen'
      else Ok pen
  end.

Definition reversedPath (r : t) : PathFunc := fun P _ doMove pen =>
  let i := Z.of_nat (length (turns r)) in
  let i := if negb doMove
           then skip_moves_back (turns r) (S (S (length (turns r)))) i
           else i in
  reversed_loop r (length (turns r)) i pen.

Fixpoint countSegments_loop (ts : list (option R)) (ret : nat) : nat :=
  match ts with
  | [] => ret
  | t :: ts' =>
      countSegments_loop ts' (if bool_decide (t ≠ None) then S ret else ret)
  end.

Definition countSegments (r : t) : nat := countSegments_loop (turns r) 0.

End RecordingPen.

(* ================================================================== *)
(** ** LastPointCapturePen.ts *)

Module LastPointCapturePen.

Record t : Type := mk {
  x : option R;
  y : option R
}.

(** A fresh object: both fields are [undefined]. *)
Definition new : t := mk None None.

#[global] Instance pen : Pen t := {
  Pen.moveTo x y _ := Ok (mk (Some x) (Some y));
  Pen.arcTo x y _turn _ := Ok (mk (Some x) (Some y))
}.

(** Returns the target after the call and the boolean result. *)
Definition transferMove {T} `{Pen T} (c : t) (target : T)
  : Result (T * bool) :=
  match x c, y c with
  | Some cx, Some cy =>
      target' ← Pen.moveTo cx cy target;
      Ok (target', true)
  | _, _ => Ok (target, false)
  end.

End LastPointCapturePen.

(* ================================================================== *)
(** ** utils/floatBinarySearch.ts (not part of the available sources) *)

(** [searchForFloat(lo, hi, pred)] returns a pair of numbers; the clipping
    pen reads one component of it.  Its body is not available, so it is a
    parameter of everything that calls it. *)
Class FloatBinarySearch : Type :=
  searchForFloat : R -> R -> (R -> bool) -> R * R.

(* ================================================================== *)
(** ** ClippingPen.ts *)

Module CrappyClippingPen.
Section WithTarget.
Context {search : FloatBinarySearch}.
Context {T : Type} `{Pen T}.

Record t : Type := mk {
  target : T;
  nx : R;
  ny : R;
  minprod : R;
  tx : R;
  ty : R;
  havePoint : bool;
  isInside : bool
}.

Definition new (target : T) (nx ny minprod : R) : t :=
  let mag := sqrt (nx * nx + ny * ny) in
  mk target (nx / mag) (ny / mag) (minprod / mag) 0 0 false false.

Definition set_target (c : t) (target' : T) : t :=
  mk target' (nx c) (ny c) (minprod c) (tx c) (ty c)
     (havePoint c) (isInside c).

Definition set_point (c : t) (x y : R) : t :=
  mk (target c) (nx c) (ny c) (minprod c) x y (havePoint c) (isInside c).

Definition set_isInside (c : t) (b : bool) : t :=
  mk (target c) (nx c) (ny c) (minprod c) (tx c) (ty c) (havePoint c) b.

Definition moveTo (x y : R) (c : t) : Result t :=
  let inside := bool_decide (x * nx c + y * ny c > minprod c) in
  let c := mk (target c) (nx c) (ny c) (minprod c) x y true inside in
  if isInside c then
    target' ← Pen.moveTo x y (target c);
    Ok (set_target c target')
  else Ok c.

Definition arcTo (x y turn : R) (c : t) : Result t :=
  if negb (havePoint c) then moveTo x y c
  else
    let wasInside := isInside c in
    let c :=
      if wasInside
      then set_isInside c (bool_decide (x * nx c + y * ny c >= minprod c))
      else set_isInside c (bool_decide (x * nx c + y * ny c > minprod c)) in
    if Bool.eqb (negb wasInside) (negb (isInside c)) then
      let c := set_point c x y in
      if wasInside then
        target' ← Pen.arcTo x y turn (target c);
        Ok (set_target c target')
      else Ok c
    else
      c ←
        (if decide (turn < 1e-6) then
           let p0 := tx c * nx c + ty c * ny c in
           let p1 := x * nx c + y * ny c in
           let t := (minprod c - p0) / (p1 - p0) in
           let mx := tx c + (x - tx c) * t in
           let my := ty c + (y - ty c) * t in
           if isInside c then
             target' ← Pen.moveTo mx my (target c);
             target' ← (if negb (bool_decide (x = mx))
                           || negb (bool_decide (y = my))
                        then Pen.arcTo x y 0 target' else Ok target');
             Ok (set_target c target')
           else
             target' ← (if negb (bool_decide (mx = tx c))
                           || negb (bool_decide (my = ty c))
                        then Pen.arcTo mx my 0 (target c)
                        else Ok (target c));
             Ok (set_target c target')
         else if isInside c then
           let midturn :=
             (searchForFloat 0 turn (fun t =>
                let '(mx, my) :=
                  ArcUtils.interpolateArcTurn (tx c) (ty c) x y turn t in
                bool_decide (mx * nx c + my * ny c < minprod c))).2 in
           let '(mx, my) :=
             ArcUtils.interpolateArcTurn (tx c) (ty c) x y turn midturn in
           target' ← Pen.moveTo mx my (target c);
           target' ← (if negb (bool_decide (x = mx))
                         || negb (bool_decide (y = my))
                      then Pen.arcTo x y (turn - midturn) target'
                      else Ok target');
           Ok (set_target c target')
         else
           let midTurn :=
             (searchForFloat 0 turn (fun t =>
                let '(mx, my) :=
                  ArcUtils.interpolateArcTurn (tx c) (ty c) x y turn t in
                bool_decide (mx * nx c + my * ny c >= minprod c))).1 in
           let '(mx, my) :=
             ArcUtils.interpolateArcTurn (tx c) (ty c) x y turn midTurn in
           target' ← (if negb (bool_decide (mx = tx c))
                         || negb (bool_decide (my = ty c))
                      then Pen.arcTo mx my midTurn (target c)
                      else Ok (target c));
           Ok (set_target c target'));
      Ok (set_point c x y).

#[global] Instance pen : Pen t := {
  Pen.moveTo := moveTo;
  Pen.arcTo := arcTo
}.

End WithTarget.
Arguments t T : clear implicits.
End CrappyClippingPen.

(* ================================================================== *)
(** ** XFormPen.ts *)

(** A function [(pen: Pen) => Pen] that wraps its argument: the type of the
    wrapper's state over a target of type [T], the constructor call (which
    may throw), the wrapper's methods, and the wrapped target inside it. *)
Record PenWrapper : Type := {
  wrapped : Type -> Type;
  wrap : forall T, Pen T -> T -> Result (wrapped T);
  wrapped_pen : forall T, Pen T -> Pen (wrapped T);
  unwrap : forall T, wrapped T -> T
}.

(** [(pen) => pen]: what an absent [prevTransform] amounts to. *)
Definition id_wrapper : PenWrapper := {|
  wrapped T := T;
  wrap T _ target := Ok target;
  wrapped_pen T p := p;
  unwrap T w := w
|}.

(** [(pen) => p2(p1(pen))]. *)
Definition compose_wrapper (p2 p1 : PenWrapper) : PenWrapper := {|
  wrapped T := wrapped p2 (wrapped p1 T);
  wrap T p target :=
    w1 ← wrap p1 T p target;
    wrap p2 (wrapped p1 T) (wrapped_pen p1 T p) w1;
  wrapped_pen T p := wrapped_pen p2 (wrapped p1 T) (wrapped_pen p1 T p);
  unwrap T w := unwrap p1 T (unwrap p2 (wrapped p1 T) w)
|}.

Module XFormPen.

Record t (T : Type) : Type := mk {
  delegate : T;
  transformPoint : R -> R -> Point2D;
  transformTurn : R -> R
}.
Arguments mk {T}.
Arguments delegate {T}.
Arguments transformPoint {T}.
Arguments transformTurn {T}.

Definition moveTo {T} `{Pen T} (x y : R) (p : t T) : Result (t T) :=
  let newX := (transformPoint p x y).1 in
  let newY := (transformPoint p x y).2 in
  d ← Pen.moveTo newX newY (delegate p);
  Ok (mk d (transformPoint p) (transformTurn p)).

Definition arcTo {T} `{Pen T} (x y leftTurnRadians : R) (p : t T)
  : Result (t T) :=
  let newX := (transformPoint p x y).1 in
  let newY := (transformPoint p x y).2 in
  d ← Pen.arcTo newX newY (transformTurn p leftTurnRadians) (delegate p);
  Ok (mk d (transformPoint p) (transformTurn p)).

#[global] Instance pen {T} `{Pen T} : Pen (t T) := {
  Pen.moveTo := moveTo;
  Pen.arcTo := arcTo
}.

End XFormPen.

Module XForm.

Record t : Type := mk {
  prevTransform : option PenWrapper;
  rotDegrees : R;
  scaleFactor : R;
  flipYinFac : R;
  tx : R;
  ty : R
}.

Definition new : t := mk None 0 1.0 1.0 0.0 0.0.

Definition getXProjection (X : t) : Point2D :=
  let xx := cos ((rotDegrees X * PI) / 180.0) in
  let xy := sin ((rotDegrees X * PI) / 180.0) in
  let quarters := rotDegrees X / 90 in
  let '(xx, xy) :=
    if bool_decide (Js.floor quarters = quarters) then
      if bool_decide (Js.land quarters 1 = 0%Z)
      then (Js.sign xx, 0)
      else (0, Js.sign xy)
    else (xx, xy) in
  let xx := xx * scaleFactor X in
  let xy := xy * scaleFactor X in
  (xx, xy).

Definition rotate (degrees : R) (X : t) : t :=
  let rot := rotDegrees X + degrees * flipYinFac X in
  let rot := rot - Js.floor (rot / 360.0) * 360.0 in
  mk (prevTransform X) rot (scaleFactor X) (flipYinFac X) (tx X) (ty X).

Definition translate (x y : R) (X : t) : t :=
  let xx := (getXProjection X).1 in
  let xy := (getXProjection X).2 in
  let tx0 := tx X in
  let ty0 := ty X in
  mk (prevTransform X) (rotDegrees X) (scaleFactor X) (flipYinFac X)
     (tx0 + x * xx - y * flipYinFac X * xy)
     (ty0 + x * xy + y * flipYinFac X * xx).

(** [flipY] is [false] when the optional argument is left out. *)
Definition scale (fac : R) (flipY : bool) (X : t) : t :=
  let X :=
    if decide (fac < 0.0) then
      let X := rotate 180 X in
      mk (prevTransform X) (rotDegrees X) (scaleFactor X * - fac)
         (flipYinFac X) (tx X) (ty X)
    else
      mk (prevTransform X) (rotDegrees X) (scaleFactor X * fac)
         (flipYinFac X) (tx X) (ty X) in
  if flipY
  then mk (prevTransform X) (rotDegrees X) (scaleFactor X)
          (- flipYinFac X) (tx X) (ty X)
  else X.

Definition wrapper_of (X : t) : PenWrapper :=
  default id_wrapper (prevTransform X).

Definition apply {T} `{Pen T} (X : t) (target : T)
  : Result (XFormPen.t (wrapped (wrapper_of X) T)) :=
  let xx := (getXProjection X).1 in
  let xy := (getXProjection X).2 in
  let tx := tx X in
  let ty := ty X in
  let flipYinFac := flipYinFac X in
  let transformPoint := fun x y : R =>
    (tx + x * xx - y * flipYinFac * xy,
     ty + x * xy + y * flipYinFac * xx) in
  let transformTurn := fun turn : R => turn * flipYinFac in
  target ← wrap (wrapper_of X) T _ target;
  Ok (XFormPen.mk target transformPoint transformTurn).

(** [(pen) => X.apply(pen)] as a wrapper. *)
Definition apply_wrapper (X : t) : PenWrapper := {|
  wrapped T := XFormPen.t (wrapped (wrapper_of X) T);
  wrap T p target := apply X target;
  wrapped_pen T p := @XFormPen.pen _ (wrapped_pen (wrapper_of X) T p);
  unwrap T w := unwrap (wrapper_of X) T (XFormPen.delegate w)
|}.

Definition is_identity (X : t) : bool :=
  bool_decide (rotDegrees X = 0) && bool_decide (flipYinFac X = 1.0)
  && bool_decide (scaleFactor X = 1.0)
  && bool_decide (tx X = 0.0) && bool_decide (ty X = 0.0).

(** [processInput] calls itself once, on a fresh [XForm], whose scalars are
    the identity: [depth] bounds the nesting of calls. *)
Fixpoint processInput_depth (depth : nat) (preprocess : PenWrapper) (X : t)
  : t :=
  match depth with
  | O => X
  | S depth' =>
      if is_identity X then
        match prevTransform X with
        | Some p1 =>
            let p2 := preprocess in
            mk (Some (compose_wrapper p2 p1)) (rotDegrees X) (scaleFactor X)
               (flipYinFac X) (tx X) (ty X)
        | None =>
            mk (Some preprocess) (rotDegrees X) (scaleFactor X)
               (flipYinFac X) (tx X) (ty X)
        end
      else
        let prevX := new in
        let prevX :=
          match prevTransform X with
          | Some p => processInput_depth depth' p prevX
          | None => prevX
          end in
        let prevX := translate (tx X) (ty X) prevX in
        let prevX := rotate (rotDegrees X) prevX in
        let prevX :=
          scale (scaleFactor X) (negb (bool_decide (flipYinFac X = 1.0)))
                prevX in
        let p2 := preprocess in
        mk (Some (compose_wrapper p2 (apply_wrapper prevX))) 0 1.0 1.0 0.0 0.0
  end.

Definition processInput (preprocess : PenWrapper) (X : t) : t :=
  processInput_depth 2 preprocess X.

(** [(pen) => new CrappyClippingPen(pen, nx, ny, minprod)]. *)
Definition clip_wrapper `{FloatBinarySearch} (nx ny minprod : R)
  : PenWrapper := {|
  wrapped T := CrappyClippingPen.t T;
  wrap T p target := Ok (CrappyClippingPen.new target nx ny minprod);
  wrapped_pen T p := CrappyClippingPen.pen;
  unwrap T w := CrappyClippingPen.target w
|}.

Definition clip `{FloatBinarySearch} (nx ny minprod : R) (X : t) : t :=
  processInput (clip_wrapper nx ny minprod) X.

Definition xformInput (xform : t) (X : t) : t :=
  let X :=
    match prevTransform xform with
    | Some p => processInput p X
    | None => X
    end in
  let X := translate (tx xform) (ty xform) X in
  let X := rotate (rotDegrees xform) X in
  scale (scaleFactor xform) (bool_decide (flipYinFac xform < 0.0)) X.

(** [path(this.apply(pen), doMove)]; the result is the state [pen] is left
    in. *)
Definition processPath {T} `{Pen T} (pen : T) (path : PathFunc)
    (doMove : bool) (X : t) : Result T :=
  p ← apply X pen;
  p ← path _ (wrapped_pen (apply_wrapper X) T _) doMove p;
  Ok (unwrap (wrapper_of X) T (XFormPen.delegate p)).

Definition transformPath (path : PathFunc) (X : t) : Result RecordingPen.t :=
  let rec := RecordingPen.empty in
  processPath rec path true X.

End XForm.

(* ================================================================== *)
(** ** rack.ts *)

Module Rack.

Record RackProps : Type := mkRackProps {
  contactRatio : R;
  pressureAngle : R;
  profileShift : R;
  balancePercent : R;
  balanceAbsPercent : R;
  topClrPercent : R;
  botClrPercent : R
}.

Definition makeRack (props : RackProps) : PathFunc :=
  let topReliefPercent := topClrPercent props in
  let botReliefPercent := botClrPercent props in
  let sinPA := sin ((pressureAngle props * PI) / 180.0) in
  let cosPA := cos ((pressureAngle props * PI) / 180.0) in
  let tanPA := sinPA / cosPA in
  let ah := contactRatio props * sinPA * cosPA in
  let cy := profileShift props / (100 * PI) in
  let miny := cy - ah / 2 in
  let maxy := cy + ah / 2 in
  let bkw := balanceAbsPercent props / (200 * PI) in
  let freew := 0.5 - ah * tanPA in
  let cx := -0.25 - (freew * (balancePercent props - 50)) / 100 in
  let maxy := maxy + topReliefPercent / (100 * PI) in
  let miny := miny - botReliefPercent / (100 * PI) in
  let topx := (maxy - cy) * tanPA + cx in
  let botx := (miny - cy) * tanPA + cx in
  fun P _ doMove pen =>
    pen ← (if doMove then Pen.moveTo (-1.0 - botx + bkw) miny pen
           else Ok pen);
    pen ← Pen.arcTo (botx - bkw) miny 0 pen;
    pen ← Pen.arcTo (topx - bkw) maxy 0 pen;
    pen ← Pen.arcTo (- topx + bkw) maxy 0 pen;
    Pen.arcTo (- botx + bkw) miny 0 pen.

End Rack.

(* ================================================================== *)
(** ** utils/pq.ts *)

Module Pq.

(** [PriorityQueueElement = [priority, ...rest]]: the priority and the
    rest of the tuple. *)
Abbreviation Elem A := (R * A)%type.

Section WithPayload.
Context {A : Type}.

(** [q[i][0]], for an [i] the loops keep below [q.length]. *)
Definition prio_at (q : list (Elem A)) (i : nat) : R :=
  match q !! i with
  | Some e => e.1
  | None => 0
  end.

(** [t = q[i]; q[i] = q[j]; q[j] = t]. *)
Definition swap (q : list (Elem A)) (i j : nat) : list (Elem A) :=
  match q !! i, q !! j with
  | Some t, Some u => <[j := t]> (<[i := u]> q)
  | _, _ => q
  end.

Lemma length_swap q i j : length (swap q i j) = length q.
Proof.
  unfold swap. destruct (q !! i), (q !! j); auto.
  by rewrite !length_insert.
Qed.

(** The [while (pos > 0)] loop of [pqpush]. *)
Equations? push_loop (q : list (Elem A)) (pos : nat) : list (Elem A)
  by wf pos lt :=
  push_loop q 0 := q;
  push_loop q (S p) :=
    let parpos := (p / 2)%nat in
    if decide (prio_at q parpos <= prio_at q (S p)) then q
    else push_loop (swap q parpos (S p)) parpos.
Proof.
  subst parpos. change (p / 2 < S p)%nat.
  apply Nat.lt_succ_r, Nat.Div0.div_le_upper_bound. lia.
Qed.

Definition pqpush (q : list (Elem A)) (val : Elem A) : list (Elem A) :=
  let pos := length q in
  let q := q ++ [val] in
  push_loop q pos.

(** One round of the [while (leftpos < q.length)] loop of [pqpop]: the
    position of the least of [pos] and its children. *)
Definition pop_minpos (q : list (Elem A)) (pos leftpos : nat) : nat :=
  let minpos := pos in
  let minpos :=
    if decide (prio_at q minpos > prio_at q leftpos) then leftpos
    else minpos in
  let rightpos := (leftpos + 1)%nat in
  let minpos :=
    if bool_decide (rightpos < length q)%nat
       && bool_decide (prio_at q minpos > prio_at q rightpos)
    then rightpos else minpos in
  minpos.

Lemma pop_minpos_cases q pos leftpos :
  pop_minpos q pos leftpos = pos
  ∨ pop_minpos q pos leftpos = leftpos
  ∨ pop_minpos q pos leftpos = (leftpos + 1)%nat.
Proof.
  unfold pop_minpos.
  repeat (case_decide || case_bool_decide || simpl); auto.
Qed.

Equations? pop_loop (q : list (Elem A)) (pos leftpos : nat) : list (Elem A)
  by wf (length q - leftpos)%nat lt :=
  pop_loop q pos leftpos with decide (leftpos < length q)%nat := {
    | right _ => q
    | left _ with decide (pop_minpos q pos leftpos = pos) := {
        | left _ => q
        | right _ =>
            pop_loop (swap q pos (pop_minpos q pos leftpos))
                     (pop_minpos q pos leftpos)
                     (pop_minpos q pos leftpos * 2 + 1)
      }
  }.
Proof.
  rewrite length_swap.
  destruct (pop_minpos_cases q pos leftpos) as [?|[?|?]]; lia.
Qed.

(** The queue after the call and the value returned ([None] is
    [undefined]). *)
Definition pqpop (q : list (Elem A)) : list (Elem A) * option (Elem A) :=
  if bool_decide (length q = 0%nat) then (q, None)
  else if bool_decide (length q < 2)%nat then (tail q, head q)
  else
    let ret := q !! 0%nat in
    let q :=
      match last q with
      | Some l => <[0%nat := l]> (removelast q)
      | None => q
      end in
    (pop_loop q 0 1, ret).

End WithPayload.
End Pq.

(* ================================================================== *)
(** ** geom: the public pen, and the constant DEGREE *)

Module Pen2D.
Class Pen2D (Q : Type) : Type := {
  move : R -> R -> option string -> Q -> Result Q;
  line : R -> R -> Q -> Result Q;
  arc : R -> R -> R -> Q -> Result Q;
  conic : R -> R -> R -> R -> R -> Q -> Result Q;
  circle : R -> R -> R -> option string -> Q -> Result Q
}.
End Pen2D.
Abbreviation Pen2D := Pen2D.Pen2D.

(** [Sketch = (pen: Pen2D) => void]. *)
Definition Sketch : Type := forall Q : Type, Pen2D Q -> Q -> Result Q.

(** [geom/constants.ts] is not part of the available sources: the value of
    [DEGREE] is a parameter. *)
Class GeomConstants : Type := DEGREE : R.

(* ================================================================== *)
(** ** ToothCutter.ts and InitialMaxFilletPen.ts, at their boundary *)

(** [ToothCutter.ts] is not part of the available sources.  What
    [createGearPair] uses of it: the constructor, the pen methods (the rack
    is drawn onto the cutter) and [drawToothPath].  Any of them may throw. *)
Class ToothCutterApi : Type := {
  ToothCutter : Type;
  newToothCutter : R -> R -> R -> R -> Result ToothCutter;
  ToothCutter_pen :: Pen ToothCutter;
  drawToothPath : ToothCutter -> PathFunc
}.

(** The fillet pass is entered only with [isMaxFillet]; it is kept abstract
    here: a function from the tooth path to the filleted path, which may
    throw. *)
Class FilletApi : Type := {
  applyMaxToothFillet : PathFunc -> Result PathFunc;
  applyInternalToothFillet : PathFunc -> Result PathFunc
}.

(* ================================================================== *)
(** ** index.ts *)

Module GearCutter.

Inductive GearPairSizeType : Type := mod_ | diaPitch | centerDist.

Record GearPairProps : Type := mkGearPairProps {
  clearanceModPercent : option R;
  backlashModPercent : option R;
  balancePercent : option R;
  pressureAngle : option R;
  targetContactRatio : option R;
  profileShiftPercent : option R;
  gearTeeth : R;
  pinionTeeth : R;
  isInternalGear : option bool;
  isMaxFillet : option bool;
  faceToleranceModPercent : option R;
  filletToleranceModPercent : option R;
  sizeType : GearPairSizeType;
  size : R
}.

Record GearPairResult : Type := mkGearPairResult {
  gear : Sketch;
  pinion : Sketch;
  gearPitchDiameter : R;
  pinionPitchDiameter : R;
  gearArcsPerTooth : nat;
  pinionArcsPerTooth : nat
}.

Module GearCutterPenAdapter.
Record t (Q : Type) : Type := mk { pen2d : Q }.
Arguments mk {Q}.
Arguments pen2d {Q}.

#[global] Instance pen `{GeomConstants} {Q} `{Pen2D Q} : Pen (t Q) := {
  Pen.moveTo x y a :=
    q ← Pen2D.move x y None (pen2d a); Ok (mk q);
  Pen.arcTo x y turn a :=
    if bool_decide (turn > -0.0001) && bool_decide (turn < 0.0001) then
      q ← Pen2D.line x y (pen2d a); Ok (mk q)
    else
      q ← Pen2D.arc x y (turn / DEGREE) (pen2d a); Ok (mk q)
}.
End GearCutterPenAdapter.

Definition DEFAULT_CLEARANCE_PERCENT : R := 15.
Definition DEFAULT_BACKLASH_PERCENT : R := 0.
Definition DEFAULT_BALANCE_PERCENT : R := 50.
Definition DEFAUT_PRESSURE_ANGLE : R := 20.
Definition DEFAULT_CONTACT_RATIO : R := 1.5.
Definition DEFAULT_PROFILE_SHIFT_PERCENT : R := 0.
Definition DEFAULT_IS_INTERNAL : bool := false.
Definition DEFAULT_MAX_FILLET : bool := false.
Definition DEFAULT_FACE_TOL : R := 0.05.
Definition DEFAULT_FILLET_TOL : R := 0.5.

(** The [for (let i = 0; i < nTeeth; ++i)] loop of [drawGearFromTooth]. *)
Fixpoint teeth_loop {P} `{Pen P} (fuel i : nat) (scale : R)
    (path : PathFunc) (nTeeth : R) (pen : P) : Result P :=
  match fuel with
  | O => Ok pen
  | S fuel' =>
      if decide (INR i < nTeeth) then
        pen ← XForm.processPath pen path false
                (XForm.scale scale false
                   (XForm.rotate ((INR i * 360) / nTeeth) XForm.new));
        teeth_loop fuel' (S i) scale path nTeeth pen
      else Ok pen
  end.

Definition drawGearFromTooth {P} `{Pen P} (pen : P) (doMove : bool)
    (scale : R) (path : PathFunc) (nTeeth : R) : Result P :=
  pen ← (if doMove then
           let capture := LastPointCapturePen.new in
           capture ← XForm.processPath capture path true
                       (XForm.scale scale false
                          (XForm.rotate (((nTeeth - 1) * 360) / nTeeth)
                             XForm.new));
           r ← LastPointCapturePen.transferMove capture pen;
           Ok r.1
         else Ok pen);
  teeth_loop (Z.to_nat (up nTeeth)) 0 scale path nTeeth pen.

(** The calls [createGearPair] makes into the rack and tooth-cutter
    stages, in the order it makes them. *)
Inductive StageCall : Type :=
| CallMakeRack (props : Rack.RackProps)
| CallNewToothCutter (teeth radius faceT filletT : R)
| CallCutRack
| CallDrawToothPath
| CallFillet.

(** A computation that may throw, together with the stage calls made up
    to its return or its exception. *)
Definition Traced (A : Type) : Type := list StageCall * Result A.

#[global] Instance Traced_bind : MBind Traced := fun A B k m =>
  match m.2 with
  | Ok a => (m.1 ++ (k a).1, (k a).2)
  | Throw msg => (m.1, Throw msg)
  end.

Definition called {A} (c : StageCall) (r : Result A) : Traced A := ([c], r).
Definition pure {A} (a : A) : Traced A := ([], Ok a).
Definition throw {A} (msg : string) : Traced A := ([], Throw msg).

Section CreateGearPair.
Context {geom : GeomConstants} {cutter : ToothCutterApi}
        {fillet : FilletApi}.

(** One gear of the pair: cut the rack, record the tooth, fillet it. *)
Definition cutTooth (teeth radius faceT filletT : R) (rack : PathFunc)
    (maxFillet : bool) (applyFillet : PathFunc -> Result PathFunc)
  : Traced (PathFunc * nat) :=
  theCutter ← called (CallNewToothCutter teeth radius faceT filletT)
                (newToothCutter teeth radius faceT filletT);
  theCutter ← called CallCutRack
                (XForm.processPath theCutter rack true
                   (XForm.translate 0 radius
                      (XForm.rotate (-90) XForm.new)));
  let recorder := RecordingPen.empty in
  recorder ← called CallDrawToothPath
               (drawToothPath theCutter _ _ true recorder);
  let path := RecordingPen.path recorder in
  if maxFillet then
    filleted ← called CallFillet (applyFillet path);
    let path : PathFunc := filleted in
    let recorder := RecordingPen.reset recorder in
    recorder ← ([], path _ _ true recorder) : Traced RecordingPen.t;
    pure (path, RecordingPen.countSegments recorder)
  else
    pure (path, RecordingPen.countSegments recorder).

Definition createGearPair (props : GearPairProps) : Traced GearPairResult :=
  let clearancePercent :=
    default DEFAULT_CLEARANCE_PERCENT (clearanceModPercent props) in
  let backlashPercent :=
    default DEFAULT_BACKLASH_PERCENT (backlashModPercent props) in
  let pressureAngle := default DEFAUT_PRESSURE_ANGLE (pressureAngle props) in
  let contactRatio :=
    default DEFAULT_CONTACT_RATIO (targetContactRatio props) in
  let profileShift :=
    default DEFAULT_PROFILE_SHIFT_PERCENT (profileShiftPercent props) in
  let gearTeeth := gearTeeth props in
  let pinionTeeth := pinionTeeth props in
  let isInternal := default DEFAULT_IS_INTERNAL (isInternalGear props) in
  let maxFillet := default DEFAULT_MAX_FILLET (isMaxFillet props) in
  let balancePercent :=
    default DEFAULT_BALANCE_PERCENT (balancePercent props) in
  let faceTolPercent :=
    default DEFAULT_FACE_TOL (faceToleranceModPercent props) in
  let filletTolPercent :=
    default DEFAULT_FILLET_TOL (filletToleranceModPercent props) in
  let sizeNumber := size props in
  let sizeMeasurement := sizeType props in
  if decide (gearTeeth < 4) then
    throw "Can't have less than 4 gear teeth"
  else if isInternal && bool_decide (gearTeeth <= pinionTeeth) then
    throw "Pinion must have fewer teeth than internal gear"
  else
    let gearRadius := (gearTeeth * 0.5) / PI in
    let pinionRadius := (pinionTeeth * 0.5) / PI in
    let szLen :=
      match sizeMeasurement with
      | diaPitch => 1.0
      | centerDist =>
          gearRadius + (if isInternal then - pinionRadius else pinionRadius)
      | mod_ => 1.0 / PI
      end in
    if negb (Js.isFinite sizeNumber) || bool_decide (sizeNumber <= 0) then
      (* the source appends the number to the message *)
      throw "Invalid size number"
    else
      let scale := sizeNumber / szLen in
      let rackProps :=
        Rack.mkRackProps contactRatio pressureAngle profileShift
          balancePercent 0.0 0 0 in
      let pinionRackProps :=
        Rack.mkRackProps (Rack.contactRatio rackProps)
          (Rack.pressureAngle rackProps) (Rack.profileShift rackProps)
          (Rack.balancePercent rackProps)
          (backlashPercent * -0.5)
          (Rack.topClrPercent rackProps)
          clearancePercent in
      pinionRack ← called (CallMakeRack pinionRackProps)
                     (Ok (Rack.makeRack pinionRackProps));
      let gearRackProps :=
        Rack.mkRackProps (Rack.contactRatio rackProps)
          (Rack.pressureAngle rackProps)
          (if isInternal then profileShift else - profileShift)
          (if isInternal then Rack.balancePercent rackProps
           else 100 - Rack.balancePercent rackProps)
          (backlashPercent * (if isInternal then 0.5 else -0.5))
          (if isInternal then clearancePercent else 0)
          (if isInternal then 0 else clearancePercent) in
      gearRack ← called (CallMakeRack gearRackProps)
                   (Ok (Rack.makeRack gearRackProps));
      let faceT := faceTolPercent / (100 * PI) in
      let filletT := filletTolPercent / (100 * PI) in
      pinionTooth ← cutTooth pinionTeeth pinionRadius faceT filletT
                      pinionRack maxFillet applyMaxToothFillet;
      gearTooth ← cutTooth gearTeeth gearRadius faceT filletT gearRack
                    maxFillet
                    (if isInternal then applyInternalToothFillet
                     else applyMaxToothFillet);
      let '(pinionPath, pinionArcsPerTooth) := pinionTooth in
      let '(gearPath, gearArcsPerTooth) := gearTooth in
      pure {|
        gear := fun Q _ pen =>
          a ← drawGearFromTooth (GearCutterPenAdapter.mk pen) true scale
                gearPath gearTeeth;
          Ok (GearCutterPenAdapter.pen2d a);
        gearPitchDiameter := gearRadius * 2.0 * scale;
        pinion := fun Q _ pen =>
          a ← drawGearFromTooth (GearCutterPenAdapter.mk pen) true scale
                pinionPath pinionTeeth;
          Ok (GearCutterPenAdapter.pen2d a);
        pinionPitchDiameter := pinionRadius * 2.0 * scale;
        gearArcsPerTooth := gearArcsPerTooth;
        pinionArcsPerTooth := pinionArcsPerTooth
      |}.

End CreateGearPair.
End GearCutter.

(* ================================================================== *)
(** ** ConstantRadiusCut.ts *)

Module ConstantRadiusCut.

Record t : Type := mk { r : R }.

Definition getDiscontinuityThetas (c : t) (_minTheta _maxTheta : R) : list R :=
  [].

Definition getR (c : t) (_theta : R) : R := r c.

(** [drawSegment] calls itself on the two halves of a span that is too
    wide; [depth] bounds the nesting of these calls, and [None] says that the
    bound was reached. *)
Fixpoint drawSegment {P} {pen_P : Pen P} (depth : nat) (c : t) (pen : P)
    (thetaFrom thetaTo : R) (doInitialMove : bool) : option (Result P) :=
  if decide (thetaFrom - thetaTo > PI * 0.6) then
    match depth with
    | O => None
    | S depth' =>
        let mid := thetaFrom + (thetaTo - thetaFrom) * 0.5 in
        match drawSegment depth' c pen thetaFrom mid doInitialMove with
        | Some (Ok pen) => drawSegment depth' c pen mid thetaTo false
        | Some (Throw msg) => Some (Throw msg)
        | None => None
        end
    end
  else
    let sx := cos thetaFrom * r c in
    let sy := sin thetaFrom * r c in
    let ex := cos thetaTo * r c in
    let ey := sin thetaTo * r c in
    Some (pen ← (if doInitialMove then Pen.moveTo sx sy pen
                 else Pen.arcTo sx sy 0 pen);
          Pen.arcTo ex ey (thetaTo - thetaFrom) pen).

End ConstantRadiusCut.

(* ================================================================== *)
(** ** InitialMaxFilletPen.ts: the path helper [reverseAndFlipPath] *)

Module FilletPaths.

Definition reverseAndFlipPath (path : PathFunc) : Result PathFunc :=
  rec ← XForm.transformPath path (XForm.scale 1 true XForm.new);
  Ok (RecordingPen.reversedPath rec).

End FilletPaths.

(* ================================================================== *)
(** * Properties *)

(** ** Stand-ins for the parts that are parameters

    Closed examples need some value for each parameter.  These are the
    simplest ones: a search that returns its bounds, a cutter that ignores
    the rack and draws a single point, a fillet pass that changes nothing. *)
Module Sample.

Definition search : FloatBinarySearch := fun lo hi _ => (lo, hi).

Definition geom : GeomConstants := PI / 180.

Definition cutter : ToothCutterApi := {|
  ToothCutter := unit;
  newToothCutter _ _ _ _ := Ok tt;
  ToothCutter_pen := {| Pen.moveTo _ _ c := Ok c;
                        Pen.arcTo _ _ _ c := Ok c |};
  drawToothPath _ := fun P _ doMove pen =>
    if doMove then Pen.moveTo 1 0 pen else Ok pen
|}.

Definition fillet : FilletApi := {|
  applyMaxToothFillet path := Ok path;
  applyInternalToothFillet path := Ok path
|}.

End Sample.

(* ------------------------------------------------------------------ *)
(** ** arcUtils.ts: the ends of [interpolateArcTurn] *)

Module ArcUtilsFacts.
Import ArcUtils.

Lemma versine_neg theta : versine (- theta) = versine theta.
Proof.
  unfold versine.
  replace (- theta * 0.5) with (- (theta * 0.5)) by lra.
  rewrite sin_neg. lra.
Qed.

(** At [target_turn = 0] the forward factor is [-1/2] and the cross factor
    vanishes: the point returned lies half a chord before the start. *)
Lemma interpolateArcTurn_at_0 x1 y1 x2 y2 turn :
  sin (turn * 0.5) ≠ 0 ->
  interpolateArcTurn x1 y1 x2 y2 turn 0
  = (x1 - (x2 - x1) * 0.5, y1 - (y2 - y1) * 0.5).
Proof.
  intros Hs. unfold interpolateArcTurn, pointFromForwardAndCrossFactors.
  replace (0 - turn * 0.5) with (- (turn * 0.5)) by lra.
  rewrite versine_neg, sin_neg.
  f_equal; field; exact Hs.
Qed.

(** At [target_turn = turn] the forward factor is [1/2]: the point returned
    is the middle of the chord. *)
Lemma interpolateArcTurn_at_turn x1 y1 x2 y2 turn :
  sin (turn * 0.5) ≠ 0 ->
  interpolateArcTurn x1 y1 x2 y2 turn turn
  = (x1 + (x2 - x1) * 0.5, y1 + (y2 - y1) * 0.5).
Proof.
  intros Hs. unfold interpolateArcTurn, pointFromForwardAndCrossFactors.
  replace (turn - turn * 0.5) with (turn * 0.5) by lra.
  f_equal; field; exact Hs.
Qed.

Lemma sin_half_turn_nonzero turn :
  -2 * PI < turn < 2 * PI -> turn ≠ 0 -> sin (turn * 0.5) ≠ 0.
Proof.
  intros [Hlo Hhi] Hnz.
  destruct (Rlt_le_dec 0 turn) as [Hpos|Hneg].
  - apply Rgt_not_eq, sin_gt_0; lra.
  - assert (0 < sin (- (turn * 0.5))) as Hs by (apply sin_gt_0; lra).
    rewrite sin_neg in Hs. lra.
Qed.

(** On the whole domain of the claim the ends are missed: for distinct
    points and a nonzero turn in (-2 PI, 2 PI), the result at target turn 0
    is not [p1] and the result at target turn [turn] is not [p2]. *)
Lemma interpolateArcTurn_misses_both_ends x1 y1 x2 y2 turn :
  -2 * PI < turn < 2 * PI -> turn ≠ 0 -> (x1, y1) ≠ (x2, y2) ->
  interpolateArcTurn x1 y1 x2 y2 turn 0 ≠ (x1, y1)
  ∧ interpolateArcTurn x1 y1 x2 y2 turn turn ≠ (x2, y2).
Proof.
  intros Hrange Hnz Hdist.
  pose proof (sin_half_turn_nonzero turn Hrange Hnz) as Hs.
  rewrite (interpolateArcTurn_at_0 _ _ _ _ _ Hs).
  rewrite (interpolateArcTurn_at_turn _ _ _ _ _ Hs).
  split; intros [= Ex Ey]; apply Hdist; f_equal; lra.
Qed.

Lemma sin_half_PI : sin (PI * 0.5) = 1.
Proof. replace (PI * 0.5) with (PI / 2) by lra. apply sin_PI2. Qed.

(** C1, on the code: for the half circle from (0,0) to (1,0)
    ([turn = PI]), [interpolateArcTurn] returns (-1/2, 0) at target turn 0
    and (1/2, 0) at target turn [PI]; neither is the end point the
    documentation of the function promises, and each is half a chord
    away from it. *)
Theorem interpolateArcTurn_ends_off_by_half_chord :
  interpolateArcTurn 0 0 1 0 PI 0 = (-0.5, 0)
  ∧ interpolateArcTurn 0 0 1 0 PI PI = (0.5, 0)
  ∧ interpolateArcTurn 0 0 1 0 PI 0 ≠ (0, 0)
  ∧ interpolateArcTurn 0 0 1 0 PI PI ≠ (1, 0).
Proof.
  assert (Hs : sin (PI * 0.5) ≠ 0) by (rewrite sin_half_PI; lra).
  rewrite (interpolateArcTurn_at_0 _ _ _ _ _ Hs).
  rewrite (interpolateArcTurn_at_turn _ _ _ _ _ Hs).
  repeat split.
  - f_equal; lra.
  - f_equal; lra.
  - intros [= E]. lra.
  - intros [= E]. lra.
Qed.

End ArcUtilsFacts.

(* ------------------------------------------------------------------ *)
(** ** The exception monad *)

Lemma Result_bind_ext {A B} (m : Result A) (k1 k2 : A -> Result B) :
  (∀ a, k1 a = k2 a) -> m ≫= k1 = m ≫= k2.
Proof. intros E. destruct m; cbn; auto. Qed.

Lemma Result_bind_ret {A} (m : Result A) : m ≫= (λ a, Ok a) = m.
Proof. by destruct m. Qed.

Lemma Result_bind_Ok {A B} (m : Result A) (k : A -> Result B) (b : B) :
  m ≫= k = Ok b -> ∃ a, m = Ok a ∧ k a = Ok b.
Proof. destruct m; cbn; [eauto|discriminate]. Qed.

(* ------------------------------------------------------------------ *)
(** ** rack.ts: the outline drawn by [makeRack] *)

Module RackFacts.
Import Rack.

(** The defaults of [createGearPair], for the pinion rack. *)
Definition default_props : RackProps :=
  mkRackProps 1.5 20 0 50 0 0 15.

Lemma end_minus_start (botx bkw : R) :
  - botx + bkw - (-1.0 - botx + bkw) = 1.
Proof. lra. Qed.

(** The claim about [makeRack], as the specification words it: a move and
    four straight [arcTo]s, the last point [2 * PI] to the right of the
    first at the same height. *)
Definition pitch_is_two_pi (props : RackProps) : Prop :=
  ∃ sx sy x1 y1 x2 y2 x3 y3 ex ey,
    makeRack props LogPen _ true []
    = Ok [MoveTo sx sy; ArcTo x1 y1 0; ArcTo x2 y2 0; ArcTo x3 y3 0;
          ArcTo ex ey 0]
    ∧ ex - sx = 2 * PI ∧ ey = sy.

(** C3, as stated, fails: with the default rack the end of the outline is
    not [2 * PI] to the right of its start. *)
Lemma makeRack_pitch_not_two_pi : ¬ pitch_is_two_pi default_props.
Proof.
  intros (sx & sy & x1 & y1 & x2 & y2 & x3 & y3 & ex & ey & Hrun & Hx & _).
  cbn in Hrun. injection Hrun as <- _ _ _ _ _ _ _ <- _.
  rewrite end_minus_start in Hx.
  pose proof PI2_1. lra.
Qed.

(** C3, amended: for every [RackProps], [makeRack] draws a move followed
    by four straight segments ([turn = 0]); the outline is one period of
    the rack, and its last point is exactly 1 (one circular pitch, the
    module being [1 / PI]) to the right of its first point, at the same
    height, so the outline does not close.  Called with [doMove = false] it
    makes the same four [arcTo] calls without the move. *)
Theorem makeRack_outline (props : RackProps) :
  ∃ sx sy x1 y1 x2 y2 x3 y3 ex ey,
    (∀ P (pen_P : Pen P) (pen : P),
       makeRack props P _ true pen
       = run_ops [MoveTo sx sy; ArcTo x1 y1 0; ArcTo x2 y2 0; ArcTo x3 y3 0;
                  ArcTo ex ey 0] pen)
    ∧ (∀ P (pen_P : Pen P) (pen : P),
         makeRack props P _ false pen
         = run_ops [ArcTo x1 y1 0; ArcTo x2 y2 0; ArcTo x3 y3 0;
                    ArcTo ex ey 0] pen)
    ∧ ex - sx = 1 ∧ ey = sy.
Proof.
  do 10 eexists. split; [|split; [|split]].
  - intros P pen_P pen. unfold makeRack. cbn.
    do 4 (apply Result_bind_ext; intros ?).
    symmetry. apply Result_bind_ret.
  - intros P pen_P pen. unfold makeRack. cbn.
    do 3 (apply Result_bind_ext; intros ?).
    symmetry. apply Result_bind_ret.
  - apply end_minus_start.
  - reflexivity.
Qed.

End RackFacts.

(* ------------------------------------------------------------------ *)
(** ** LastPointCapturePen.ts *)

Module LastPointCapturePenFacts.
Import LastPointCapturePen.

Definition op_point (o : PenOp) : Point2D :=
  match o with
  | MoveTo x y => (x, y)
  | ArcTo x y _ => (x, y)
  end.

Lemma run_op_capture (o : PenOp) (c : t) :
  run_op o c = Ok (mk (Some (op_point o).1) (Some (op_point o).2)).
Proof. by destruct o. Qed.

Lemma run_ops_capture (ops : list PenOp) (o : PenOp) (c : t) :
  run_ops (ops ++ [o]) c
  = Ok (mk (Some (op_point o).1) (Some (op_point o).2)).
Proof.
  revert c. induction ops as [|o' ops IH]; intros c; cbn.
  - by rewrite run_op_capture.
  - rewrite run_op_capture. cbn. apply IH.
Qed.

(** C10: on a pen that has received no call, [transferMove] leaves the
    target alone and returns [false]; after any calls, the last of which
    goes to [(x, y)], it makes the single call [moveTo(x, y)] on the
    target and returns [true]. *)
Theorem transferMove_spec :
  (∀ T (pen_T : Pen T) (target : T),
     transferMove new target = Ok (target, false))
  ∧ (∀ (ops : list PenOp) (o : PenOp),
       ∃ c, run_ops (ops ++ [o]) new = Ok c
            ∧ (∀ T (pen_T : Pen T) (target : T),
                 transferMove c target
                 = (target' ← Pen.moveTo (op_point o).1 (op_point o).2
                                target;
                    Ok (target', true)))
            ∧ (∀ log : LogPen,
                 transferMove c log
                 = Ok (log ++ [MoveTo (op_point o).1 (op_point o).2],
                       true))).
Proof.
  split; [reflexivity|].
  intros ops o. eexists. split; [apply run_ops_capture|].
  split; reflexivity.
Qed.

End LastPointCapturePenFacts.

(* ------------------------------------------------------------------ *)
(** ** index.ts: validation and pitch diameters of [createGearPair] *)

Module GearCutterFacts.
Import GearCutter.

Lemma Traced_bind_Ok {A B} (m : Traced A) (k : A -> Traced B) (b : B) :
  (m ≫= k).2 = Ok b -> ∃ a, m.2 = Ok a ∧ (k a).2 = Ok b.
Proof.
  unfold mbind, Traced_bind. destruct m as [l [a|msg]]; cbn.
  - eauto.
  - discriminate.
Qed.

Lemma Traced_bind_log {A B} (m : Traced A) (k : A -> Traced B) :
  (m ≫= k).1
  = m.1 ++ match m.2 with Ok a => (k a).1 | Throw _ => [] end.
Proof.
  unfold mbind, Traced_bind. destruct m as [l [a|msg]]; cbn.
  - reflexivity.
  - by rewrite app_nil_r.
Qed.

Lemma Traced_bind_called_log {A B} (c : StageCall) (a : A)
    (k : A -> Traced B) :
  (called c (Ok a) ≫= k).1 = c :: (k a).1.
Proof. reflexivity. Qed.

(** [{gearTeeth: 40, pinionTeeth: 12, sizeType: 'mod', size: 2,
     pressureAngle: 20}]. *)
Definition mod2_props : GearPairProps :=
  mkGearPairProps None None None (Some 20) None None 40 12 None None
                  None None mod_ 2.

(** [{gearTeeth: 3, pinionTeeth: 12, sizeType: 'mod', size: 2}]. *)
Definition three_teeth_props : GearPairProps :=
  mkGearPairProps None None None None None None 3 12 None None
                  None None mod_ 2.

(** C7: with fewer than 4 gear teeth [createGearPair] throws the
    configuration error, whatever the tooth cutter and the fillet pass
    are, and has made no call into the rack or tooth-cutter stages when
    it does: the list of stage calls is empty, and the outcome is the
    exception, not a result. *)
Theorem createGearPair_few_teeth_fails_first
    {geom : GeomConstants} {cutter : ToothCutterApi} {fillet : FilletApi}
    (props : GearPairProps) :
  gearTeeth props < 4 ->
  createGearPair props = ([], Throw "Can't have less than 4 gear teeth").
Proof.
  intros Hlt. unfold createGearPair. cbn zeta.
  destruct (decide (gearTeeth props < 4)) as [_|Hge]; [reflexivity|].
  contradiction.
Qed.

Lemma createGearPair_few_teeth_fails_first_witness :
  gearTeeth three_teeth_props < 4
  ∧ createGearPair (geom := Sample.geom) (cutter := Sample.cutter)
      (fillet := Sample.fillet) three_teeth_props
    = ([], Throw "Can't have less than 4 gear teeth").
Proof.
  assert (H : gearTeeth three_teeth_props < 4) by (cbn; lra).
  split; [exact H|].
  exact (createGearPair_few_teeth_fails_first
           (geom := Sample.geom) (cutter := Sample.cutter)
           (fillet := Sample.fillet) three_teeth_props H).
Defined.

(** What [createGearPair] returns when it returns: the pitch diameters are
    [2 * radius * scale], whatever the cutter drew. *)
Lemma createGearPair_Ok_diameters
    {geom : GeomConstants} {cutter : ToothCutterApi} {fillet : FilletApi}
    (props : GearPairProps) (res : GearPairResult) :
  (createGearPair props).2 = Ok res ->
  sizeType props = mod_ ->
  gearPitchDiameter res
  = (gearTeeth props * 0.5) / PI * 2.0 * (size props / (1.0 / PI))
  ∧ pinionPitchDiameter res
    = (pinionTeeth props * 0.5) / PI * 2.0 * (size props / (1.0 / PI)).
Proof.
  intros Hres Hmod. unfold createGearPair in Hres. cbn zeta in Hres.
  rewrite Hmod in Hres.
  destruct (decide (gearTeeth props < 4)); [discriminate|].
  destruct (_ && _); [discriminate|].
  destruct (_ || _); [discriminate|].
  apply Traced_bind_Ok in Hres as (pinionRack & _ & Hres).
  apply Traced_bind_Ok in Hres as (gearRack & _ & Hres).
  apply Traced_bind_Ok in Hres as ([pinionPath pinionArcs] & _ & Hres).
  apply Traced_bind_Ok in Hres as ([gearPath gearArcs] & _ & Hres).
  cbn in Hres. injection Hres as <-. cbn. split; reflexivity.
Qed.

Lemma mod2_diameters
    {geom : GeomConstants} {cutter : ToothCutterApi} {fillet : FilletApi}
    (res : GearPairResult) :
  (createGearPair mod2_props).2 = Ok res ->
  gearPitchDiameter res = 80 ∧ pinionPitchDiameter res = 24.
Proof.
  intros Hres.
  destruct (createGearPair_Ok_diameters mod2_props res Hres eq_refl)
    as [-> ->].
  pose proof PI_RGT_0. cbn. unfold Q2R. cbn. split; field; lra.
Qed.

(** C2, amended: for [{gearTeeth: 40, pinionTeeth: 12, sizeType: 'mod',
    size: 2, pressureAngle: 20}] the result of [createGearPair] has
    [gearPitchDiameter = 80] and [pinionPitchDiameter = 24], that is
    module times teeth: [2 * R * scale] with [R = teeth * 0.5 / PI] and
    [scale = size / (1 / PI) = 2 * PI]. *)
Theorem createGearPair_mod2_pitch_diameters
    {geom : GeomConstants} {cutter : ToothCutterApi} {fillet : FilletApi}
    (res : GearPairResult) :
  (createGearPair mod2_props).2 = Ok res ->
  gearPitchDiameter res = 80 ∧ pinionPitchDiameter res = 24.
Proof. apply mod2_diameters. Qed.

(** The same call passes the three validations, whatever the cutter is:
    it builds the two racks and constructs the pinion's cutter, so that
    only the tooth cutter or the fillet pass can make it throw. *)
Lemma createGearPair_mod2_reaches_cutter
    {geom : GeomConstants} {cutter : ToothCutterApi} {fillet : FilletApi} :
  ∃ pinionRack gearRack faceT filletT rest,
    (createGearPair mod2_props).1
    = CallMakeRack pinionRack :: CallMakeRack gearRack
      :: CallNewToothCutter 12 (12 * 0.5 / PI) faceT filletT :: rest.
Proof.
  unfold createGearPair. cbn zeta.
  destruct (decide (gearTeeth mod2_props < 4)) as [Hlt|_].
  { cbn in Hlt. lra. }
  cbn [isInternalGear mod2_props default DEFAULT_IS_INTERNAL andb].
  rewrite (bool_decide_eq_false_2 (size mod2_props <= 0)) by (cbn; lra).
  cbn [Js.isFinite negb orb].
  rewrite !Traced_bind_called_log. rewrite Traced_bind_log.
  unfold cutTooth at 1. rewrite Traced_bind_log.
  cbn [called fst app pinionTeeth mod2_props]. do 5 eexists. reflexivity.
Qed.

(** With the stand-in cutter the run goes through. *)
Lemma createGearPair_mod2_returns :
  ∃ res,
    (createGearPair (geom := Sample.geom) (cutter := Sample.cutter)
       (fillet := Sample.fillet) mod2_props).2 = Ok res.
Proof.
  unfold createGearPair. cbn zeta.
  destruct (decide (gearTeeth mod2_props < 4)) as [Hlt|_].
  { cbn in Hlt. lra. }
  cbn [isInternalGear mod2_props default DEFAULT_IS_INTERNAL andb].
  rewrite (bool_decide_eq_false_2 (size mod2_props <= 0))
    by (cbn; lra).
  cbn [Js.isFinite negb orb].
  unfold cutTooth, XForm.processPath, XForm.apply.
  cbn. eexists. reflexivity.
Qed.

Lemma createGearPair_mod2_pitch_diameters_witness :
  ∃ res,
    (createGearPair (geom := Sample.geom) (cutter := Sample.cutter)
       (fillet := Sample.fillet) mod2_props).2 = Ok res
    ∧ gearPitchDiameter res = 80 ∧ pinionPitchDiameter res = 24.
Proof.
  destruct createGearPair_mod2_returns as [res Hres].
  exists res. split; [exact Hres|].
  exact (createGearPair_mod2_pitch_diameters
           (geom := Sample.geom) (cutter := Sample.cutter)
           (fillet := Sample.fillet) res Hres).
Defined.

(** C2, as stated, fails: the pitch diameters returned are not near
    [2·40·0.5/PI·2] and [2·12·0.5/PI·2].  Neither is: the first differs
    from the value claimed by more than 50, the second by more than 15. *)
Lemma createGearPair_mod2_not_as_claimed :
  ¬ (∀ (geom : GeomConstants) (cutter : ToothCutterApi)
       (fillet : FilletApi) (res : GearPairResult),
       (createGearPair mod2_props).2 = Ok res ->
       Rabs (gearPitchDiameter res - 2 * 40 * 0.5 / PI * 2) <= 50
       ∨ Rabs (pinionPitchDiameter res - 2 * 12 * 0.5 / PI * 2) <= 15).
Proof.
  intros Hclaim.
  destruct createGearPair_mod2_returns as [res Hres].
  specialize (Hclaim Sample.geom Sample.cutter Sample.fillet res Hres).
  destruct (mod2_diameters
              (geom := Sample.geom) (cutter := Sample.cutter)
              (fillet := Sample.fillet) res Hres) as [Eg Ep].
  rewrite Eg, Ep in Hclaim.
  pose proof PI2_3_2 as Hpi.
  assert (Hinv : / PI < / 3).
  { apply Rinv_lt_contravar; lra. }
  assert (Hpos : 0 < / PI) by (apply Rinv_0_lt_compat; lra).
  destruct Hclaim as [H|H].
  - rewrite Rabs_pos_eq in H; unfold Rdiv in *; lra.
  - rewrite Rabs_pos_eq in H; unfold Rdiv in *; lra.
Qed.

End GearCutterFacts.

(* ------------------------------------------------------------------ *)
(** ** XFormPen.ts: the scalars of the builder *)

Module XFormFacts.
Import XForm.

Lemma floor_bounds (x : R) : Js.floor x <= x < Js.floor x + 1.
Proof.
  unfold Js.floor. destruct (base_Int_part x) as [Hle Hgt]. lra.
Qed.

Definition in_range (X : t) : Prop :=
  0 <= rotDegrees X < 360 ∧ scaleFactor X >= 0.

Lemma in_range_new : in_range new.
Proof. unfold in_range. cbn. lra. Qed.

Lemma rotDegrees_rotate (degrees : R) (X : t) :
  0 <= rotDegrees (rotate degrees X) < 360.
Proof.
  unfold rotate. cbn.
  set (rot := rotDegrees X + degrees * flipYinFac X).
  pose proof (floor_bounds (rot / 360.0)) as [Hlo Hhi].
  unfold Rdiv in *. lra.
Qed.

Lemma in_range_rotate (degrees : R) (X : t) :
  in_range X -> in_range (rotate degrees X).
Proof.
  intros [_ Hs]. split; [apply rotDegrees_rotate|exact Hs].
Qed.

Lemma in_range_translate (x y : R) (X : t) :
  in_range X -> in_range (translate x y X).
Proof. intros H. exact H. Qed.

Lemma in_range_scale (fac : R) (flipY : bool) (X : t) :
  in_range X -> in_range (scale fac flipY X).
Proof.
  intros [Hr Hs]. unfold scale.
  destruct (decide (fac < 0.0)) as [Hneg|Hpos].
  - assert (in_range
              (mk (prevTransform (rotate 180 X)) (rotDegrees (rotate 180 X))
                  (scaleFactor (rotate 180 X) * - fac)
                  (flipYinFac (rotate 180 X)) (tx (rotate 180 X))
                  (ty (rotate 180 X)))) as Hin.
    { split; cbn [rotDegrees scaleFactor].
      - apply rotDegrees_rotate.
      - cbn. nra. }
    destruct flipY; exact Hin.
  - assert (in_range
              (mk (prevTransform X) (rotDegrees X) (scaleFactor X * fac)
                  (flipYinFac X) (tx X) (ty X))) as Hin.
    { split; cbn; [exact Hr|nra]. }
    destruct flipY; exact Hin.
Qed.

Lemma in_range_processInput_depth (depth : nat) (w : PenWrapper) (X : t) :
  in_range X -> in_range (processInput_depth depth w X).
Proof.
  intros Hin. destruct depth as [|depth]; cbn; [exact Hin|].
  destruct (is_identity X).
  - destruct (prevTransform X); exact Hin.
  - unfold in_range. cbn. lra.
Qed.

Lemma in_range_processInput (w : PenWrapper) (X : t) :
  in_range X -> in_range (processInput w X).
Proof. apply in_range_processInput_depth. Qed.

(** The nested call of [processInput] is made on a fresh [XForm] and
    returns at once: a depth of 2 is all the code can use. *)
Lemma processInput_depth_enough (n : nat) (w : PenWrapper) (X : t) :
  processInput_depth (S (S n)) w X = processInput w X.
Proof.
  unfold processInput. cbn.
  destruct (is_identity X); [reflexivity|].
  destruct (prevTransform X) as [p|]; [|reflexivity].
  assert (Hid : is_identity new = true).
  { unfold is_identity. cbn. rewrite !bool_decide_eq_true_2; auto; lra. }
  destruct n; cbn; rewrite Hid; reflexivity.
Qed.

(** One call on the builder. *)
Inductive BuilderCall : Type :=
| CallRotate (degrees : R)
| CallTranslate (x y : R)
| CallScale (fac : R) (flipY : bool)
| CallClip (nx ny minprod : R)
| CallProcessInput (preprocess : PenWrapper).

Definition run_call {search : FloatBinarySearch} (X : t) (c : BuilderCall)
  : t :=
  match c with
  | CallRotate degrees => rotate degrees X
  | CallTranslate x y => translate x y X
  | CallScale fac flipY => scale fac flipY X
  | CallClip nx ny minprod => clip nx ny minprod X
  | CallProcessInput preprocess => processInput preprocess X
  end.

Lemma in_range_run_call {search : FloatBinarySearch} (X : t) (c : BuilderCall) :
  in_range X -> in_range (run_call X c).
Proof.
  destruct c; cbn.
  - apply in_range_rotate.
  - apply in_range_translate.
  - apply in_range_scale.
  - apply in_range_processInput.
  - apply in_range_processInput.
Qed.

Lemma in_range_run_calls {search : FloatBinarySearch} (calls : list BuilderCall)
    (X : t) :
  in_range X -> in_range (foldl run_call X calls).
Proof.
  revert X. induction calls as [|c calls IH]; intros X HX; cbn; [exact HX|].
  apply IH, in_range_run_call, HX.
Qed.




End XFormFacts.

(* ------------------------------------------------------------------ *)
(** ** ClippingPen.ts *)

#[global] Instance Result_fmap : FMap Result := fun A B f m =>
  match m with
  | Ok a => Ok (f a)
  | Throw msg => Throw msg
  end.

Definition op_x (o : PenOp) : R :=
  match o with MoveTo x _ => x | ArcTo x _ _ => x end.

Definition op_y (o : PenOp) : R :=
  match o with MoveTo _ y => y | ArcTo _ y _ => y end.

(** The invariant of a path: it is empty or starts with a move. *)
Definition starts_with_move (ops : list PenOp) : Prop :=
  match ops with
  | [] => True
  | MoveTo _ _ :: _ => True
  | ArcTo _ _ _ :: _ => False
  end.

(** The calls with a leading [arcTo] replaced by a [moveTo] to the same
    point. *)
Definition move_first (ops : list PenOp) : list PenOp :=
  match ops with
  | ArcTo x y _ :: ops' => MoveTo x y :: ops'
  | _ => ops
  end.

Module ClippingPenFacts.
Import CrappyClippingPen.

Section Generic.
Context {search : FloatBinarySearch}.
Context {T : Type} `{Pen T}.

(** The side of the line the pen keeps, and the other one, as the pen
    tests them on its own fields. *)
Definition keep_side (c : t T) (o : PenOp) : Prop :=
  op_x o * nx c + op_y o * ny c > minprod c.

Definition discard_side (c : t T) (o : PenOp) : Prop :=
  op_x o * nx c + op_y o * ny c <= minprod c.

Definition same_line (c c' : t T) : Prop :=
  nx c' = nx c ∧ ny c' = ny c ∧ minprod c' = minprod c.

(** A call with its point on the keep side, on a pen that is inside or
    receives a move, is the same call on the target. *)
Lemma moveTo_keep (x y : R) (c : t T) :
  x * nx c + y * ny c > minprod c ->
  moveTo x y c
  = (target' ← Pen.moveTo x y (target c);
     Ok (mk target' (nx c) (ny c) (minprod c) x y true true)).
Proof.
  intros Hin. unfold moveTo. cbn.
  rewrite bool_decide_eq_true_2 by exact Hin. reflexivity.
Qed.

Lemma arcTo_keep (x y turn : R) (c : t T) :
  havePoint c = true -> isInside c = true ->
  x * nx c + y * ny c > minprod c ->
  arcTo x y turn c
  = (target' ← Pen.arcTo x y turn (target c);
     Ok (mk target' (nx c) (ny c) (minprod c) x y true true)).
Proof.
  destruct c as [tg n1 n2 mp px py have ins]. cbn.
  intros -> -> Hin. unfold arcTo. cbn.
  rewrite bool_decide_eq_true_2 by lra. reflexivity.
Qed.

Lemma run_ops_keep (ops : list PenOp) (c : t T) :
  havePoint c = true -> isInside c = true ->
  Forall (keep_side c) ops ->
  target <$> run_ops ops c = run_ops ops (target c).
Proof.
  revert c. induction ops as [|o ops IH]; intros c Hhave Hins Hall.
  - reflexivity.
  - apply Forall_cons in Hall as [Ho Hall]. cbn [run_ops].
    assert (run_op o c
            = (target' ← run_op o (target c);
               Ok (mk target' (nx c) (ny c) (minprod c)
                      (op_x o) (op_y o) true true))) as ->.
    { destruct o as [x y|x y turn]; cbn.
      - apply moveTo_keep, Ho.
      - apply arcTo_keep; assumption. }
    destruct (run_op o (target c)) as [t'|msg]; cbn; [|reflexivity].
    apply (IH (mk t' (nx c) (ny c) (minprod c) (op_x o) (op_y o) true true));
      [reflexivity|reflexivity|exact Hall].
Qed.

(** A call with its point on the discard side, on a pen that is not
    inside, reaches the target with nothing. *)
Lemma moveTo_discard (x y : R) (c : t T) :
  x * nx c + y * ny c <= minprod c ->
  moveTo x y c = Ok (mk (target c) (nx c) (ny c) (minprod c) x y true false).
Proof.
  intros Hout. unfold moveTo. cbn.
  rewrite bool_decide_eq_false_2 by lra. reflexivity.
Qed.

Lemma arcTo_discard (x y turn : R) (c : t T) :
  isInside c = false ->
  x * nx c + y * ny c <= minprod c ->
  arcTo x y turn c
  = Ok (mk (target c) (nx c) (ny c) (minprod c) x y true false).
Proof.
  destruct c as [tg n1 n2 mp px py have ins]. cbn.
  intros -> Hout. unfold arcTo. destruct have; cbn.
  - rewrite bool_decide_eq_false_2 by lra. reflexivity.
  - unfold moveTo. cbn. rewrite bool_decide_eq_false_2 by lra. reflexivity.
Qed.

Lemma run_ops_discard (ops : list PenOp) (c : t T) :
  havePoint c = false ∨ isInside c = false ->
  Forall (discard_side c) ops ->
  target <$> run_ops ops c = Ok (target c).
Proof.
  revert c. induction ops as [|o ops IH]; intros c Hst Hall.
  - reflexivity.
  - apply Forall_cons in Hall as [Ho Hall]. cbn [run_ops].
    assert (run_op o c
            = Ok (mk (target c) (nx c) (ny c) (minprod c)
                     (op_x o) (op_y o) true false)) as ->.
    { destruct o as [x y|x y turn]; cbn.
      - apply moveTo_discard, Ho.
      - destruct Hst as [Hhave|Hins].
        + unfold arcTo. rewrite Hhave. cbn. apply moveTo_discard, Ho.
        + apply arcTo_discard; assumption. }
    cbn.
    apply (IH (mk (target c) (nx c) (ny c) (minprod c)
                  (op_x o) (op_y o) true false));
      [right; reflexivity|exact Hall].
Qed.

(** C6: a pen that has received no point yet, fed calls all of whose
    points are strictly on its keep side, makes on its target the same
    calls, point for point; only a leading [arcTo], which has no start
    point yet, arrives as a [moveTo] to the same point, so that a path
    (empty, or starting with a move) arrives unchanged.  Fed calls all of
    whose points are on the discard side, it makes no call on its
    target. *)
Theorem clip_inside_unchanged_outside_empty (c : t T) (ops : list PenOp) :
  havePoint c = false ->
  (Forall (keep_side c) ops ->
   target <$> run_ops ops c = run_ops (move_first ops) (target c)
   ∧ (λ o, (op_x o, op_y o)) <$> move_first ops
     = (λ o, (op_x o, op_y o)) <$> ops
   ∧ (starts_with_move ops ->
      target <$> run_ops ops c = run_ops ops (target c)))
  ∧ (Forall (discard_side c) ops ->
     target <$> run_ops ops c = Ok (target c)).
Proof.
  intros Hfresh. split.
  - intros Hall.
    assert (target <$> run_ops ops c = run_ops (move_first ops) (target c))
      as Hrun.
    { destruct ops as [|o ops]; [reflexivity|].
      apply Forall_cons in Hall as [Ho Hall].
      assert (run_op o c
              = (target' ← Pen.moveTo (op_x o) (op_y o) (target c);
                 Ok (mk target' (nx c) (ny c) (minprod c)
                        (op_x o) (op_y o) true true))) as Hfirst.
      { destruct o as [x y|x y turn]; cbn [run_op op_x op_y].
        - apply moveTo_keep, Ho.
        - change (Pen.arcTo x y turn c) with (arcTo x y turn c).
          unfold arcTo. rewrite Hfresh. cbn [negb].
          apply moveTo_keep, Ho. }
      assert (move_first (o :: ops) = MoveTo (op_x o) (op_y o) :: ops) as ->
        by (by destruct o).
      cbn [run_ops run_op]. rewrite Hfirst.
      destruct (Pen.moveTo _ _ (target c)) as [t'|msg]; cbn; [|reflexivity].
      apply (run_ops_keep ops (mk t' (nx c) (ny c) (minprod c)
                                  (op_x o) (op_y o) true true));
        [reflexivity|reflexivity|exact Hall]. }
    split; [exact Hrun|]. split.
    + by destruct ops as [|[x y|x y turn] ops].
    + intros Hmove. rewrite Hrun.
      by destruct ops as [|[x y|x y turn] ops].
  - intros Hall. apply run_ops_discard; [left; exact Hfresh|exact Hall].
Qed.

(** Without the leading move the first call is changed: the pen turns a
    first [arcTo] into a [moveTo] on its target. *)
Lemma first_arcTo_becomes_moveTo (x y turn : R) (c : t T) :
  havePoint c = false ->
  x * nx c + y * ny c > minprod c ->
  target <$> arcTo x y turn c = Pen.moveTo x y (target c).
Proof.
  intros Hfresh Hin. unfold arcTo. rewrite Hfresh. cbn.
  rewrite moveTo_keep by exact Hin.
  destruct (Pen.moveTo x y (target c)); reflexivity.
Qed.


End Generic.

Lemma new_unit_y {T} (target : T) :
  new target 0 1 0 = mk target 0 1 0 0 0 false false.
Proof.
  unfold new. replace (0 * 0 + 1 * 1) with 1 by lra. rewrite sqrt_1.
  f_equal; lra.
Qed.

Lemma new_unit_x {T} (target : T) :
  new target 1 0 0 = mk target 1 0 0 0 0 false false.
Proof.
  unfold new. replace (1 * 1 + 0 * 0) with 1 by lra. rewrite sqrt_1.
  f_equal; lra.
Qed.

Lemma clip_inside_unchanged_outside_empty_witness :
  let c := new ([] : LogPen) 0 1 0 in
  let inside := [MoveTo 0 1; ArcTo 1 2 0.5] in
  let outside := [MoveTo 0 (-1); ArcTo 1 (-2) 0.5] in
  let clip := pen (search := Sample.search) in
  (target <$> run_ops (pen_P := clip) inside c
   = run_ops (move_first inside) (target c)
   ∧ (λ o, (op_x o, op_y o)) <$> move_first inside
     = (λ o, (op_x o, op_y o)) <$> inside
   ∧ target <$> run_ops (pen_P := clip) inside c = Ok inside)
  ∧ target <$> run_ops (pen_P := clip) outside c = Ok (target c).
Proof.
  intros c inside outside clip.
  assert (Hfresh : havePoint c = false) by reflexivity.
  assert (Hmove : starts_with_move inside) by exact I.
  assert (Hin : Forall (keep_side c) inside).
  { subst c. rewrite new_unit_y.
    repeat constructor; unfold keep_side; cbn; lra. }
  assert (Hout : Forall (discard_side c) outside).
  { subst c. rewrite new_unit_y.
    repeat constructor; unfold discard_side; cbn; lra. }
  pose proof (clip_inside_unchanged_outside_empty
                (search := Sample.search) c inside Hfresh) as [Hkeep _].
  pose proof (clip_inside_unchanged_outside_empty
                (search := Sample.search) c outside Hfresh) as [_ Hdrop].
  destruct (Hkeep Hin) as (Hrun & Hpoints & Hsame).
  split; [split; [exact Hrun|split; [exact Hpoints|exact (Hsame Hmove)]]|].
  exact (Hdrop Hout).
Defined.

(** A segment that enters the kept side with [turn < 1e-6] is cut on its
    chord, whatever the search is: every right turn (negative [turn]),
    however curved, takes this branch. *)
Lemma arcTo_enter_small_turn {search : FloatBinarySearch} {T} `{Pen T}
    (x y turn : R) (c : t T) :
  havePoint c = true -> isInside c = false ->
  x * nx c + y * ny c > minprod c ->
  turn < 1e-6 ->
  let p0 := tx c * nx c + ty c * ny c in
  let p1 := x * nx c + y * ny c in
  let t := (minprod c - p0) / (p1 - p0) in
  let mx := tx c + (x - tx c) * t in
  let my := ty c + (y - ty c) * t in
  arcTo x y turn c
  = (target' ← Pen.moveTo mx my (target c);
     target' ← (if negb (bool_decide (x = mx)) || negb (bool_decide (y = my))
                then Pen.arcTo x y 0 target' else Ok target');
     Ok (mk target' (nx c) (ny c) (minprod c) x y true true)).
Proof.
  destruct c as [tg n1 n2 mp px py have ins]. cbn.
  intros -> -> Hin Hturn. unfold arcTo.
  destruct (decide (turn < 1e-6)) as [_|Hge]; [|contradiction].
  cbn [havePoint isInside negb nx ny minprod tx ty target
       set_isInside set_point set_target].
  rewrite bool_decide_eq_true_2 by lra.
  cbn [havePoint isInside negb nx ny minprod tx ty target
       set_isInside set_point set_target Bool.eqb].
  destruct (Pen.moveTo _ _ tg) as [t1|msg]; cbn; [|reflexivity].
  destruct (_ || _); cbn.
  - destruct (Pen.arcTo x y 0 t1); reflexivity.
  - reflexivity.
Qed.

(** A segment that enters the kept side with [turn >= 1e-6] is cut where
    the search says: at [interpolateArcTurn] of the second component of
    [searchForFloat(0, turn, ...)]. *)
Lemma arcTo_enter_curved {search : FloatBinarySearch} {T} `{Pen T}
    (x y turn : R) (c : t T) :
  havePoint c = true -> isInside c = false ->
  x * nx c + y * ny c > minprod c ->
  ¬ turn < 1e-6 ->
  let midturn :=
    (searchForFloat 0 turn (fun t =>
       let '(mx, my) :=
         ArcUtils.interpolateArcTurn (tx c) (ty c) x y turn t in
       bool_decide (mx * nx c + my * ny c < minprod c))).2 in
  let m := ArcUtils.interpolateArcTurn (tx c) (ty c) x y turn midturn in
  arcTo x y turn c
  = (target' ← Pen.moveTo m.1 m.2 (target c);
     target' ← (if negb (bool_decide (x = m.1))
                   || negb (bool_decide (y = m.2))
                then Pen.arcTo x y (turn - midturn) target'
                else Ok target');
     Ok (mk target' (nx c) (ny c) (minprod c) x y true true)).
Proof.
  destruct c as [tg n1 n2 mp px py have ins].
  cbn [havePoint isInside nx ny minprod tx ty target].
  intros -> -> Hin Hturn. unfold arcTo.
  destruct (decide (turn < 1e-6)) as [Hlt|_]; [contradiction|].
  cbn [havePoint isInside negb nx ny minprod tx ty target
       set_isInside set_point set_target].
  rewrite bool_decide_eq_true_2 by lra.
  cbn [havePoint isInside negb nx ny minprod tx ty target
       set_isInside set_point set_target Bool.eqb].
  destruct (ArcUtils.interpolateArcTurn px py x y turn _) as [mx my].
  cbn [fst snd].
  destruct (Pen.moveTo mx my tg) as [t1|msg]; [|reflexivity].
  cbn [mbind Result_bind].
  destruct (_ || _).
  - destruct (Pen.arcTo x y _ t1); reflexivity.
  - reflexivity.
Qed.

(** C4, on the code: the clipping line is x = 0, keeping x > 0.  The
    path moves to (-1, 0), outside, and draws an arc of turn -1 to (1, 0),
    inside.  The pen does not search along the arc: it emits a move to
    (0, 0), the middle of the chord, and a straight segment ([turn = 0])
    to (1, 0). *)
Theorem clip_right_turn_arc_cut_on_chord {search : FloatBinarySearch} :
  target <$> run_ops [MoveTo (-1) 0; ArcTo 1 0 (-1)]
               (new ([] : LogPen) 1 0 0)
  = Ok [MoveTo 0 0; ArcTo 1 0 0].
Proof.
  rewrite new_unit_x. cbn [run_ops run_op].
  change (Pen.moveTo (-1) 0 ?c) with (moveTo (-1) 0 c).
  rewrite moveTo_discard by (cbn; lra). cbn [mbind Result_bind].
  change (Pen.arcTo 1 0 (-1) ?c) with (arcTo 1 0 (-1) c).
  rewrite arcTo_enter_small_turn;
    [|reflexivity|reflexivity|cbn [nx ny minprod]; lra|lra].
  cbn [mbind Result_bind nx ny minprod tx ty target Pen.moveTo Pen.arcTo
       LogPen_pen app].
  assert (Emx : -1 + (1 - -1) * ((0 - (-1 * 1 + 0 * 0))
                                 / (1 * 1 + 0 * 0 - (-1 * 1 + 0 * 0))) = 0).
  { field_simplify; lra. }
  assert (Emy : 0 + (0 - 0) * ((0 - (-1 * 1 + 0 * 0))
                               / (1 * 1 + 0 * 0 - (-1 * 1 + 0 * 0))) = 0).
  { lra. }
  rewrite Emx, Emy.
  rewrite (bool_decide_eq_false_2 (1 = 0)) by lra. cbn.
  reflexivity.
Qed.

End ClippingPenFacts.

(* ------------------------------------------------------------------ *)
(** ** RecordingPen.ts: replaying a recording *)

Lemma run_ops_app {P} {pen_P : Pen P} (ops1 ops2 : list PenOp) (pen : P) :
  run_ops (ops1 ++ ops2) pen = run_ops ops1 pen ≫= run_ops ops2.
Proof.
  revert pen. induction ops1 as [|o ops1 IH]; intros pen; cbn; [reflexivity|].
  destruct (run_op o pen) as [pen'|msg]; cbn; [apply IH|reflexivity].
Qed.

Lemma removelast_snoc {A} (l : list A) (a : A) : removelast (l ++ [a]) = l.
Proof. rewrite removelast_app by done. cbn. by rewrite app_nil_r. Qed.

Module RecordingPenFacts.
Import RecordingPen.

(** Every state a recorder can be in: it starts empty and changes by
    [moveTo], [arcTo] (when it returns) and [reset]. *)
Inductive reachable : t -> Prop :=
| reachable_empty : reachable empty
| reachable_moveTo x y r : reachable r -> reachable (moveTo x y r)
| reachable_arcTo x y turn r r' :
    reachable r -> arcTo x y turn r = Ok r' -> reachable r'
| reachable_reset r : reachable r -> reachable (reset r).

(** A bare move at the end of a path that has something before it is
    dropped. *)
Definition drop_trailing_move (r : t) : t :=
  if bool_decide (2 <= length (turns r))%nat
     && bool_decide (last (turns r) = Some None)
  then mk (removelast (xs r)) (removelast (ys r)) (removelast (turns r))
  else r.

(** *** The three arrays as one list of entries *)

Abbreviation entry := (R * R * option R)%type.

Definition of_entries (es : list entry) : t :=
  mk (es.*1.*1) (es.*1.*2) (es.*2).

Definition entry_op (e : entry) : PenOp :=
  match e.2 with
  | None => MoveTo e.1.1 e.1.2
  | Some a => ArcTo e.1.1 e.1.2 a
  end.

Lemma length_turns_of_entries es : length (turns (of_entries es)) = length es.
Proof. unfold of_entries. cbn [turns]. by rewrite length_fmap. Qed.

Lemma xs_of_entries es i e :
  es !! i = Some e -> at_index (xs (of_entries es)) i = e.1.1.
Proof.
  intros He. unfold at_index, of_entries. cbn [xs].
  rewrite !list_lookup_fmap, He. reflexivity.
Qed.

Lemma ys_of_entries es i e :
  es !! i = Some e -> at_index (ys (of_entries es)) i = e.1.2.
Proof.
  intros He. unfold at_index, of_entries. cbn [ys].
  rewrite !list_lookup_fmap, He. reflexivity.
Qed.

Lemma turns_of_entries es i :
  turns (of_entries es) !! i = snd <$> es !! i.
Proof. unfold of_entries. cbn [turns]. by rewrite list_lookup_fmap. Qed.

Lemma of_entries_snoc es e :
  of_entries (es ++ [e])
  = mk (xs (of_entries es) ++ [e.1.1]) (ys (of_entries es) ++ [e.1.2])
       (turns (of_entries es) ++ [e.2]).
Proof. unfold of_entries. cbn [xs ys turns]. by rewrite !fmap_app. Qed.

Lemma of_entries_removelast es e :
  mk (removelast (xs (of_entries (es ++ [e]))))
     (removelast (ys (of_entries (es ++ [e]))))
     (removelast (turns (of_entries (es ++ [e]))))
  = of_entries es.
Proof. rewrite of_entries_snoc. cbn. by rewrite !removelast_snoc. Qed.

(** *** The loops of [path] and [reversedPath], as lists of calls *)

Lemma path_loop_ops {P} {pen_P : Pen P} es fuel i (pen : P) :
  (length es - i <= fuel)%nat ->
  path_loop (of_entries es) fuel i pen
  = run_ops (entry_op <$> drop i es) pen.
Proof.
  revert i pen. induction fuel as [|fuel IH]; intros i pen Hfuel.
  - rewrite drop_ge by lia. reflexivity.
  - cbn [path_loop]. rewrite length_turns_of_entries.
    case_bool_decide as Hi.
    + destruct (lookup_lt_is_Some_2 es i Hi) as [e He].
      rewrite (drop_S _ _ _ He). cbn [fmap list_fmap run_ops].
      rewrite (xs_of_entries _ _ _ He), (ys_of_entries _ _ _ He).
      rewrite turns_of_entries, He. cbn [fmap option_fmap option_map].
      assert (match e.2 with
              | Some a => Pen.arcTo e.1.1 e.1.2 a pen
              | None => Pen.moveTo e.1.1 e.1.2 pen
              end = run_op (entry_op e) pen) as ->.
      { unfold entry_op. by destruct (e.2). }
      apply Result_bind_ext. intros pen'. apply IH. lia.
    + rewrite drop_ge by lia. reflexivity.
Qed.

Lemma path_ops {P} {pen_P : Pen P} es (pen : P) :
  path (of_entries es) P _ true pen = run_ops (entry_op <$> es) pen.
Proof.
  unfold path. cbn [negb]. rewrite length_turns_of_entries.
  rewrite path_loop_ops by lia. reflexivity.
Qed.

Definition neg_turn (a : option R) : option R := Ropp <$> a.

(** The entry the loop of [reversedPath] reads at index [i]: the point
    of entry [i - 1] with the turn of entry [i], negated. *)
Definition rev_entry (es : list entry) (i : nat) : entry :=
  (default 0 (fst <$> (fst <$> es !! (i - 1)%nat)),
   default 0 (snd <$> (fst <$> es !! (i - 1)%nat)),
   neg_turn (mjoin (snd <$> es !! i))).

Fixpoint rev_entries_upto (es : list entry) (i : nat) : list entry :=
  match i with
  | O => []
  | S i' => rev_entry es (S i') :: rev_entries_upto es i'
  end.

Definition rev_entries (es : list entry) : list entry :=
  rev_entries_upto es (length es).

Lemma turn_at_of_entries es (i : nat) :
  turn_at (turns (of_entries es)) (Z.of_nat i) = mjoin (snd <$> es !! i).
Proof.
  unfold turn_at. rewrite length_turns_of_entries, Nat2Z.id.
  rewrite turns_of_entries.
  case_bool_decide as Hi; [|reflexivity].
  rewrite lookup_ge_None_2 by lia. reflexivity.
Qed.

Lemma reversed_loop_ops {P} {pen_P : Pen P} es fuel (i : nat) (pen : P) :
  (i <= fuel)%nat ->
  reversed_loop (of_entries es) fuel (Z.of_nat i) pen
  = run_ops (entry_op <$> rev_entries_upto es i) pen.
Proof.
  revert i pen. induction fuel as [|fuel IH]; intros i pen Hfuel.
  - assert (i = 0%nat) as -> by lia. reflexivity.
  - cbn [reversed_loop]. destruct i as [|i].
    + rewrite bool_decide_eq_false_2 by lia. reflexivity.
    + rewrite bool_decide_eq_true_2 by lia.
      cbn [rev_entries_upto fmap list_fmap run_ops].
      rewrite turn_at_of_entries.
      replace (Z.to_nat (Z.of_nat (S i) - 1)) with i by lia.
      replace (Z.of_nat (S i) - 1)%Z with (Z.of_nat i) by lia.
      assert (match mjoin (snd <$> es !! S i) with
              | Some a =>
                  Pen.arcTo (at_index (xs (of_entries es)) i)
                    (at_index (ys (of_entries es)) i) (- a) pen
              | None =>
                  Pen.moveTo (at_index (xs (of_entries es)) i)
                    (at_index (ys (of_entries es)) i) pen
              end = run_op (entry_op (rev_entry es (S i))) pen) as ->.
      { unfold entry_op, rev_entry, at_index. cbn.
        rewrite Nat.sub_0_r, !list_lookup_fmap.
        destruct (mjoin (snd <$> es !! S i)); reflexivity. }
      apply Result_bind_ext. intros pen'. apply IH. lia.
Qed.

Lemma reversedPath_ops {P} {pen_P : Pen P} es (pen : P) :
  reversedPath (of_entries es) P _ true pen
  = run_ops (entry_op <$> rev_entries es) pen.
Proof.
  unfold reversedPath. cbn [negb]. rewrite length_turns_of_entries.
  apply reversed_loop_ops. lia.
Qed.

(** *** What a recorder can hold *)

Definition mag2 (a b : entry) : R :=
  let dx := b.1.1 - a.1.1 in
  let dy := b.1.2 - a.1.2 in
  dx * dx + dy * dy.

(** Entry [b] directly after entry [a]: a move does not follow a move; an
    arc is not shorter than the recorder accepts, and is straight when it
    is short. *)
Definition pair_ok (a b : entry) : Prop :=
  match b.2 with
  | None => a.2 ≠ None
  | Some turn => ¬ mag2 a b < 1e-14 ∧ (mag2 a b < 1e-8 -> turn = 0)
  end.

Definition good (es : list entry) : Prop :=
  (∀ e, es !! 0%nat = Some e -> e.2 = None)
  ∧ (∀ i a b, es !! i = Some a -> es !! S i = Some b -> pair_ok a b).

Lemma good_nil : good [].
Proof.
  split; [intros e He|intros i a b Ha _]; by rewrite lookup_nil in *.
Qed.

Lemma good_prefix es l : good (es ++ l) -> good es.
Proof.
  intros [Hhead Hadj]. split.
  - intros e He. apply Hhead. by apply lookup_app_l_Some.
  - intros i a b Ha Hb. apply (Hadj i); by apply lookup_app_l_Some.
Qed.

Lemma good_snoc es e :
  good es -> (es = [] -> e.2 = None) ->
  (∀ a, last es = Some a -> pair_ok a e) ->
  good (es ++ [e]).
Proof.
  intros [Hhead Hadj] Hfirst Hlast. split.
  - intros e0 He0. destruct es as [|e1 es]; cbn in He0; injection He0 as <-.
    + by apply Hfirst.
    + by apply Hhead.
  - intros i a b Ha Hb.
    destruct (decide (S i < length es)%nat) as [Hlt|Hge].
    + rewrite lookup_app_l in Ha, Hb by lia. by apply (Hadj i).
    + assert (S i = length es) as Hi.
      { apply lookup_lt_Some in Hb. rewrite length_app in Hb. cbn in Hb.
        lia. }
      rewrite lookup_app_r in Hb by lia.
      rewrite Hi, Nat.sub_diag in Hb. cbn in Hb. injection Hb as <-.
      rewrite lookup_app_l in Ha by lia.
      apply Hlast. rewrite last_lookup.
      replace (pred (length es)) with i by lia. exact Ha.
Qed.

Lemma good_snoc_inv es e :
  good (es ++ [e]) ->
  good es ∧ (es = [] -> e.2 = None)
  ∧ (∀ a, last es = Some a -> pair_ok a e).
Proof.
  intros Hgood. split; [by eapply good_prefix|]. destruct Hgood as [Hhead Hadj].
  split.
  - intros ->. by apply Hhead.
  - intros a Ha. rewrite last_lookup in Ha.
    assert (length es ≠ 0%nat) as Hne.
    { apply lookup_lt_Some in Ha. lia. }
    apply (Hadj (pred (length es))).
    + by apply lookup_app_l_Some.
    + replace (S (pred (length es))) with (length es) by lia.
      by rewrite lookup_app_r, Nat.sub_diag.
Qed.

(** *** One call on a recorder *)

Lemma last_turn_of_entries es :
  turns (of_entries es) !! (length (turns (of_entries es)) - 1)%nat
  = snd <$> last es.
Proof.
  rewrite length_turns_of_entries, turns_of_entries, last_lookup.
  by rewrite Nat.sub_1_r.
Qed.

Lemma moveTo_after_move es x' y' x y :
  moveTo x y (of_entries (es ++ [(x', y', None)]))
  = of_entries (es ++ [(x, y, None)]).
Proof.
  unfold moveTo. rewrite last_turn_of_entries, last_snoc.
  rewrite length_turns_of_entries, length_app.
  rewrite bool_decide_eq_true_2 by (cbn; lia).
  rewrite bool_decide_eq_true_2 by reflexivity.
  cbn [andb]. rewrite of_entries_removelast.
  by rewrite of_entries_snoc.
Qed.

Lemma moveTo_after_other es x y :
  (∀ a, last es = Some a -> a.2 ≠ None) ->
  moveTo x y (of_entries es) = of_entries (es ++ [(x, y, None)]).
Proof.
  intros Hlast. unfold moveTo. rewrite last_turn_of_entries.
  assert (bool_decide (length (turns (of_entries es)) ≠ 0%nat)
          && bool_decide (snd <$> last es = Some None) = false) as ->.
  { apply andb_false_iff. right. apply bool_decide_eq_false_2.
    destruct (last es) as [a|] eqn:Ha; cbn; [|discriminate].
    intros [= Hn]. by apply (Hlast a). }
  by rewrite of_entries_snoc.
Qed.

Lemma arcTo_empty x y turn :
  arcTo x y turn empty = Throw "arc without preceding move in RecordingPen".
Proof. reflexivity. Qed.

Lemma arcTo_of_entries es a x y turn :
  last es = Some a ->
  arcTo x y turn (of_entries es)
  = if decide (mag2 a (x, y, Some turn) < 1e-14) then Ok (of_entries es)
    else Ok (of_entries
               (es ++ [(x, y,
                        Some (if decide (mag2 a (x, y, Some turn) < 1e-8)
                              then 0 else turn))])).
Proof.
  intros Ha. unfold arcTo. rewrite length_turns_of_entries.
  assert (length es ≠ 0%nat) as Hne by (destruct es; [discriminate|done]).
  rewrite bool_decide_eq_false_2 by exact Hne.
  rewrite last_lookup in Ha.
  replace (pred (length es)) with (length es - 1)%nat in Ha by lia.
  rewrite (xs_of_entries _ _ _ Ha), (ys_of_entries _ _ _ Ha).
  unfold mag2. cbn [fst snd].
  destruct (decide (_ < 1e-14)); [reflexivity|].
  by rewrite of_entries_snoc.
Qed.

Lemma record_snoc es e :
  good (es ++ [e]) ->
  run_op (entry_op e) (of_entries es) = Ok (of_entries (es ++ [e])).
Proof.
  intros (Hgood & Hfirst & Hlast)%good_snoc_inv.
  destruct e as [[x y] [turn|]]; unfold entry_op; cbn [fst snd run_op].
  - destruct (last es) as [a|] eqn:Ha.
    + change (Pen.arcTo x y turn ?r) with (arcTo x y turn r).
      rewrite (arcTo_of_entries _ a) by exact Ha.
      destruct (Hlast a eq_refl) as [Hfar Hstraight].
      destruct (decide (_ < 1e-14)); [contradiction|].
      destruct (decide (_ < 1e-8)) as [Hshort|]; [|reflexivity].
      by rewrite (Hstraight Hshort).
    + apply last_None in Ha. specialize (Hfirst Ha). discriminate.
  - cbn. f_equal. apply moveTo_after_other.
    intros a Ha. exact (Hlast a Ha).
Qed.

Lemma replay_forward es :
  good es -> run_ops (entry_op <$> es) empty = Ok (of_entries es).
Proof.
  induction es as [|e es IH] using rev_ind; intros Hgood; [reflexivity|].
  rewrite fmap_app, run_ops_app, IH by (by eapply good_prefix).
  cbn. rewrite record_snoc by exact Hgood. reflexivity.
Qed.

Lemma reachable_good r : reachable r -> ∃ es, r = of_entries es ∧ good es.
Proof.
  induction 1 as [|x y r _ (es & -> & Hgood)
                  |x y turn r r' _ (es & -> & Hgood) Harc
                  |r _ _].
  - exists []. split; [reflexivity|apply good_nil].
  - destruct es as [|e es _] using rev_ind.
    { exists [(x, y, None)]. split; [reflexivity|].
      apply (good_snoc []); [apply good_nil|done|done]. }
    destruct e as [[x' y'] [turn'|]].
    + exists ((es ++ [(x', y', Some turn')]) ++ [(x, y, None)]). split.
      * apply moveTo_after_other. intros a. rewrite last_snoc.
        by intros [= <-].
      * apply good_snoc; [exact Hgood|by destruct es|].
        intros a. rewrite last_snoc. by intros [= <-].
    + exists (es ++ [(x, y, None)]). split; [apply moveTo_after_move|].
      apply good_snoc_inv in Hgood as (Hgood & Hfirst & Hlast).
      apply good_snoc; assumption.
  - destruct (last es) as [a|] eqn:Ha.
    + rewrite (arcTo_of_entries _ a) in Harc by exact Ha.
      destruct (decide (_ < 1e-14)) as [|Hfar]; injection Harc as <-.
      * by exists es.
      * eexists. split; [reflexivity|].
        apply good_snoc; [exact Hgood|by intros ->|].
        intros a' Ha'. rewrite Ha in Ha'. injection Ha' as <-.
        split; [exact Hfar|].
        cbn [snd]. intros Hshort.
        destruct (decide (_ < 1e-8)); [reflexivity|contradiction].
    + apply last_None in Ha as ->. discriminate.
  - exists []. split; [reflexivity|apply good_nil].
Qed.

(** *** Reversal *)

(** No bare move at the end, unless it is the whole path. *)
Definition clean (es : list entry) : Prop :=
  ∀ a, last es = Some a -> (2 <= length es)%nat -> a.2 ≠ None.

Lemma length_rev_entries_upto es i : length (rev_entries_upto es i) = i.
Proof. induction i as [|i IH]; cbn; [reflexivity|by rewrite IH]. Qed.

Lemma lookup_rev_entries_upto es i k :
  (k < i)%nat ->
  rev_entries_upto es i !! k = Some (rev_entry es (i - k)).
Proof.
  revert k. induction i as [|i IH]; intros k Hk; [lia|].
  destruct k as [|k]; [reflexivity|].
  cbn [rev_entries_upto]. rewrite lookup_cons. cbn [Nat.sub].
  apply IH. lia.
Qed.

Lemma length_rev_entries es : length (rev_entries es) = length es.
Proof. apply length_rev_entries_upto. Qed.

Lemma lookup_rev_entries es k :
  (k < length es)%nat ->
  rev_entries es !! k = Some (rev_entry es (length es - k)).
Proof. apply lookup_rev_entries_upto. Qed.

Lemma rev_entry_point es i e :
  es !! i = Some e -> (rev_entry es (S i)).1 = e.1.
Proof.
  intros He. unfold rev_entry. cbn [fst Nat.sub]. rewrite Nat.sub_0_r, He.
  cbn. by destruct e as [[x y] a].
Qed.

Lemma rev_entry_turn es i e :
  es !! i = Some e -> (rev_entry es i).2 = neg_turn e.2.
Proof. intros He. unfold rev_entry. cbn [snd]. by rewrite He. Qed.

Lemma rev_entry_turn_end es i :
  (length es <= i)%nat -> (rev_entry es i).2 = None.
Proof.
  intros Hi. unfold rev_entry. cbn [snd].
  by rewrite lookup_ge_None_2 by lia.
Qed.

Lemma neg_turn_involutive a : neg_turn (neg_turn a) = a.
Proof. destruct a as [a|]; cbn; [|reflexivity]. f_equal. lra. Qed.

Lemma mag2_sym (a b : entry) : mag2 a b = mag2 b a.
Proof. unfold mag2. cbn zeta. ring. Qed.

Lemma mag2_points (a a' b b' : entry) :
  a.1 = a'.1 -> b.1 = b'.1 -> mag2 a b = mag2 a' b'.
Proof. unfold mag2. by intros -> ->. Qed.

Lemma rev_entries_involutive es : good es -> rev_entries (rev_entries es) = es.
Proof.
  intros [Hhead _]. apply list_eq. intros k.
  destruct (decide (k < length es)%nat) as [Hk|Hk].
  - rewrite lookup_rev_entries by (by rewrite length_rev_entries).
    rewrite length_rev_entries.
    destruct (lookup_lt_is_Some_2 es k Hk) as [e He]. rewrite He. f_equal.
    apply injective_projections.
    + replace (length es - k)%nat with (S (length es - k - 1)) by lia.
      erewrite rev_entry_point; last first.
      { apply lookup_rev_entries. lia. }
      replace (length es - (length es - k - 1))%nat with (S k) by lia.
      by apply rev_entry_point.
    + destruct k as [|k].
      * rewrite rev_entry_turn_end by (rewrite length_rev_entries; lia).
        symmetry. by apply Hhead.
      * erewrite rev_entry_turn; last first.
        { apply lookup_rev_entries. lia. }
        replace (length es - (length es - S k))%nat with (S k) by lia.
        rewrite (rev_entry_turn _ _ _ He). apply neg_turn_involutive.
  - rewrite !lookup_ge_None_2; [reflexivity|lia|].
    rewrite !length_rev_entries. lia.
Qed.

Lemma good_rev_entries es : good es -> clean es -> good (rev_entries es).
Proof.
  intros [Hhead Hadj] Hclean. split.
  - intros e He. rewrite lookup_rev_entries in He.
    + injection He as <-. apply rev_entry_turn_end. lia.
    + apply lookup_lt_Some in He. by rewrite length_rev_entries in He.
  - intros k a b Ha Hb.
    assert (S k < length es)%nat as Hk.
    { apply lookup_lt_Some in Hb. by rewrite length_rev_entries in Hb. }
    rewrite lookup_rev_entries in Ha, Hb by lia.
    injection Ha as <-. injection Hb as <-.
    set (j := (length es - S k)%nat).
    replace (length es - k)%nat with (S j) by lia.
    assert (0 < j < length es)%nat as Hj by lia.
    destruct (lookup_lt_is_Some_2 es j) as [ej Hej]; [lia|].
    destruct (lookup_lt_is_Some_2 es (j - 1)) as [ep Hep]; [lia|].
    assert (pair_ok ep ej) as Hok.
    { apply (Hadj (j - 1)%nat); [exact Hep|].
      by replace (S (j - 1)) with j by lia. }
    unfold pair_ok. rewrite (rev_entry_turn _ _ _ Hej).
    unfold pair_ok in Hok.
    destruct (ej.2) as [turn|] eqn:Hturn; cbn [neg_turn fmap option_fmap
                                                option_map].
    + assert (mag2 (rev_entry es (S j)) (rev_entry es j) = mag2 ep ej) as ->.
      { rewrite mag2_sym. apply mag2_points.
        - replace j with (S (j - 1)) at 1 by lia. by apply rev_entry_point.
        - by apply rev_entry_point. }
      destruct Hok as [Hfar Hstraight]. split; [exact Hfar|].
      intros Hshort. rewrite (Hstraight Hshort). lra.
    + destruct (decide (S j < length es)%nat) as [Hlt|Hge].
      * destruct (lookup_lt_is_Some_2 es (S j) Hlt) as [en Hen].
        rewrite (rev_entry_turn _ _ _ Hen).
        specialize (Hadj j ej en Hej Hen). unfold pair_ok in Hadj.
        destruct (en.2); [discriminate|]. by rewrite Hturn in Hadj.
      * exfalso. apply (Hclean ej); [|lia|exact Hturn].
        rewrite last_lookup. by replace (pred (length es)) with j by lia.
Qed.

Lemma rev_entries_upto_snoc_move es x y i :
  (i <= length es)%nat ->
  rev_entries_upto (es ++ [(x, y, None)]) i = rev_entries_upto es i.
Proof.
  induction i as [|i IH]; intros Hi; [reflexivity|].
  cbn [rev_entries_upto]. rewrite IH by lia. f_equal.
  unfold rev_entry. cbn [Nat.sub]. rewrite Nat.sub_0_r.
  rewrite (lookup_app_l es) by lia.
  destruct (decide (S i < length es)%nat) as [Hlt|Hge].
  - by rewrite (lookup_app_l es) by lia.
  - assert (S i = length es) as -> by lia.
    rewrite (lookup_app_r es) by reflexivity.
    rewrite Nat.sub_diag.
    by rewrite (lookup_ge_None_2 es (length es)) by reflexivity.
Qed.

Lemma rev_entries_snoc_move es x y :
  rev_entries (es ++ [(x, y, None)]) = (x, y, None) :: rev_entries es.
Proof.
  unfold rev_entries. rewrite length_app, Nat.add_1_r.
  cbn [rev_entries_upto]. rewrite rev_entries_upto_snoc_move by lia.
  f_equal. unfold rev_entry. cbn [Nat.sub]. rewrite Nat.sub_0_r.
  rewrite (lookup_app_r es) by reflexivity.
  rewrite Nat.sub_diag.
  rewrite (lookup_ge_None_2 (es ++ _)) by (rewrite length_app; cbn; lia).
  reflexivity.
Qed.

Lemma run_ops_move_move (x y x' y' : R) (ops : list PenOp) :
  run_ops (MoveTo x y :: MoveTo x' y' :: ops) empty
  = run_ops (MoveTo x' y' :: ops) empty.
Proof. reflexivity. Qed.

Lemma last_turns_of_entries es :
  last (turns (of_entries es)) = snd <$> last es.
Proof. unfold of_entries. cbn [turns]. apply fmap_last. Qed.

Lemma drop_trailing_move_clean es :
  clean es -> drop_trailing_move (of_entries es) = of_entries es.
Proof.
  intros Hclean. unfold drop_trailing_move.
  rewrite length_turns_of_entries, last_turns_of_entries.
  case_bool_decide as Hlen; [|reflexivity].
  rewrite bool_decide_eq_false_2; [reflexivity|].
  destruct (last es) as [a|] eqn:Ha; cbn; [|discriminate].
  intros [= Hn]. by apply (Hclean a).
Qed.

Lemma drop_trailing_move_snoc es x y :
  es ≠ [] ->
  drop_trailing_move (of_entries (es ++ [(x, y, None)])) = of_entries es.
Proof.
  intros Hne. unfold drop_trailing_move.
  rewrite length_turns_of_entries, last_turns_of_entries, last_snoc.
  rewrite length_app. cbn [length fmap option_fmap option_map snd].
  rewrite bool_decide_eq_true_2 by (destruct es; [done|cbn; lia]).
  rewrite bool_decide_eq_true_2 by reflexivity.
  cbn [andb]. apply of_entries_removelast.
Qed.

Lemma reverse_clean es :
  good es -> clean es ->
  reversedPath (of_entries es) _ _ true empty
  = Ok (of_entries (rev_entries es))
  ∧ (∀ P (pen_P : Pen P) (pen : P),
       reversedPath (of_entries (rev_entries es)) P _ true pen
       = path (of_entries es) P _ true pen)
  ∧ reversedPath (of_entries (rev_entries es)) _ _ true empty
    = Ok (of_entries es).
Proof.
  intros Hgood Hclean.
  assert (∀ P (pen_P : Pen P) (pen : P),
            reversedPath (of_entries (rev_entries es)) P _ true pen
            = path (of_entries es) P _ true pen) as Hback.
  { intros P pen_P pen.
    by rewrite reversedPath_ops, path_ops, rev_entries_involutive. }
  split; [|split; [exact Hback|]].
  - rewrite reversedPath_ops. apply replay_forward.
    by apply good_rev_entries.
  - rewrite Hback, path_ops. by apply replay_forward.
Qed.

Lemma rev_entries_head es e :
  last es = Some e ->
  ∃ l, rev_entries es = (e.1, None) :: l.
Proof.
  intros He. unfold rev_entries.
  destruct (length es) as [|n] eqn:Hn.
  { destruct es; [discriminate|done]. }
  cbn [rev_entries_upto]. eexists. f_equal.
  rewrite last_lookup, Hn in He. cbn [pred] in He.
  apply injective_projections.
  - cbn [fst]. by apply rev_entry_point.
  - cbn [snd]. apply rev_entry_turn_end. lia.
Qed.

(** C5: for every state [r] a recorder can reach, replaying [r.path] with
    [doMove = true] onto a new recorder leaves that recorder with the
    arrays of [r]; replaying [r.reversedPath] onto a new recorder gives a
    recorder [r1] whose [reversedPath] makes, on any pen, the calls of the
    path of [r] without its trailing bare move, and replayed onto a new
    recorder gives [r] without its trailing bare move. *)
Theorem record_replay_round_trip (r : t) :
  reachable r ->
  path r _ _ true empty = Ok r
  ∧ ∃ r1,
      reversedPath r _ _ true empty = Ok r1
      ∧ (∀ P (pen_P : Pen P) (pen : P),
           reversedPath r1 P _ true pen
           = path (drop_trailing_move r) P _ true pen)
      ∧ reversedPath r1 _ _ true empty = Ok (drop_trailing_move r).
Proof.
  intros (es & -> & Hgood)%reachable_good. split.
  { rewrite path_ops. by apply replay_forward. }
  destruct es as [|e es _] using rev_ind.
  { exists empty. repeat split. }
  destruct e as [[x y] [turn|]].
  - assert (clean (es ++ [(x, y, Some turn)])) as Hclean.
    { intros a. rewrite last_snoc. by intros [= <-]. }
    rewrite drop_trailing_move_clean by exact Hclean.
    eexists. by apply reverse_clean.
  - destruct (last es) as [a|] eqn:Ha.
    + assert (es ≠ []) as Hne by (by intros ->).
      apply good_snoc_inv in Hgood as (Hgood & _ & Hlast).
      assert (clean es) as Hclean.
      { intros a' Ha' _. rewrite Ha in Ha'. injection Ha' as <-.
        exact (Hlast a Ha). }
      rewrite drop_trailing_move_snoc by exact Hne.
      destruct (reverse_clean es Hgood Hclean) as (Hfwd & Hops & Hback).
      exists (of_entries (rev_entries es)). split; [|by split].
      rewrite reversedPath_ops, rev_entries_snoc_move.
      destruct (rev_entries_head es a Ha) as [l Hl].
      rewrite reversedPath_ops, Hl in Hfwd. rewrite Hl.
      cbn [fmap list_fmap]. unfold entry_op at 1 2. cbn [fst snd].
      rewrite run_ops_move_move. exact Hfwd.
    + apply last_None in Ha as ->.
      assert (clean ([] ++ [(x, y, None)])) as Hclean.
      { intros a _ Hlen. cbn in Hlen. lia. }
      rewrite drop_trailing_move_clean by exact Hclean.
      eexists. by apply reverse_clean.
Qed.

(** The recorder after [moveTo(0, 0)], [arcTo(1, 0, 0.5)], [moveTo(5, 5)]. *)
Definition sample_recorder : t := mk [0; 1; 5] [0; 0; 5] [None; Some 0.5; None].

Lemma reachable_sample : reachable sample_recorder.
Proof.
  assert (moveTo 0 0 empty = of_entries [(0, 0, None)]) as E1.
  { apply (moveTo_after_other []). intros a [=]. }
  assert (arcTo 1 0 0.5 (of_entries [(0, 0, None)])
          = Ok (of_entries [(0, 0, None); (1, 0, Some 0.5)])) as E2.
  { rewrite (arcTo_of_entries _ (0, 0, None)) by reflexivity.
    unfold mag2. cbn [fst snd].
    destruct (decide (_ < 1e-14)) as [Hlt|_]; [lra|].
    destruct (decide (_ < 1e-8)) as [Hlt|_]; [lra|]. reflexivity. }
  assert (moveTo 5 5 (of_entries [(0, 0, None); (1, 0, Some 0.5)])
          = sample_recorder) as E3.
  { rewrite (moveTo_after_other [(0, 0, None); (1, 0, Some 0.5)]).
    - reflexivity.
    - intros a [= <-]. discriminate. }
  rewrite <- E3. apply reachable_moveTo.
  apply (reachable_arcTo 1 0 0.5 (moveTo 0 0 empty)).
  - apply reachable_moveTo, reachable_empty.
  - rewrite E1. exact E2.
Qed.

Lemma record_replay_round_trip_witness :
  reachable sample_recorder
  ∧ path sample_recorder _ _ true empty = Ok sample_recorder
  ∧ ∃ r1,
      reversedPath sample_recorder _ _ true empty = Ok r1
      ∧ (∀ P (pen_P : Pen P) (pen : P),
           reversedPath r1 P _ true pen
           = path (drop_trailing_move sample_recorder) P _ true pen)
      ∧ reversedPath r1 _ _ true empty
        = Ok (drop_trailing_move sample_recorder).
Proof.
  split; [exact reachable_sample|].
  exact (record_replay_round_trip sample_recorder reachable_sample).
Defined.

End RecordingPenFacts.

(* ------------------------------------------------------------------ *)
(** ** pq.ts: the binary heap *)

Module PqFacts.
Import Pq.

Section WithPayload.
Context {A : Type}.
Implicit Types (q : list (Elem A)) (e v : Elem A).

Definition parent (i : nat) : nat := ((i - 1) / 2)%nat.

(** The min-heap order on [q[i][0]]: no element is below its parent. *)
Definition heap q : Prop :=
  ∀ i, (0 < i < length q)%nat -> prio_at q (parent i) <= prio_at q i.

Lemma parent_lt i : (0 < i)%nat -> (parent i < i)%nat.
Proof.
  intros Hi. unfold parent.
  apply Nat.lt_le_trans with (m := S ((i - 1) / 2)); [lia|].
  pose proof (Nat.Div0.div_le_upper_bound (i - 1) 2 (i - 1)). lia.
Qed.

Lemma parent_spec i :
  (0 < i)%nat -> (i = 2 * parent i + 1 ∨ i = 2 * parent i + 2)%nat.
Proof.
  intros Hi. unfold parent.
  pose proof (Nat.div_mod_eq (i - 1) 2).
  pose proof (Nat.mod_upper_bound (i - 1) 2). lia.
Qed.

Lemma parent_left p : parent (2 * p + 1) = p.
Proof.
  unfold parent. replace (2 * p + 1 - 1)%nat with (p * 2)%nat by lia.
  by rewrite Nat.div_mul.
Qed.

Lemma parent_right p : parent (2 * p + 2) = p.
Proof.
  unfold parent. replace (2 * p + 2 - 1)%nat with (1 + p * 2)%nat by lia.
  by rewrite Nat.div_add.
Qed.

Lemma parent_S p : parent (S p) = (p / 2)%nat.
Proof. unfold parent. by rewrite Nat.sub_succ, Nat.sub_0_r. Qed.

(** *** Exchanging two elements *)

Lemma prio_at_swap_l q i j :
  (i < length q)%nat -> (j < length q)%nat ->
  prio_at (swap q i j) i = prio_at q j.
Proof.
  intros Hi Hj. unfold swap, prio_at.
  destruct (lookup_lt_is_Some_2 q i Hi) as [t Ht].
  destruct (lookup_lt_is_Some_2 q j Hj) as [u Hu].
  rewrite Ht, Hu.
  destruct (decide (i = j)) as [->|Hne].
  - rewrite list_lookup_insert_eq by (by rewrite length_insert).
    congruence.
  - rewrite list_lookup_insert_ne by done.
    by rewrite list_lookup_insert_eq.
Qed.

Lemma prio_at_swap_r q i j :
  (i < length q)%nat -> (j < length q)%nat ->
  prio_at (swap q i j) j = prio_at q i.
Proof.
  intros Hi Hj. unfold swap, prio_at.
  destruct (lookup_lt_is_Some_2 q i Hi) as [t Ht].
  destruct (lookup_lt_is_Some_2 q j Hj) as [u Hu].
  rewrite Ht, Hu.
  by rewrite list_lookup_insert_eq by (by rewrite length_insert).
Qed.

Lemma prio_at_swap_other q i j k :
  k ≠ i -> k ≠ j -> prio_at (swap q i j) k = prio_at q k.
Proof.
  intros Hi Hj. unfold swap, prio_at.
  destruct (q !! i) as [t|]; [|reflexivity].
  destruct (q !! j) as [u|]; [|reflexivity].
  by rewrite !list_lookup_insert_ne by done.
Qed.

Lemma insert_Permutation q i e v :
  q !! i = Some e -> e :: <[i := v]> q ≡ₚ v :: q.
Proof.
  revert i. induction q as [|a q IH]; intros [|i] Hi; cbn in *;
    try discriminate.
  - injection Hi as ->. apply perm_swap.
  - etrans; [apply perm_swap|].
    etrans; [apply perm_skip, (IH i Hi)|]. apply perm_swap.
Qed.

Lemma swap_Permutation q i j : swap q i j ≡ₚ q.
Proof.
  unfold swap.
  destruct (q !! i) as [t|] eqn:Ht; [|reflexivity].
  destruct (q !! j) as [u|] eqn:Hu; [|reflexivity].
  revert i j Ht Hu. induction q as [|a q IH]; intros [|i] [|j] Ht Hu;
    cbn in *; try discriminate.
  - injection Ht as ->. injection Hu as ->. reflexivity.
  - injection Ht as ->. by apply insert_Permutation.
  - injection Hu as ->. by apply insert_Permutation.
  - f_equiv. by apply IH.
Qed.

(** *** [pqpush] *)

Lemma push_loop_unfold q p :
  push_loop q (S p)
  = if decide (prio_at q (p / 2) <= prio_at q (S p)) then q
    else push_loop (swap q (p / 2) (S p)) (p / 2).
Proof. by simp push_loop. Qed.

Lemma push_loop_Permutation q pos : push_loop q pos ≡ₚ q.
Proof.
  revert q. induction pos as [pos IH] using lt_wf_ind. intros q.
  destruct pos as [|p]; [by simp push_loop|].
  rewrite push_loop_unfold. destruct (decide _); [reflexivity|].
  rewrite IH, swap_Permutation; [reflexivity|].
  rewrite <- parent_S. apply parent_lt. lia.
Qed.

Lemma length_push_loop q pos : length (push_loop q pos) = length q.
Proof. apply Permutation_length, push_loop_Permutation. Qed.

(** The order holds everywhere except between [pos] and its parent, and
    the parent of [pos] is not above the children of [pos]. *)
Definition heap_but_up q pos : Prop :=
  (∀ i, (0 < i < length q)%nat -> i ≠ pos ->
        prio_at q (parent i) <= prio_at q i)
  ∧ (∀ c, (0 < pos)%nat -> (c < length q)%nat -> (0 < c)%nat ->
          parent c = pos -> prio_at q (parent pos) <= prio_at q c).

Lemma push_loop_heap q pos :
  (pos < length q)%nat -> heap_but_up q pos -> heap (push_loop q pos).
Proof.
  revert q. induction pos as [pos IH] using lt_wf_ind.
  intros q Hpos [Hrest Hgrand].
  destruct pos as [|p].
  { simp push_loop. intros i Hi. apply Hrest; lia. }
  rewrite push_loop_unfold. rewrite <- parent_S.
  set (pos := S p) in *. set (par := parent pos).
  assert (par < pos)%nat as Hpar by (apply parent_lt; lia).
  destruct (decide (prio_at q par <= prio_at q pos)) as [Hle|Hgt].
  { intros i Hi. destruct (decide (i = pos)) as [->|Hne]; [exact Hle|].
    by apply Hrest. }
  apply IH; [exact Hpar|rewrite length_swap; lia|]. split.
  - intros i Hi Hne. rewrite length_swap in Hi.
    destruct (decide (i = pos)) as [->|Hnpos].
    + fold par. rewrite prio_at_swap_l, prio_at_swap_r by lia. lra.
    + rewrite (prio_at_swap_other _ _ _ i) by done.
      assert (parent i < i)%nat by (apply parent_lt; lia).
      destruct (decide (parent i = pos)) as [Hp|Hp].
      * rewrite Hp, prio_at_swap_r by lia.
        apply Hgrand; [lia|lia|lia|exact Hp].
      * destruct (decide (parent i = par)) as [Hp'|Hp'].
        -- rewrite Hp', prio_at_swap_l by lia.
           specialize (Hrest i Hi Hnpos). rewrite Hp' in Hrest. lra.
        -- rewrite prio_at_swap_other by done. by apply Hrest.
  - intros c Hpar0 Hc Hc0 Hpc. rewrite length_swap in Hc.
    assert (parent par < par)%nat by (apply parent_lt; lia).
    rewrite (prio_at_swap_other _ _ _ (parent par)) by lia.
    assert (prio_at q (parent par) <= prio_at q par) as Hpp.
    { apply Hrest; lia. }
    destruct (decide (c = pos)) as [->|Hnpos].
    + by rewrite prio_at_swap_r by lia.
    + assert (par < c)%nat by (rewrite <- Hpc; apply parent_lt; lia).
      rewrite prio_at_swap_other by lia.
      specialize (Hrest c ltac:(lia) Hnpos). rewrite Hpc in Hrest. lra.
Qed.

Lemma prio_at_app_l q v i :
  (i < length q)%nat -> prio_at (q ++ [v]) i = prio_at q i.
Proof. intros Hi. unfold prio_at. by rewrite lookup_app_l. Qed.

Lemma pqpush_heap q v : heap q -> heap (pqpush q v).
Proof.
  intros Hheap. unfold pqpush. apply push_loop_heap.
  { rewrite length_app. cbn. lia. }
  split.
  - intros i Hi Hne. rewrite length_app in Hi. cbn in Hi.
    assert (parent i < i)%nat by (apply parent_lt; lia).
    rewrite !prio_at_app_l by lia. apply Hheap. lia.
  - intros c Hpos Hc Hc0 Hpc. rewrite length_app in Hc. cbn in Hc.
    destruct (parent_spec c Hc0); lia.
Qed.

Lemma pqpush_Permutation q v : pqpush q v ≡ₚ v :: q.
Proof.
  unfold pqpush. rewrite push_loop_Permutation.
  by rewrite Permutation_app_comm.
Qed.

(** *** [pqpop] *)

Lemma pop_loop_unfold q pos leftpos :
  pop_loop q pos leftpos
  = if decide (leftpos < length q)%nat then
      if decide (pop_minpos q pos leftpos = pos) then q
      else pop_loop (swap q pos (pop_minpos q pos leftpos))
                    (pop_minpos q pos leftpos)
                    (pop_minpos q pos leftpos * 2 + 1)
    else q.
Proof.
  rewrite pop_loop_equation_1.
  destruct (decide (leftpos < length q)%nat); cbn; [|reflexivity].
  destruct (decide (pop_minpos q pos leftpos = pos)); reflexivity.
Qed.

Lemma pop_loop_Permutation q pos leftpos :
  (pos < leftpos)%nat -> pop_loop q pos leftpos ≡ₚ q.
Proof.
  remember (length q - leftpos)%nat as n eqn:Hn.
  revert q pos leftpos Hn. induction n as [n IH] using lt_wf_ind.
  intros q pos leftpos -> Hlt. rewrite pop_loop_unfold.
  destruct (decide _) as [Hleft|]; [|reflexivity].
  destruct (decide _) as [|Hne]; [reflexivity|].
  destruct (pop_minpos_cases q pos leftpos) as [?|[Hm|Hm]]; [done| |];
    (erewrite IH; [apply swap_Permutation| |reflexivity|];
     rewrite ?length_swap; lia).
Qed.

Lemma pop_minpos_min q pos leftpos :
  let m := pop_minpos q pos leftpos in
  (m = pos ∨ m = leftpos ∨ (m = leftpos + 1 ∧ leftpos + 1 < length q))%nat
  ∧ prio_at q m <= prio_at q pos
  ∧ prio_at q m <= prio_at q leftpos
  ∧ ((leftpos + 1 < length q)%nat -> prio_at q m <= prio_at q (leftpos + 1))
  ∧ (m ≠ pos -> prio_at q m < prio_at q pos).
Proof.
  unfold pop_minpos.
  destruct (decide (prio_at q pos > prio_at q leftpos)) as [Hl|Hl];
    case_bool_decide as Hlen; cbn [andb];
    try case_bool_decide as Hr;
    (split; [auto|]); repeat split; intros; try lra; try lia;
    try contradiction; try (exfalso; lia).
Qed.

(** The order holds everywhere except between [pos] and its children,
    and the parent of [pos] is not above the children of [pos]. *)
Definition heap_but_down q pos : Prop :=
  (∀ i, (0 < i < length q)%nat -> parent i ≠ pos ->
        prio_at q (parent i) <= prio_at q i)
  ∧ (∀ c, (0 < pos)%nat -> (c < length q)%nat -> (0 < c)%nat ->
          parent c = pos -> prio_at q (parent pos) <= prio_at q c).

Lemma pop_loop_heap q pos :
  heap_but_down q pos -> heap (pop_loop q pos (pos * 2 + 1)).
Proof.
  remember (length q - pos)%nat as n eqn:Hn.
  revert q pos Hn. induction n as [n IH] using lt_wf_ind.
  intros q pos -> [Hrest Hgrand]. rewrite pop_loop_unfold.
  set (leftpos := (pos * 2 + 1)%nat).
  destruct (decide (leftpos < length q)%nat) as [Hleft|Hleft].
  2:{ intros i Hi. apply Hrest; [exact Hi|].
      intros Hp. destruct (parent_spec i); lia. }
  destruct (pop_minpos_min q pos leftpos) as (Hcases & Hpos & Hl & Hr & Hlt).
  set (m := pop_minpos q pos leftpos) in *.
  destruct (decide (m = pos)) as [Hm|Hm].
  { intros i Hi. destruct (decide (parent i = pos)) as [Hp|Hp].
    - rewrite Hp. rewrite Hm in Hl, Hr.
      destruct (parent_spec i) as [Hi'|Hi']; [lia| |].
      + replace i with leftpos by lia. exact Hl.
      + replace i with (leftpos + 1)%nat by lia. apply Hr. lia.
    - by apply Hrest. }
  specialize (Hlt Hm).
  assert (parent m = pos ∧ m < length q ∧ pos < m)%nat
    as (Hpm & Hmlen & Hpm').
  { destruct Hcases as [?|[->|[-> ?]]]; [done| |].
    - split; [|lia]. unfold leftpos.
      replace (pos * 2 + 1)%nat with (2 * pos + 1)%nat by lia.
      apply parent_left.
    - split; [|lia]. unfold leftpos.
      replace (pos * 2 + 1 + 1)%nat with (2 * pos + 2)%nat by lia.
      apply parent_right. }
  eapply IH; [|reflexivity|]; [rewrite length_swap; lia|]. split.
  - intros i Hi Hnm. rewrite length_swap in Hi.
    assert (parent i < i)%nat by (apply parent_lt; lia).
    destruct (decide (parent i = pos)) as [Hp|Hp].
    + rewrite Hp, prio_at_swap_l by lia.
      destruct (decide (i = m)) as [->|Him].
      * rewrite prio_at_swap_r by lia. lra.
      * rewrite prio_at_swap_other by lia.
        destruct (parent_spec i) as [Hi'|Hi']; [lia| |].
        -- replace i with leftpos by lia. exact Hl.
        -- replace i with (leftpos + 1)%nat by lia. apply Hr. lia.
    + rewrite (prio_at_swap_other _ _ _ (parent i)) by done.
      destruct (decide (i = pos)) as [->|Hip].
      * rewrite prio_at_swap_l by lia. apply Hgrand; lia.
      * rewrite prio_at_swap_other by congruence. by apply Hrest.
  - intros c Hm0 Hc Hc0 Hpc. rewrite length_swap in Hc.
    assert (m < c)%nat by (rewrite <- Hpc; apply parent_lt; lia).
    rewrite Hpm, prio_at_swap_l, prio_at_swap_other by lia.
    rewrite <- Hpc. apply Hrest; lia.
Qed.

Lemma lookup_removelast q i :
  (i < length q - 1)%nat -> removelast q !! i = q !! i.
Proof.
  intros Hi. rewrite removelast_firstn_len.
  change firstn with (@take (Elem A)). apply lookup_take_lt. lia.
Qed.

Lemma length_removelast q : length (removelast q) = (length q - 1)%nat.
Proof.
  rewrite removelast_firstn_len. change firstn with (@take (Elem A)).
  rewrite length_take. lia.
Qed.

Lemma root_min q i :
  heap q -> (i < length q)%nat -> prio_at q 0 <= prio_at q i.
Proof.
  intros Hheap. induction i as [i IH] using lt_wf_ind. intros Hi.
  destruct i as [|i]; [lra|].
  assert (parent (S i) < S i)%nat as Hp by (apply parent_lt; lia).
  specialize (IH _ Hp ltac:(lia)).
  specialize (Hheap (S i) ltac:(lia)). lra.
Qed.

Lemma pqpop_heap q : heap q -> heap (pqpop q).1.
Proof.
  intros Hheap. unfold pqpop.
  case_bool_decide as Hlen0; [exact Hheap|].
  case_bool_decide as Hlen1.
  { destruct q as [|e [|e' q]]; cbn in *; try lia.
    intros i Hi. cbn in Hi. lia. }
  destruct (last q) as [l|] eqn:Hlast.
  2:{ apply last_None in Hlast. by subst. }
  cbn [fst]. apply (pop_loop_heap _ 0). split.
  - intros i Hi Hp. rewrite length_insert, length_removelast in Hi.
    assert (parent i < i)%nat by (apply parent_lt; lia).
    unfold prio_at.
    rewrite !list_lookup_insert_ne by lia.
    rewrite !lookup_removelast by lia. apply Hheap. lia.
  - intros c Hc. lia.
Qed.

Lemma pqpop_None q : (pqpop q).2 = None <-> q = [].
Proof.
  unfold pqpop. case_bool_decide as Hlen0.
  { destruct q; [done|discriminate]. }
  case_bool_decide as Hlen1; cbn [snd];
    (destruct q; [done|]); split; discriminate.
Qed.

Lemma pqpop_head q : (pqpop q).2 = head q.
Proof.
  unfold pqpop. case_bool_decide as Hlen0.
  { by destruct q. }
  case_bool_decide as Hlen1; cbn [snd]; [reflexivity|].
  by destruct q.
Qed.

Lemma pqpop_min q e :
  heap q -> (pqpop q).2 = Some e ->
  e ∈ q ∧ ∀ e', e' ∈ q -> e.1 <= e'.1.
Proof.
  intros Hheap. rewrite pqpop_head. intros He.
  destruct q as [|e0 q]; [discriminate|]. injection He as ->.
  split; [left|].
  intros e' (i & Hi)%list_elem_of_lookup_1.
  pose proof (root_min _ i Hheap (lookup_lt_Some _ _ _ Hi)) as Hmin.
  unfold prio_at in Hmin. rewrite Hi in Hmin. exact Hmin.
Qed.

Lemma pqpop_Permutation q e :
  (pqpop q).2 = Some e -> q ≡ₚ e :: (pqpop q).1.
Proof.
  unfold pqpop. case_bool_decide as Hlen0; [discriminate|].
  case_bool_decide as Hlen1; cbn [fst snd].
  { destruct q as [|e0 q]; [discriminate|]. by intros [= ->]. }
  destruct q as [|e0 q _] using rev_ind; [done|].
  rewrite last_snoc, removelast_snoc.
  destruct q as [|e1 q]; [cbn in Hlen1; lia|].
  cbn. intros [= ->]. rewrite pop_loop_Permutation by lia.
  f_equiv. by rewrite Permutation_app_comm.
Qed.

(** C9: on a queue in min-heap order, [pqpush] and [pqpop] leave a queue
    in min-heap order; [pqpop] returns [undefined] exactly on the empty
    queue, and otherwise an element of the queue whose priority is not
    above that of any element of the queue.  Moreover [pqpush] adds the
    value and [pqpop] removes the element it returns, and nothing else
    changes. *)
Theorem pq_heap_order q v :
  heap q ->
  heap (pqpush q v)
  ∧ heap (pqpop q).1
  ∧ ((pqpop q).2 = None <-> q = [])
  ∧ (∀ e, (pqpop q).2 = Some e ->
          e ∈ q ∧ (∀ e', e' ∈ q -> e.1 <= e'.1)
          ∧ q ≡ₚ e :: (pqpop q).1)
  ∧ pqpush q v ≡ₚ v :: q.
Proof.
  intros Hheap. split; [by apply pqpush_heap|].
  split; [by apply pqpop_heap|].
  split; [apply pqpop_None|].
  split; [|apply pqpush_Permutation].
  intros e He. destruct (pqpop_min q e Hheap He) as [Hin Hmin].
  split; [exact Hin|]. split; [exact Hmin|]. by apply pqpop_Permutation.
Qed.

End WithPayload.

(** A queue of three elements in heap order. *)
Definition sample_queue : list (Elem nat) :=
  [(1, 10%nat); (3, 30%nat); (2, 20%nat)].

Lemma heap_sample : heap sample_queue.
Proof.
  intros i Hi. cbn in Hi.
  destruct i as [|[|[|i]]]; [lia| | |lia]; unfold prio_at; cbn; lra.
Qed.

Lemma pq_heap_order_witness :
  heap sample_queue
  ∧ heap (pqpush sample_queue (0, 5%nat))
  ∧ heap (pqpop sample_queue).1
  ∧ ((pqpop sample_queue).2 = None <-> sample_queue = [])
  ∧ (∀ e, (pqpop sample_queue).2 = Some e ->
          e ∈ sample_queue ∧ (∀ e', e' ∈ sample_queue -> e.1 <= e'.1)
          ∧ sample_queue ≡ₚ e :: (pqpop sample_queue).1)
  ∧ pqpush sample_queue (0, 5%nat) ≡ₚ (0, 5%nat) :: sample_queue.
Proof.
  split; [exact heap_sample|].
  exact (pq_heap_order sample_queue (0, 5%nat) heap_sample).
Defined.

End PqFacts.

(* ------------------------------------------------------------------ *)
(** ** The bounded loops never stop for lack of fuel

    Each loop that is written here with a bound gives the same result with
    any larger bound: with the bound its caller passes, it ends because its
    own condition fails. *)

Module LoopBounds.

Lemma skip_moves_enough ts fuel extra i :
  (length ts - i <= fuel)%nat ->
  RecordingPen.skip_moves ts (fuel + extra) i
  = RecordingPen.skip_moves ts fuel i.
Proof.
  revert i. induction fuel as [|fuel IH]; intros i Hfuel.
  - destruct extra as [|extra]; [reflexivity|]. cbn.
    rewrite bool_decide_eq_false_2 by lia. reflexivity.
  - cbn. destruct (_ && _); [|reflexivity]. apply IH. lia.
Qed.

Lemma skip_moves_back_enough ts fuel extra i :
  (i + 1 <= Z.of_nat fuel)%Z ->
  RecordingPen.skip_moves_back ts (fuel + extra) i
  = RecordingPen.skip_moves_back ts fuel i.
Proof.
  revert i. induction fuel as [|fuel IH]; intros i Hfuel.
  - destruct extra as [|extra]; [reflexivity|]. cbn.
    rewrite bool_decide_eq_false_2 by lia. reflexivity.
  - cbn. destruct (_ && _); [|reflexivity]. apply IH. lia.
Qed.

Lemma teeth_loop_enough {P} {pen_P : Pen P} fuel extra i scale path nTeeth
    (pen : P) :
  nTeeth <= INR (i + fuel) ->
  GearCutter.teeth_loop (fuel + extra) i scale path nTeeth pen
  = GearCutter.teeth_loop fuel i scale path nTeeth pen.
Proof.
  revert i pen. induction fuel as [|fuel IH]; intros i pen Hfuel.
  - destruct extra as [|extra]; [reflexivity|]. cbn.
    rewrite Nat.add_0_r in Hfuel.
    destruct (decide (INR i < nTeeth)); [lra|reflexivity].
  - cbn. destruct (decide (INR i < nTeeth)); [|reflexivity].
    apply Result_bind_ext. intros pen'. apply IH.
    by replace (S i + fuel)%nat with (i + S fuel)%nat by lia.
Qed.


End LoopBounds.

(* ================================================================== *)
(** * Further properties of the code *)

(* ------------------------------------------------------------------ *)
(** ** arcUtils.ts: circles through the ends of a chord *)

Module ArcGeometry.
Import ArcUtils.

Lemma sqr_sqrt (a : R) : 0 <= a -> sqrt a * sqrt a = a.
Proof. apply sqrt_sqrt. Qed.

Lemma sum_sqr_nonneg (a b : R) : 0 <= a * a + b * b.
Proof. nra. Qed.

(** X1: [versine] is what its comment says: [1 - cos theta]. *)
Theorem versine_is_one_minus_cos (theta : R) : versine theta = 1 - cos theta.
Proof.
  unfold versine. cbn zeta.
  replace (cos theta) with (cos (2 * (theta * 0.5))) by (f_equal; lra).
  rewrite cos_2a_sin. lra.
Qed.


(** X3: A point built from a cross factor lies on the perpendicular bisector
    of the chord: it is as far from one end as from the other.  This covers
    [arcCenter] and [arcMidpoint]. *)
Theorem pointFromCrossFactor_equidistant (x1 y1 x2 y2 cfac : R) :
  let p := pointFromCrossFactor x1 y1 x2 y2 cfac in
  distance x1 y1 p.1 p.2 = distance x2 y2 p.1 p.2.
Proof.
  unfold pointFromCrossFactor, distance, vecLength. cbn [fst snd].
  f_equal. unfold Q2R. cbn. field.
Qed.

Lemma sqrt_eq_Rabs (a b : R) : a = b * b -> sqrt a = Rabs b.
Proof. intros ->. apply sqrt_Rsqr_abs. Qed.

(** X4: For a turn with [sin] and [cos] of its half not zero, [arcCenter] is at
    distance [|radiusFromDistance(chord, turn)|] from the start of the
    chord, hence from its end too. *)
Theorem arcCenter_at_radius (x1 y1 x2 y2 turn : R) :
  sin (turn * 0.5) ≠ 0 -> cos (turn * 0.5) ≠ 0 ->
  let c := arcCenter x1 y1 x2 y2 turn in
  distance x1 y1 c.1 c.2
  = Rabs (radiusFromDistance (distance x1 y1 x2 y2) turn)
  ∧ distance x2 y2 c.1 c.2
    = Rabs (radiusFromDistance (distance x1 y1 x2 y2) turn).
Proof.
  intros Hs Hc c.
  assert (distance x1 y1 c.1 c.2
          = Rabs (radiusFromDistance (distance x1 y1 x2 y2) turn)) as H1.
  { subst c. unfold arcCenter, pointFromCrossFactor, centerDistanceFactor,
      radiusFromDistance, distance, vecLength, tan. cbn [fst snd].
    apply sqrt_eq_Rabs.
    set (D := (x2 - x1) * (x2 - x1) + (y2 - y1) * (y2 - y1)).
    assert (HD : sqrt D * sqrt D = D) by apply sqr_sqrt, sum_sqr_nonneg.
    set (s := sin (turn * 0.5)) in *. set (k := cos (turn * 0.5)) in *.
    assert (Hone : s * s + k * k = 1).
    { subst s k. pose proof (sin2_cos2 (turn * 0.5)) as H.
      unfold Rsqr in H. exact H. }
    transitivity (D * (0.5 * 0.5) / (s * s)).
    - subst D. unfold Q2R. cbn. field_simplify_eq; [|auto].
      ring_simplify. nra.
    - rewrite <- HD at 1. unfold Q2R. cbn. field. exact Hs. }
  split; [exact H1|].
  rewrite <- H1. subst c.
  unfold arcCenter, pointFromCrossFactor, distance, vecLength.
  cbn [fst snd]. f_equal. unfold Q2R. cbn. field.
Qed.

Lemma arcCenter_at_radius_witness :
  let c := arcCenter 0 0 1 0 (PI / 2) in
  distance 0 0 c.1 c.2
  = Rabs (radiusFromDistance (distance 0 0 1 0) (PI / 2))
  ∧ distance 1 0 c.1 c.2
    = Rabs (radiusFromDistance (distance 0 0 1 0) (PI / 2)).
Proof.
  assert (Hq : PI / 2 * 0.5 = PI / 4) by lra.
  assert (Hr : 0 < PI / 4 < PI / 2) by (pose proof PI_RGT_0; lra).
  assert (Hs : sin (PI / 2 * 0.5) ≠ 0).
  { rewrite Hq. apply Rgt_not_eq, sin_gt_0; pose proof PI_RGT_0; lra. }
  assert (Hc : cos (PI / 2 * 0.5) ≠ 0).
  { rewrite Hq. apply Rgt_not_eq, cos_gt_0; pose proof PI_RGT_0; lra. }
  exact (arcCenter_at_radius 0 0 1 0 (PI / 2) Hs Hc).
Defined.

(** X5: For such a turn [arcMidpoint] lies on the circle around [arcCenter]
    that passes through the ends of the chord. *)
Theorem arcMidpoint_on_circle (x1 y1 x2 y2 turn : R) :
  sin (turn * 0.5) ≠ 0 -> cos (turn * 0.5) ≠ 0 ->
  let c := arcCenter x1 y1 x2 y2 turn in
  let m := arcMidpoint x1 y1 x2 y2 turn in
  distance c.1 c.2 m.1 m.2
  = Rabs (radiusFromDistance (distance x1 y1 x2 y2) turn).
Proof.
  intros Hs Hc c m. subst c m.
  replace (turn * 0.5) with (2 * (turn * 0.25)) in * by lra.
  unfold arcCenter, arcMidpoint, pointFromCrossFactor, centerDistanceFactor,
    bulgeFactor, radiusFromDistance, distance, vecLength, tan. cbn [fst snd].
  replace (turn * 0.5) with (2 * (turn * 0.25)) by lra.
  rewrite sin_2a, cos_2a in *.
  set (sa := sin (turn * 0.25)) in *. set (ca := cos (turn * 0.25)) in *.
  assert (Hsa : sa ≠ 0) by (intros E; apply Hs; rewrite E; ring).
  assert (Hca : ca ≠ 0) by (intros E; apply Hs; rewrite E; ring).
  assert (Hone : sa * sa + ca * ca = 1).
  { subst sa ca. pose proof (sin2_cos2 (turn * 0.25)) as H.
    unfold Rsqr in H. exact H. }
  apply sqrt_eq_Rabs.
  set (D := (x2 - x1) * (x2 - x1) + (y2 - y1) * (y2 - y1)).
  assert (HD : sqrt D * sqrt D = D) by apply sqr_sqrt, sum_sqr_nonneg.
  transitivity (D * (0.5 * 0.5) / ((2 * sa * ca) * (2 * sa * ca))).
  - subst D. unfold Q2R. cbn.
    assert (Hk : (sa * sa + ca * ca) ^ 2 = 1) by (rewrite Hone; ring).
    field_simplify_eq; [|auto].
    match goal with
    | |- _ = ?rhs => transitivity (rhs * (sa * sa + ca * ca) ^ 2)
    end; [ring|rewrite Hk; ring].
  - rewrite <- HD at 1. unfold Q2R. cbn. field. auto.
Qed.

Lemma arcMidpoint_on_circle_witness :
  let c := arcCenter 0 0 1 0 (PI / 2) in
  let m := arcMidpoint 0 0 1 0 (PI / 2) in
  distance c.1 c.2 m.1 m.2
  = Rabs (radiusFromDistance (distance 0 0 1 0) (PI / 2)).
Proof.
  assert (Hq : PI / 2 * 0.5 = PI / 4) by lra.
  assert (Hs : sin (PI / 2 * 0.5) ≠ 0).
  { rewrite Hq. apply Rgt_not_eq, sin_gt_0; pose proof PI_RGT_0; lra. }
  assert (Hc : cos (PI / 2 * 0.5) ≠ 0).
  { rewrite Hq. apply Rgt_not_eq, cos_gt_0; pose proof PI_RGT_0; lra. }
  exact (arcMidpoint_on_circle 0 0 1 0 (PI / 2) Hs Hc).
Defined.

(** X6: [radiusFromDistance] gives the radius whose chord over the turn is the
    distance, with the sign of the turn. *)
Theorem radiusFromDistance_chord (d turn : R) :
  0 < d -> -2 * PI < turn < 2 * PI -> turn ≠ 0 ->
  2 * radiusFromDistance d turn * sin (turn * 0.5) = d
  ∧ (0 < radiusFromDistance d turn <-> 0 < turn).
Proof.
  intros Hd Hrange Hnz. unfold radiusFromDistance.
  assert (Hsign : (0 < turn -> 0 < sin (turn * 0.5))
                  ∧ (turn < 0 -> sin (turn * 0.5) < 0)).
  { split; intros Ht.
    - apply sin_gt_0; lra.
    - assert (0 < sin (- (turn * 0.5))) as H by (apply sin_gt_0; lra).
      rewrite sin_neg in H. lra. }
  destruct Hsign as [Hpos Hneg].
  assert (Hs : sin (turn * 0.5) ≠ 0).
  { destruct (Rlt_le_dec 0 turn) as [Ht|Ht].
    - apply Rgt_not_eq, Hpos, Ht.
    - apply Rlt_not_eq, Hneg. lra. }
  split.
  - unfold Q2R. cbn. field. exact Hs.
  - split; intros H.
    + destruct (Rlt_le_dec 0 turn) as [Ht|Ht]; [exact Ht|exfalso].
      assert (Hlt : sin (turn * 0.5) < 0) by (apply Hneg; lra).
      assert (Hinv : / sin (turn * 0.5) < 0) by (apply Rinv_lt_0_compat, Hlt).
      unfold Rdiv in H. nra.
    + assert (Hinv : 0 < / sin (turn * 0.5)).
      { apply Rinv_0_lt_compat, Hpos, H. }
      unfold Rdiv. nra.
Qed.

Lemma radiusFromDistance_chord_witness :
  2 * radiusFromDistance 1 (PI / 2) * sin (PI / 2 * 0.5) = 1
  ∧ (0 < radiusFromDistance 1 (PI / 2) <-> 0 < PI / 2).
Proof.
  pose proof PI_RGT_0 as Hpi.
  assert (H1 : 0 < 1) by lra.
  assert (H2 : -2 * PI < PI / 2 < 2 * PI) by lra.
  assert (H3 : PI / 2 ≠ 0) by lra.
  exact (radiusFromDistance_chord 1 (PI / 2) H1 H2 H3).
Defined.

End ArcGeometry.

(* ------------------------------------------------------------------ *)
(** ** rack.ts: the shape of the tooth *)

Module RackShape.
Import Rack.

Lemma flank_run (maxy miny cy tanPA cx bkw : R) :
  ((maxy - cy) * tanPA + cx - bkw) - ((miny - cy) * tanPA + cx - bkw)
  = (maxy - miny) * tanPA.
Proof. ring. Qed.

Lemma tooth_height (cy ah top bot : R) :
  (cy + ah / 2 + top) - (cy - ah / 2 - bot) = ah + top + bot.
Proof. lra. Qed.

(** X7: The outline is symmetric about x = 0: the third and fourth corners
    mirror the second and first.  The flank between the first two corners
    runs [tan(pressureAngle)] horizontally per unit of height, and the tooth
    is [contactRatio * sin * cos] high plus the two reliefs. *)
Theorem makeRack_tooth_shape (props : RackProps) :
  ∃ sx sy x1 y1 x2 y2 x3 y3 x4 y4,
    (∀ P (pen_P : Pen P) (pen : P),
       makeRack props P _ true pen
       = run_ops [MoveTo sx sy; ArcTo x1 y1 0; ArcTo x2 y2 0; ArcTo x3 y3 0;
                  ArcTo x4 y4 0] pen)
    ∧ x3 = - x2 ∧ y3 = y2 ∧ x4 = - x1 ∧ y4 = y1
    ∧ x2 - x1 = (y2 - y1) * tan ((pressureAngle props * PI) / 180.0)
    ∧ y2 - y1
      = contactRatio props * sin ((pressureAngle props * PI) / 180.0)
        * cos ((pressureAngle props * PI) / 180.0)
        + topClrPercent props / (100 * PI) + botClrPercent props / (100 * PI).
Proof.
  do 10 eexists. split.
  - intros P pen_P pen. unfold makeRack. cbn.
    do 4 (apply Result_bind_ext; intros ?).
    symmetry. apply Result_bind_ret.
  - split; [ring|]. split; [reflexivity|]. split; [ring|].
    split; [reflexivity|]. split.
    + unfold tan. apply flank_run.
    + apply tooth_height.
Qed.

End RackShape.

(* ------------------------------------------------------------------ *)
(** ** index.ts: the other validations, and the size conventions *)

Module GearPairSizing.
Import GearCutter.

Section WithCollaborators.
Context {geom : GeomConstants} {cutter : ToothCutterApi} {fillet : FilletApi}.

(** X8: An internal gear whose pinion has at least as many teeth is refused,
    and a size that is not positive is refused, in this order after the
    count of gear teeth, each before any call into the rack or tooth-cutter
    stages. *)
Theorem createGearPair_rejects_before_cutting (props : GearPairProps) :
  ¬ gearTeeth props < 4 ->
  (isInternalGear props = Some true ->
   gearTeeth props <= pinionTeeth props ->
   createGearPair props
   = ([], Throw "Pinion must have fewer teeth than internal gear"))
  ∧ ((isInternalGear props = Some true ->
      ¬ gearTeeth props <= pinionTeeth props) ->
     size props <= 0 ->
     createGearPair props = ([], Throw "Invalid size number")).
Proof.
  intros Hteeth. unfold createGearPair. cbn zeta.
  destruct (decide (gearTeeth props < 4)) as [|_]; [contradiction|].
  split.
  - intros -> Hle. cbn [default].
    rewrite bool_decide_eq_true_2 by exact Hle. reflexivity.
  - intros Hint Hsize.
    assert (default DEFAULT_IS_INTERNAL (isInternalGear props)
            && bool_decide (gearTeeth props <= pinionTeeth props) = false)
      as ->.
    { destruct (isInternalGear props) as [[|]|]; cbn; try reflexivity.
      apply bool_decide_eq_false_2, Hint. reflexivity. }
    rewrite (bool_decide_eq_true_2 (size props <= 0)) by exact Hsize.
    rewrite orb_true_r. reflexivity.
Qed.

(** What a call that returns has checked, and the scale it used. *)
Lemma createGearPair_Ok_inv (props : GearPairProps) (res : GearPairResult) :
  (createGearPair props).2 = Ok res ->
  let isInternal := default DEFAULT_IS_INTERNAL (isInternalGear props) in
  let gearRadius := (gearTeeth props * 0.5) / PI in
  let pinionRadius := (pinionTeeth props * 0.5) / PI in
  let szLen :=
    match sizeType props with
    | diaPitch => 1.0
    | centerDist =>
        gearRadius + (if isInternal then - pinionRadius else pinionRadius)
    | mod_ => 1.0 / PI
    end in
  4 <= gearTeeth props
  ∧ (isInternal = true -> pinionTeeth props < gearTeeth props)
  ∧ 0 < size props
  ∧ gearPitchDiameter res = gearRadius * 2.0 * (size props / szLen)
  ∧ pinionPitchDiameter res = pinionRadius * 2.0 * (size props / szLen).
Proof.
  intros Hres. unfold createGearPair in Hres. cbn zeta in Hres. cbn zeta.
  destruct (decide (gearTeeth props < 4)) as [|Hteeth]; [discriminate|].
  destruct (default DEFAULT_IS_INTERNAL (isInternalGear props)
            && bool_decide (gearTeeth props <= pinionTeeth props))
    eqn:Hint; [discriminate|].
  destruct (negb (Js.isFinite (size props))
            || bool_decide (size props <= 0)) eqn:Hsize; [discriminate|].
  apply GearCutterFacts.Traced_bind_Ok in Hres as (pinionRack & _ & Hres).
  apply GearCutterFacts.Traced_bind_Ok in Hres as (gearRack & _ & Hres).
  apply GearCutterFacts.Traced_bind_Ok in Hres as ([pinionPath pinionArcs] & _ & Hres).
  apply GearCutterFacts.Traced_bind_Ok in Hres as ([gearPath gearArcs] & _ & Hres).
  cbn in Hres. injection Hres as <-. cbn [gearPitchDiameter pinionPitchDiameter].
  split; [lra|]. split.
  - intros Hi. rewrite Hi in Hint. cbn in Hint.
    apply bool_decide_eq_false_1 in Hint. lra.
  - split; [|split; reflexivity].
    cbn in Hsize. apply bool_decide_eq_false_1 in Hsize. lra.
Qed.

(** X9: When [createGearPair] returns: with ['mod'] each pitch diameter is the
    size times the number of teeth; with ['diaPitch'] it is the size times
    the number of teeth over [PI]; with ['centerDist'] the two pitch radii
    add up to the size for an external pair (whose tooth counts do not
    cancel) and differ by the size for an internal one. *)
Theorem createGearPair_size_conventions (props : GearPairProps)
    (res : GearPairResult) :
  (createGearPair props).2 = Ok res ->
  match sizeType props with
  | mod_ =>
      gearPitchDiameter res = size props * gearTeeth props
      ∧ pinionPitchDiameter res = size props * pinionTeeth props
  | diaPitch =>
      gearPitchDiameter res = size props * gearTeeth props / PI
      ∧ pinionPitchDiameter res = size props * pinionTeeth props / PI
  | centerDist =>
      if default DEFAULT_IS_INTERNAL (isInternalGear props)
      then gearPitchDiameter res / 2 - pinionPitchDiameter res / 2
           = size props
      else gearTeeth props + pinionTeeth props ≠ 0 ->
           gearPitchDiameter res / 2 + pinionPitchDiameter res / 2
           = size props
  end.
Proof.
  intros Hres.
  destruct (createGearPair_Ok_inv props res Hres)
    as (Hteeth & Hint & Hsize & -> & ->).
  pose proof PI_RGT_0 as Hpi.
  destruct (sizeType props).
  - unfold Q2R; cbn; split; field; lra.
  - unfold Q2R; cbn; split; field; lra.
  - destruct (default DEFAULT_IS_INTERNAL (isInternalGear props)).
    + specialize (Hint eq_refl). unfold Q2R; cbn. field. split; lra.
    + intros Hsum. unfold Q2R; cbn. field. split; lra.
Qed.

End WithCollaborators.

(** [{gearTeeth: 10, pinionTeeth: 12, isInternalGear: true, sizeType: 'mod',
     size: 2}] and [{gearTeeth: 40, pinionTeeth: 12, sizeType: 'mod',
     size: -1}]. *)
Definition ring_too_small_props : GearPairProps :=
  mkGearPairProps None None None None None None 10 12 (Some true) None
                  None None mod_ 2.

Definition negative_size_props : GearPairProps :=
  mkGearPairProps None None None None None None 40 12 None None
                  None None mod_ (-1).

Lemma createGearPair_rejects_before_cutting_witness :
  createGearPair (geom := Sample.geom) (cutter := Sample.cutter)
    (fillet := Sample.fillet) ring_too_small_props
  = ([], Throw "Pinion must have fewer teeth than internal gear")
  ∧ createGearPair (geom := Sample.geom) (cutter := Sample.cutter)
      (fillet := Sample.fillet) negative_size_props
    = ([], Throw "Invalid size number").
Proof.
  assert (H1 : ¬ gearTeeth ring_too_small_props < 4) by (cbn; lra).
  assert (H2 : gearTeeth ring_too_small_props
               <= pinionTeeth ring_too_small_props) by (cbn; lra).
  assert (H3 : ¬ gearTeeth negative_size_props < 4) by (cbn; lra).
  assert (H4 : isInternalGear negative_size_props = Some true ->
               ¬ gearTeeth negative_size_props
                 <= pinionTeeth negative_size_props) by (intros [=]).
  assert (H5 : size negative_size_props <= 0) by (cbn; lra).
  split.
  - exact (proj1 (createGearPair_rejects_before_cutting
                    (geom := Sample.geom) (cutter := Sample.cutter)
                    (fillet := Sample.fillet) ring_too_small_props H1)
             eq_refl H2).
  - exact (proj2 (createGearPair_rejects_before_cutting
                    (geom := Sample.geom) (cutter := Sample.cutter)
                    (fillet := Sample.fillet) negative_size_props H3)
             H4 H5).
Defined.

(** [{gearTeeth: 40, pinionTeeth: 12, sizeType: 'centerDist', size: 100}]. *)
Definition center_distance_props : GearPairProps :=
  mkGearPairProps None None None None None None 40 12 None None
                  None None centerDist 100.

Lemma createGearPair_center_distance_returns :
  ∃ res,
    (createGearPair (geom := Sample.geom) (cutter := Sample.cutter)
       (fillet := Sample.fillet) center_distance_props).2 = Ok res.
Proof.
  unfold createGearPair. cbn zeta.
  destruct (decide (gearTeeth center_distance_props < 4)) as [Hlt|_].
  { cbn in Hlt. lra. }
  cbn [isInternalGear center_distance_props default DEFAULT_IS_INTERNAL andb].
  rewrite (bool_decide_eq_false_2 (size center_distance_props <= 0))
    by (cbn; lra).
  cbn [Js.isFinite negb orb].
  unfold cutTooth, XForm.processPath, XForm.apply.
  cbn. eexists. reflexivity.
Qed.

Lemma createGearPair_size_conventions_witness :
  ∃ res,
    (createGearPair (geom := Sample.geom) (cutter := Sample.cutter)
       (fillet := Sample.fillet) center_distance_props).2 = Ok res
    ∧ gearPitchDiameter res / 2 + pinionPitchDiameter res / 2 = 100.
Proof.
  destruct createGearPair_center_distance_returns as [res Hres].
  exists res. split; [exact Hres|].
  assert (Hsum : gearTeeth center_distance_props
                 + pinionTeeth center_distance_props ≠ 0) by (cbn; lra).
  exact (createGearPair_size_conventions
           (geom := Sample.geom) (cutter := Sample.cutter)
           (fillet := Sample.fillet) center_distance_props res Hres Hsum).
Defined.

End GearPairSizing.

(* ------------------------------------------------------------------ *)
(** ** pq.ts: using the queue *)

Module PqUse.
Import Pq PqFacts.

Section WithPayload.
Context {A : Type}.
Implicit Types (q l : list (Elem A)) (e : Elem A).

(** Calling [pqpop] until it returns [undefined], at most [n] times: the
    values returned, in order. *)
Fixpoint pop_all (n : nat) q : list (Elem A) :=
  match n with
  | O => []
  | S n' =>
      match (pqpop q).2 with
      | Some e => e :: pop_all n' (pqpop q).1
      | None => []
      end
  end.

(** Calling [pqpush] for each value of [l] in turn. *)
Definition push_all q l : list (Elem A) := foldl pqpush q l.

Definition by_priority e e' : Prop := e.1 <= e'.1.

Lemma pop_all_sorted_aux n q :
  length q = n -> heap q ->
  pop_all n q ≡ₚ q ∧ StronglySorted by_priority (pop_all n q).
Proof.
  revert q. induction n as [|n IH]; intros q Hlen Hheap.
  - destruct q; [|discriminate]. split; [reflexivity|constructor].
  - cbn [pop_all].
    destruct ((pqpop q).2) as [e|] eqn:Hpop.
    2:{ apply pqpop_None in Hpop. subst q. discriminate. }
    destruct (pqpop_min q e Hheap Hpop) as [Hin Hmin].
    pose proof (pqpop_Permutation q e Hpop) as Hperm.
    assert (length (pqpop q).1 = n) as Hlen'.
    { apply Permutation_length in Hperm. cbn in Hperm. lia. }
    destruct (IH (pqpop q).1 Hlen' (pqpop_heap q Hheap)) as [IHperm IHsorted].
    split.
    + rewrite IHperm. symmetry. exact Hperm.
    + constructor; [exact IHsorted|].
      apply Forall_forall. intros e' He'. apply Hmin.
      rewrite Hperm. right. by rewrite <- IHperm.
Qed.

(** X10: Popping a queue in heap order until it is empty returns every element
    of the queue once, in order of priority, lowest first. *)
Theorem pop_all_sorted q :
  heap q ->
  pop_all (length q) q ≡ₚ q
  ∧ StronglySorted by_priority (pop_all (length q) q).
Proof. intros Hheap. by apply pop_all_sorted_aux. Qed.

Lemma push_all_heap q l :
  heap q -> heap (push_all q l) ∧ push_all q l ≡ₚ l ++ q.
Proof.
  revert q. induction l as [|v l IH]; intros q Hheap; cbn.
  - split; [exact Hheap|reflexivity].
  - destruct (IH (pqpush q v) (pqpush_heap q v Hheap)) as [Hh Hp].
    split; [exact Hh|]. rewrite Hp, pqpush_Permutation.
    by rewrite Permutation_middle.
Qed.

(** X11: Pushing any values onto an empty queue and popping until it is empty
    returns the values pushed, in order of priority, lowest first. *)
Theorem push_all_pop_all_sorts l :
  let q := push_all [] l in
  heap q
  ∧ pop_all (length q) q ≡ₚ l
  ∧ StronglySorted by_priority (pop_all (length q) q).
Proof.
  intros q.
  assert (heap ([] : list (Elem A))) as Hnil.
  { intros i Hi. cbn in Hi. lia. }
  destruct (push_all_heap [] l Hnil) as [Hheap Hperm].
  destruct (pop_all_sorted_aux (length q) q eq_refl Hheap) as [Hp Hs].
  split; [exact Hheap|]. split; [|exact Hs].
  rewrite Hp. subst q. rewrite Hperm. by rewrite app_nil_r.
Qed.

End WithPayload.

Lemma pop_all_sorted_witness :
  heap sample_queue
  ∧ pop_all (length sample_queue) sample_queue ≡ₚ sample_queue
  ∧ StronglySorted by_priority (pop_all (length sample_queue) sample_queue).
Proof.
  split; [exact heap_sample|].
  exact (pop_all_sorted sample_queue heap_sample).
Defined.

End PqUse.

(* ------------------------------------------------------------------ *)
(** ** RecordingPen.ts: what a recorder holds and how it replays *)

Module RecordingPenMore.
Import RecordingPen RecordingPenFacts.

Lemma of_entries_lengths es :
  length (xs (of_entries es)) = length es
  ∧ length (ys (of_entries es)) = length es
  ∧ length (turns (of_entries es)) = length es.
Proof. unfold of_entries. cbn [xs ys turns]. by rewrite !length_fmap. Qed.

(** X12: The arrays of a recorder have one length; the first entry, if any, is
    a move; no move directly follows a move; and every arc recorded is at
    least [1e-14] (squared) away from the point before it, and straight if
    it is closer than [1e-8]. *)
Theorem recorder_invariant (r : t) :
  reachable r ->
  length (xs r) = length (turns r)
  ∧ length (ys r) = length (turns r)
  ∧ (∀ a, turns r !! 0%nat = Some a -> a = None)
  ∧ (∀ i, turns r !! i = Some None -> turns r !! S i ≠ Some None)
  ∧ (∀ i turn, turns r !! S i = Some (Some turn) ->
       let dx := at_index (xs r) (S i) - at_index (xs r) i in
       let dy := at_index (ys r) (S i) - at_index (ys r) i in
       ¬ dx * dx + dy * dy < 1e-14
       ∧ (dx * dx + dy * dy < 1e-8 -> turn = 0)).
Proof.
  intros (es & -> & [Hhead Hadj])%reachable_good.
  destruct (of_entries_lengths es) as (Hx & Hy & Ht).
  split; [congruence|]. split; [congruence|]. split; [|split].
  - intros a. rewrite turns_of_entries.
    destruct (es !! 0%nat) as [e|] eqn:He; cbn [fmap option_fmap option_map]; [|discriminate].
    intros [= <-]. by apply Hhead.
  - intros i. rewrite !turns_of_entries.
    destruct (es !! i) as [a|] eqn:Ha; cbn [fmap option_fmap option_map]; [|discriminate].
    destruct (es !! S i) as [b|] eqn:Hb; cbn [fmap option_fmap option_map]; [|discriminate].
    intros [= Han] [= Hbn].
    specialize (Hadj i a b Ha Hb). unfold pair_ok in Hadj.
    rewrite Hbn in Hadj. by apply Hadj.
  - intros i turn. rewrite turns_of_entries.
    destruct (es !! S i) as [b|] eqn:Hb; cbn [fmap option_fmap option_map]; [|discriminate].
    intros [= Hbt].
    destruct (lookup_lt_is_Some_2 es i) as [a Ha].
    { apply lookup_lt_Some in Hb. lia. }
    specialize (Hadj i a b Ha Hb). unfold pair_ok in Hadj.
    rewrite Hbt in Hadj. cbn zeta.
    unfold mag2 in Hadj. cbn zeta in Hadj.
    rewrite (xs_of_entries _ _ _ Ha), (xs_of_entries _ _ _ Hb).
    rewrite (ys_of_entries _ _ _ Ha), (ys_of_entries _ _ _ Hb).
    exact Hadj.
Qed.

Lemma recorder_invariant_witness :
  reachable sample_recorder
  ∧ length (xs sample_recorder) = length (turns sample_recorder)
  ∧ length (ys sample_recorder) = length (turns sample_recorder)
  ∧ (∀ a, turns sample_recorder !! 0%nat = Some a -> a = None)
  ∧ (∀ i, turns sample_recorder !! i = Some None ->
          turns sample_recorder !! S i ≠ Some None)
  ∧ (∀ i turn, turns sample_recorder !! S i = Some (Some turn) ->
       let dx := at_index (xs sample_recorder) (S i)
                 - at_index (xs sample_recorder) i in
       let dy := at_index (ys sample_recorder) (S i)
                 - at_index (ys sample_recorder) i in
       ¬ dx * dx + dy * dy < 1e-14
       ∧ (dx * dx + dy * dy < 1e-8 -> turn = 0)).
Proof.
  split; [exact reachable_sample|].
  exact (recorder_invariant sample_recorder reachable_sample).
Defined.

(** *** [countSegments] *)

Definition is_arc (o : PenOp) : bool :=
  match o with ArcTo _ _ _ => true | MoveTo _ _ => false end.

Lemma countSegments_loop_entries es ret :
  countSegments_loop (es.*2) ret
  = (ret + length (filter is_arc (entry_op <$> es)))%nat.
Proof.
  revert ret. induction es as [|[[x y] [a|]] es IH]; intros ret.
  - cbn. lia.
  - rewrite !fmap_cons. cbn [countSegments_loop snd].
    rewrite bool_decide_eq_true_2 by done.
    rewrite IH, filter_cons_True by done. cbn [length]. lia.
  - rewrite !fmap_cons. cbn [countSegments_loop snd].
    rewrite bool_decide_eq_false_2 by (intros Hn; by apply Hn).
    rewrite IH, filter_cons_False by (intros []). lia.
Qed.

Lemma count_arcs_move (x y : R) :
  length (filter is_arc (entry_op <$> [(x, y, None)])) = 0%nat.
Proof. reflexivity. Qed.

Lemma count_arcs_arc (x y a : R) :
  length (filter is_arc (entry_op <$> [(x, y, Some a)])) = 1%nat.
Proof. reflexivity. Qed.

(** X13: [countSegments] is the number of [arcTo] calls a replay makes; a
    [moveTo] leaves it as it is, and an [arcTo] that returns adds one to it
    or, when the arc is dropped for being too short, nothing. *)
Theorem countSegments_counts_arcs (r : t) :
  reachable r ->
  (∃ log, path r LogPen _ true [] = Ok log
          ∧ countSegments r = length (filter is_arc log))
  ∧ (∀ x y, countSegments (moveTo x y r) = countSegments r)
  ∧ (∀ x y turn r', arcTo x y turn r = Ok r' ->
       r' = r ∨ countSegments r' = S (countSegments r)).
Proof.
  intros (es & -> & Hgood)%reachable_good.
  assert (∀ es', countSegments (of_entries es')
                 = length (filter is_arc (entry_op <$> es'))) as Hcount.
  { intros es'. unfold countSegments, of_entries. cbn [turns].
    by rewrite countSegments_loop_entries. }
  split; [|split].
  - exists (entry_op <$> es). split; [|apply Hcount].
    rewrite path_ops.
    assert (∀ ops (log : LogPen), run_ops ops log = Ok (log ++ ops)) as Hlog.
    { induction ops as [|o ops IH]; intros log; cbn.
      - by rewrite app_nil_r.
      - destruct o; cbn; rewrite IH, <- app_assoc; reflexivity. }
    apply Hlog.
  - intros x y. destruct es as [|e es _] using rev_ind.
    { reflexivity. }
    destruct e as [[x' y'] [turn'|]].
    + rewrite moveTo_after_other.
      * rewrite !Hcount, !fmap_app, !filter_app, !length_app.
        rewrite count_arcs_move. lia.
      * intros a. rewrite last_snoc. by intros [= <-].
    + rewrite moveTo_after_move.
      rewrite !Hcount, !fmap_app, !filter_app, !length_app.
      by rewrite !count_arcs_move.
  - intros x y turn r' Harc.
    destruct (last es) as [a|] eqn:Ha.
    + rewrite (arcTo_of_entries _ a) in Harc by exact Ha.
      destruct (decide (_ < 1e-14)); injection Harc as <-; [by left|right].
      rewrite !Hcount, fmap_app, filter_app, length_app.
      rewrite count_arcs_arc. lia.
    + apply last_None in Ha as ->. discriminate.
Qed.

Lemma countSegments_counts_arcs_witness :
  reachable sample_recorder
  ∧ (∃ log, path sample_recorder LogPen _ true [] = Ok log
            ∧ countSegments sample_recorder = length (filter is_arc log))
  ∧ (∀ x y, countSegments (moveTo x y sample_recorder)
            = countSegments sample_recorder)
  ∧ (∀ x y turn r', arcTo x y turn sample_recorder = Ok r' ->
       r' = sample_recorder
       ∨ countSegments r' = S (countSegments sample_recorder)).
Proof.
  split; [exact reachable_sample|].
  exact (countSegments_counts_arcs sample_recorder reachable_sample).
Defined.

(** *** Replaying without the first move *)

Lemma skip_moves_step ts fuel i :
  skip_moves ts (S fuel) i
  = if bool_decide (i < length ts)%nat && bool_decide (ts !! i = Some None)
    then skip_moves ts fuel (S i) else i.
Proof. reflexivity. Qed.

Lemma skip_moves_good es :
  good es ->
  skip_moves (es.*2) (length (es.*2)) 0 = (if es is [] then 0 else 1)%nat.
Proof.
  intros [Hhead Hadj]. destruct es as [|e0 es]; [reflexivity|].
  assert (e0.2 = None) as H0 by (by apply Hhead).
  rewrite fmap_cons, H0. cbn [length]. rewrite skip_moves_step.
  rewrite bool_decide_eq_true_2 by (cbn; lia).
  rewrite bool_decide_eq_true_2 by reflexivity. cbn [andb].
  destruct es as [|e1 es]; [reflexivity|].
  rewrite fmap_cons. cbn [length]. rewrite skip_moves_step.
  rewrite (bool_decide_eq_false_2 (_ !! 1%nat = Some None));
    [by rewrite andb_false_r|].
  cbn. intros [= H1].
  specialize (Hadj 0%nat e0 e1 eq_refl eq_refl). unfold pair_ok in Hadj.
  rewrite H1 in Hadj. by apply Hadj.
Qed.

(** X14: A replay of a recorder starts with a move, and with [doMove = false]
    it makes the same calls without that first move. *)
Theorem path_without_move (r : t) :
  reachable r ->
  ∃ ops,
    starts_with_move ops
    ∧ (∀ P (pen_P : Pen P) (pen : P), path r P _ true pen = run_ops ops pen)
    ∧ (∀ P (pen_P : Pen P) (pen : P),
         path r P _ false pen = run_ops (tail ops) pen).
Proof.
  intros (es & -> & Hgood)%reachable_good.
  exists (entry_op <$> es). split; [|split].
  - destruct es as [|e es]; [exact I|].
    destruct Hgood as [Hhead _]. specialize (Hhead e eq_refl).
    cbn. unfold entry_op. by rewrite Hhead.
  - intros P pen_P pen. apply path_ops.
  - intros P pen_P pen. unfold path. cbn [negb]. cbn zeta.
    change (turns (of_entries es)) with (es.*2).
    rewrite skip_moves_good by exact Hgood.
    rewrite path_loop_ops by (rewrite length_fmap; lia).
    by destruct es.
Qed.

Lemma path_without_move_witness :
  reachable sample_recorder
  ∧ ∃ ops,
      starts_with_move ops
      ∧ (∀ P (pen_P : Pen P) (pen : P),
           path sample_recorder P _ true pen = run_ops ops pen)
      ∧ (∀ P (pen_P : Pen P) (pen : P),
           path sample_recorder P _ false pen = run_ops (tail ops) pen).
Proof.
  split; [exact reachable_sample|].
  exact (path_without_move sample_recorder reachable_sample).
Defined.

Lemma skip_back_from_end ts fuel :
  skip_moves_back ts (S fuel) (Z.of_nat (length ts))
  = skip_moves_back ts fuel (Z.of_nat (length ts) - 1).
Proof.
  cbn [skip_moves_back].
  rewrite bool_decide_eq_true_2 by lia.
  rewrite (bool_decide_eq_true_2 (_ >= Z.of_nat (length ts))%Z) by lia.
  reflexivity.
Qed.

Lemma skip_back_at_move ts fuel (i : nat) :
  ts !! i = Some None ->
  skip_moves_back ts (S fuel) (Z.of_nat i)
  = skip_moves_back ts fuel (Z.of_nat i - 1).
Proof.
  intros Hi. cbn [skip_moves_back].
  rewrite bool_decide_eq_true_2 by lia.
  rewrite Nat2Z.id, Hi.
  rewrite (bool_decide_eq_true_2 (mjoin (Some None) = None)) by reflexivity.
  by rewrite orb_true_r.
Qed.

Lemma skip_back_at_arc ts fuel (i : nat) a :
  ts !! i = Some (Some a) ->
  skip_moves_back ts (S fuel) (Z.of_nat i) = Z.of_nat i.
Proof.
  intros Hi. cbn [skip_moves_back].
  pose proof (lookup_lt_Some _ _ _ Hi) as Hlt.
  rewrite (bool_decide_eq_false_2 (_ >= Z.of_nat (length ts))%Z) by lia.
  rewrite Nat2Z.id, Hi.
  rewrite (bool_decide_eq_false_2 (mjoin (Some (Some a)) = None))
    by discriminate.
  by rewrite andb_false_r.
Qed.

Lemma skip_back_negative ts fuel i :
  (i < 0)%Z -> skip_moves_back ts fuel i = i.
Proof.
  intros Hi. destruct fuel; [reflexivity|]. cbn [skip_moves_back].
  by rewrite bool_decide_eq_false_2 by lia.
Qed.

Lemma reversed_loop_done {P} {pen_P : Pen P} r fuel i (pen : P) :
  (i <= 0)%Z -> reversed_loop r fuel i pen = Ok pen.
Proof.
  intros Hi. destruct fuel; [reflexivity|]. cbn [reversed_loop].
  by rewrite bool_decide_eq_false_2 by lia.
Qed.

Lemma lookup_turn_snoc (es : list entry) (e : entry) :
  (es ++ [e]).*2 !! length es = Some e.2.
Proof.
  rewrite list_lookup_fmap, lookup_app_r by reflexivity.
  by rewrite Nat.sub_diag.
Qed.

Lemma rev_entries_cons_upto es n :
  length es = S n ->
  rev_entries es = rev_entry es (S n) :: rev_entries_upto es n.
Proof. intros Hn. unfold rev_entries. by rewrite Hn. Qed.

Lemma entry_op_rev_head es n :
  length es = S n -> starts_with_move (entry_op <$> rev_entries es).
Proof.
  intros Hn. rewrite (rev_entries_cons_upto _ n Hn). cbn.
  unfold entry_op. by rewrite rev_entry_turn_end by lia.
Qed.

(** X15: The reversed replay with [doMove = false]: the recorder's trailing
    bare move, if it has one after something else, is left out, and the
    reversed replay of the rest is made without its first move. *)
Theorem reversedPath_without_move (r : t) :
  reachable r ->
  ∃ ops,
    starts_with_move ops
    ∧ (∀ P (pen_P : Pen P) (pen : P),
         reversedPath (drop_trailing_move r) P _ true pen = run_ops ops pen)
    ∧ (∀ P (pen_P : Pen P) (pen : P),
         reversedPath r P _ false pen = run_ops (tail ops) pen).
Proof.
  intros (es & -> & Hgood)%reachable_good.
  assert (∀ P (pen_P : Pen P) (pen : P) es0,
            reversedPath (of_entries es0) P _ false pen
            = reversed_loop (of_entries es0) (length es0)
                (skip_moves_back (es0.*2) (S (S (length es0)))
                   (Z.of_nat (length (es0.*2)))) pen) as Hunfold.
  { intros P pen_P pen es0. unfold reversedPath. cbn [negb]. cbn zeta.
    change (turns (of_entries es0)) with (es0.*2).
    by rewrite !length_fmap. }
  destruct es as [|e es _] using rev_ind.
  { exists []. split; [exact I|]. split; reflexivity. }
  destruct e as [[x y] [turn|]].
  - (* the last entry is an arc *)
    set (es1 := es ++ [(x, y, Some turn)]).
    assert (length es1 = S (length es)) as Hlen.
    { subst es1. rewrite length_app. cbn. lia. }
    assert (clean es1) as Hclean.
    { intros a. subst es1. rewrite last_snoc. by intros [= <-]. }
    exists (entry_op <$> rev_entries es1).
    split; [by eapply entry_op_rev_head|]. split.
    + intros P pen_P pen. rewrite drop_trailing_move_clean by exact Hclean.
      apply reversedPath_ops.
    + intros P pen_P pen. rewrite Hunfold.
      rewrite skip_back_from_end, length_fmap, Hlen.
      replace (Z.of_nat (S (length es)) - 1)%Z with (Z.of_nat (length es))
        by lia.
      rewrite (skip_back_at_arc _ _ _ turn) by apply lookup_turn_snoc.
      rewrite reversed_loop_ops by lia.
      by rewrite (rev_entries_cons_upto _ _ Hlen).
  - destruct es as [|e' es _] using rev_ind.
    + (* the recorder holds a single move *)
      exists [MoveTo x y]. split; [exact I|]. split.
      * intros P pen_P pen. rewrite drop_trailing_move_clean.
        -- by rewrite reversedPath_ops.
        -- intros a _ Hlen. cbn in Hlen. lia.
      * intros P pen_P pen. rewrite Hunfold.
        rewrite skip_back_from_end. cbn [app fmap list_fmap length snd].
        change (Z.of_nat 1 - 1)%Z with (Z.of_nat 0).
        rewrite (skip_back_at_move [None] _ 0) by reflexivity.
        rewrite skip_back_negative by lia.
        by rewrite reversed_loop_done by lia.
    + (* a bare move follows other entries *)
      set (es1 := es ++ [e']).
      assert (length es1 = S (length es)) as Hlen.
      { subst es1. rewrite length_app. cbn. lia. }
      apply good_snoc_inv in Hgood as (Hgood1 & _ & Hlast).
      assert (∃ a', e'.2 = Some a') as [a' Ha'].
      { specialize (Hlast e'). rewrite last_snoc in Hlast.
        specialize (Hlast eq_refl). unfold pair_ok in Hlast. cbn in Hlast.
        destruct (e'.2); [by eexists|done]. }
      exists (entry_op <$> rev_entries es1).
      split; [by eapply entry_op_rev_head|]. split.
      * intros P pen_P pen. rewrite drop_trailing_move_snoc.
        -- apply reversedPath_ops.
        -- subst es1. by destruct es.
      * intros P pen_P pen. rewrite Hunfold.
        assert (length (es1 ++ [(x, y, None)]) = S (S (length es))) as Hlen2.
        { rewrite length_app, Hlen. cbn. lia. }
        rewrite skip_back_from_end, length_fmap, Hlen2.
        replace (Z.of_nat (S (S (length es))) - 1)%Z
          with (Z.of_nat (S (length es))) by lia.
        rewrite (skip_back_at_move _ _ (S (length es)))
          by (rewrite <- Hlen; apply lookup_turn_snoc).
        replace (Z.of_nat (S (length es)) - 1)%Z with (Z.of_nat (length es))
          by lia.
        rewrite (skip_back_at_arc _ _ (length es) a').
        2:{ rewrite list_lookup_fmap, lookup_app_l by lia.
            subst es1. rewrite lookup_app_r, Nat.sub_diag by reflexivity.
            cbn. by rewrite Ha'. }
        rewrite reversed_loop_ops by lia.
        rewrite rev_entries_upto_snoc_move by lia.
        by rewrite (rev_entries_cons_upto _ _ Hlen).
Qed.

Lemma reversedPath_without_move_witness :
  reachable sample_recorder
  ∧ ∃ ops,
      starts_with_move ops
      ∧ (∀ P (pen_P : Pen P) (pen : P),
           reversedPath (drop_trailing_move sample_recorder) P _ true pen
           = run_ops ops pen)
      ∧ (∀ P (pen_P : Pen P) (pen : P),
           reversedPath sample_recorder P _ false pen
           = run_ops (tail ops) pen).
Proof.
  split; [exact reachable_sample|].
  exact (reversedPath_without_move sample_recorder reachable_sample).
Defined.

End RecordingPenMore.

(* ------------------------------------------------------------------ *)
(** ** ConstantRadiusCut.ts: what [drawSegment] draws *)

Module ConstantRadiusCutFacts.
Import ConstantRadiusCut.




(** The first call of a segment: a move, or a straight arc, to the start. *)
Definition first_call (c : t) (thetaFrom : R) (doInitialMove : bool) : PenOp :=
  if doInitialMove
  then MoveTo (cos thetaFrom * r c) (sin thetaFrom * r c)
  else ArcTo (cos thetaFrom * r c) (sin thetaFrom * r c) 0.



(** A span that is not too wide is drawn at once. *)
Definition single_arc (c : t) (thetaFrom thetaTo : R) (doInitialMove : bool)
  : list PenOp :=
  [first_call c thetaFrom doInitialMove;
   ArcTo (cos thetaTo * r c) (sin thetaTo * r c) (thetaTo - thetaFrom)].

Lemma drawSegment_narrow {P} {pen_P : Pen P} (c : t) (depth : nat) (pen : P)
    (thetaFrom thetaTo : R) (doInitialMove : bool) :
  ¬ thetaFrom - thetaTo > PI * 0.6 ->
  drawSegment depth c pen thetaFrom thetaTo doInitialMove
  = Some (run_ops (single_arc c thetaFrom thetaTo doInitialMove) pen).
Proof.
  intros Hn.
  destruct depth; cbn [drawSegment];
    (destruct (decide (thetaFrom - thetaTo > PI * 0.6)); [contradiction|]);
    cbn zeta; f_equal; unfold single_arc, first_call;
    destruct doInitialMove; cbn;
    (match goal with |- ?m ≫= _ = _ => destruct m end); cbn;
    try reflexivity;
    (match goal with |- ?m = _ => by destruct m end).
Qed.






(** X17: A left turn, however wide, is never split: it is drawn as one arc. *)
Theorem drawSegment_left_turn_single_arc {P} {pen_P : Pen P} (c : t)
    (depth : nat) (pen : P) (thetaFrom thetaTo : R) (doInitialMove : bool) :
  thetaFrom <= thetaTo ->
  drawSegment depth c pen thetaFrom thetaTo doInitialMove
  = Some (run_ops [first_call c thetaFrom doInitialMove;
                   ArcTo (cos thetaTo * r c) (sin thetaTo * r c)
                         (thetaTo - thetaFrom)] pen).
Proof.
  intros Hle. pose proof PI_RGT_0 as Hpi.
  apply drawSegment_narrow. lra.
Qed.

Lemma drawSegment_left_turn_single_arc_witness :
  0 <= 100
  ∧ drawSegment 0 (mk 2) ([] : LogPen) 0 100 true
    = Some (run_ops [first_call (mk 2) 0 true;
                     ArcTo (cos 100 * 2) (sin 100 * 2) (100 - 0)]
                    ([] : LogPen)).
Proof.
  assert (0 <= 100) as H by lra.
  split; [exact H|].
  exact (drawSegment_left_turn_single_arc (mk 2) 0 [] 0 100 true H).
Defined.

End ConstantRadiusCutFacts.

(* ------------------------------------------------------------------ *)
(** ** XFormPen.ts: the transformation a built [XForm] applies *)

Module XFormGeometry.
Import XForm XFormFacts.

Lemma Int_part_IZR (k : Z) : Int_part (IZR k) = k.
Proof. symmetry. apply Int_part_spec. lra. Qed.

Lemma toInt32_small (k : Z) :
  (0 <= k < 2 ^ 31)%Z -> Js.toInt32 (IZR k) = k.
Proof.
  intros [Hlo Hhi]. unfold Js.toInt32.
  destruct (decide (IZR k < 0)) as [Hneg|_].
  - apply IZR_le in Hlo. lra.
  - rewrite Int_part_IZR, Z.mod_small by lia.
    by destruct (Z.ltb_spec k (2 ^ 31)); [|lia].
Qed.

Lemma land_quarter (k : Z) :
  (0 <= k < 4)%Z -> Js.land (IZR k) 1 = Z.land k 1.
Proof.
  intros Hk. unfold Js.land.
  rewrite (toInt32_small k), (toInt32_small 1) by lia. reflexivity.
Qed.

Lemma quarter_cases (rot : R) :
  0 <= rot < 360 -> Js.floor (rot / 90) = rot / 90 ->
  ∃ k : Z, (0 <= k < 4)%Z ∧ rot / 90 = IZR k.
Proof.
  intros Hrot Hfloor. unfold Js.floor in Hfloor.
  exists (Int_part (rot / 90)). split; [|by rewrite Hfloor].
  split.
  - apply le_IZR. rewrite Hfloor. lra.
  - apply lt_IZR. rewrite Hfloor. lra.
Qed.

Lemma sign_1 : Js.sign 1 = 1.
Proof. unfold Js.sign. destruct (decide (1 > 0)); [reflexivity|lra]. Qed.

Lemma sign_m1 : Js.sign (-1) = -1.
Proof.
  unfold Js.sign. destruct (decide (-1 > 0)); [lra|].
  destruct (decide (-1 < 0)); [reflexivity|lra].
Qed.

(** The angle of the stored rotation, in radians. *)
Definition theta (X : t) : R := rotDegrees X * PI / 180.0.

(** On a rotation in [0, 360) the snapping of [getXProjection] to the axes
    changes nothing: at a multiple of 90 degrees the cosine and sine are
    exactly the values it puts in. *)
Lemma getXProjection_exact (X : t) :
  0 <= rotDegrees X < 360 ->
  getXProjection X
  = (cos (theta X) * scaleFactor X, sin (theta X) * scaleFactor X).
Proof.
  intros Hrot. unfold getXProjection. fold (theta X).
  destruct (bool_decide_reflect
              (Js.floor (rotDegrees X / 90) = rotDegrees X / 90))
    as [Hq|_]; [|reflexivity].
  destruct (quarter_cases _ Hrot Hq) as (k & Hk & Hk').
  rewrite Hk', land_quarter by exact Hk.
  assert (theta X = IZR k * (PI / 2)) as ->.
  { unfold theta. replace (rotDegrees X) with (90 * IZR k) by lra. lra. }
  assert ((k = 0 ∨ k = 1 ∨ k = 2 ∨ k = 3)%Z) as Hcases by lia.
  destruct Hcases as [-> | [-> | [-> | ->]]];
    cbn [Z.land Pos.land bool_decide decide_rel].
  - replace (0 * (PI / 2)) with 0 by lra.
    rewrite cos_0, sin_0, sign_1. reflexivity.
  - replace (1 * (PI / 2)) with (PI / 2) by lra.
    rewrite cos_PI2, sin_PI2, sign_1. reflexivity.
  - replace (2 * (PI / 2)) with PI by lra.
    rewrite cos_PI, sin_PI, sign_m1. reflexivity.
  - rewrite cos_3PI2, sin_3PI2, sign_m1. reflexivity.
Qed.

(** [flipYinFac] is 1 or -1 on every [XForm] the builder can make. *)
Definition flip_unit (X : t) : Prop :=
  flipYinFac X = 1 ∨ flipYinFac X = -1.

Lemma flip_unit_new : flip_unit new.
Proof. left. cbn. lra. Qed.

Lemma flip_unit_scale (fac : R) (flipY : bool) (X : t) :
  flip_unit X -> flip_unit (scale fac flipY X).
Proof.
  intros Hf. unfold flip_unit, scale in *.
  destruct (decide (fac < 0.0)), flipY; cbn; lra.
Qed.

Lemma flip_unit_processInput (w : PenWrapper) (X : t) :
  flip_unit X -> flip_unit (processInput w X).
Proof.
  intros Hf. unfold processInput. cbn [processInput_depth].
  destruct (is_identity X).
  - destruct (prevTransform X); exact Hf.
  - left. cbn. lra.
Qed.

Lemma flip_unit_run_call {search : FloatBinarySearch} (X : t)
    (c : BuilderCall) :
  flip_unit X -> flip_unit (run_call X c).
Proof.
  destruct c; cbn.
  - auto.
  - auto.
  - apply flip_unit_scale.
  - apply flip_unit_processInput.
  - apply flip_unit_processInput.
Qed.

Lemma flip_unit_run_calls {search : FloatBinarySearch}
    (calls : list BuilderCall) (X : t) :
  flip_unit X -> flip_unit (foldl run_call X calls).
Proof.
  revert X. induction calls as [|c calls IH]; intros X HX; cbn; [exact HX|].
  apply IH, flip_unit_run_call, HX.
Qed.

Lemma cos_period_Z (x : R) (z : Z) : cos (x + 2 * IZR z * PI) = cos x.
Proof.
  destruct (Z_lt_le_dec z 0) as [Hneg|Hpos].
  - rewrite <- (cos_period (x + 2 * IZR z * PI) (Z.to_nat (- z))).
    f_equal. rewrite INR_IZR_INZ, Z2Nat.id, opp_IZR by lia. lra.
  - rewrite <- (cos_period x (Z.to_nat z)).
    by rewrite INR_IZR_INZ, Z2Nat.id by lia.
Qed.

Lemma sin_period_Z (x : R) (z : Z) : sin (x + 2 * IZR z * PI) = sin x.
Proof.
  destruct (Z_lt_le_dec z 0) as [Hneg|Hpos].
  - rewrite <- (sin_period (x + 2 * IZR z * PI) (Z.to_nat (- z))).
    f_equal. rewrite INR_IZR_INZ, Z2Nat.id, opp_IZR by lia. lra.
  - rewrite <- (sin_period x (Z.to_nat z)).
    by rewrite INR_IZR_INZ, Z2Nat.id by lia.
Qed.

(** The angle after [rotate]: the old one plus the turn, counted in the
    mirrored direction when the transformation is mirrored, up to whole
    turns. *)
Lemma theta_rotate (degrees : R) (X : t) :
  ∃ z : Z,
    theta (rotate degrees X)
    = theta X + flipYinFac X * (degrees * PI / 180) + 2 * IZR z * PI.
Proof.
  unfold theta, rotate, Js.floor. cbn [rotDegrees].
  exists (- Int_part ((rotDegrees X + degrees * flipYinFac X) / 360.0))%Z.
  rewrite opp_IZR. lra.
Qed.

(** The function [apply] hands to the [XFormPen] it makes. *)
Definition point_map (X : t) (x y : R) : Point2D :=
  (tx X + x * (getXProjection X).1 - y * flipYinFac X * (getXProjection X).2,
   ty X + x * (getXProjection X).2 + y * flipYinFac X * (getXProjection X).1).

Lemma apply_Ok_inv {T} {pen_T : Pen T} (X : t) (target : T) p :
  apply X target = Ok p ->
  XFormPen.transformPoint p = point_map X
  ∧ XFormPen.transformTurn p = (fun turn => turn * flipYinFac X)
  ∧ wrap (wrapper_of X) T _ target = Ok (XFormPen.delegate p).
Proof.
  unfold apply. destruct (wrap (wrapper_of X) T pen_T target) as [w|msg];
    cbn; [|discriminate].
  intros [= <-]. cbn. auto.
Qed.

Lemma apply_fmap_point {T} {pen_T : Pen T} {A} (X : t) (target : T)
    (f : (R -> R -> Point2D) -> A) :
  (fun p => f (XFormPen.transformPoint p)) <$> apply X target
  = (fun _ => f (point_map X)) <$> wrap (wrapper_of X) T _ target.
Proof.
  unfold apply. by destruct (wrap (wrapper_of X) T pen_T target).
Qed.

Lemma point_map_exact (X : t) (x y : R) :
  0 <= rotDegrees X < 360 ->
  point_map X x y
  = (tx X + scaleFactor X
            * (x * cos (theta X) - y * flipYinFac X * sin (theta X)),
     ty X + scaleFactor X
            * (x * sin (theta X) + y * flipYinFac X * cos (theta X))).
Proof.
  intros Hrot. unfold point_map. rewrite getXProjection_exact by exact Hrot.
  cbn [fst snd]. f_equal; ring.
Qed.

(** X18: [translate] puts its shift in front of the stored transformation: the
    pen made afterwards sends a point where the pen made before sends the
    shifted point; and it throws when that one does. *)
Theorem translate_composes_in_front {T} {pen_T : Pen T} (X : t)
    (a b : R) (target : T) (x y : R) :
  (fun p => XFormPen.transformPoint p x y) <$> apply (translate a b X) target
  = (fun p => XFormPen.transformPoint p (x + a) (y + b)) <$> apply X target.
Proof.
  rewrite (apply_fmap_point (translate a b X) target (fun f => f x y)).
  rewrite (apply_fmap_point X target (fun f => f (x + a) (y + b))).
  change (wrapper_of (translate a b X)) with (wrapper_of X).
  destruct (wrap (wrapper_of X) T pen_T target); [|reflexivity].
  cbn [fmap Result_fmap]. f_equal.
  unfold point_map, translate. cbn [tx ty flipYinFac].
  change (getXProjection (mk _ _ _ _ _ _)) with (getXProjection X).
  f_equal; ring.
Qed.

(** X19: [rotate], on an [XForm] made by the builder, puts its rotation in front
    of the stored transformation. *)
Theorem rotate_composes_in_front {search : FloatBinarySearch} {T}
    {pen_T : Pen T} (calls : list BuilderCall) (degrees : R) (target : T)
    (x y : R) :
  let X := foldl run_call new calls in
  let d := degrees * PI / 180 in
  (fun p => XFormPen.transformPoint p x y) <$> apply (rotate degrees X) target
  = (fun p => XFormPen.transformPoint p
                (x * cos d - y * sin d) (x * sin d + y * cos d))
    <$> apply X target.
Proof.
  intros X d.
  assert (in_range X) as [Hrot _] by apply in_range_run_calls, in_range_new.
  assert (flip_unit X) as Hf by apply flip_unit_run_calls, flip_unit_new.
  rewrite (apply_fmap_point (rotate degrees X) target (fun f => f x y)).
  rewrite (apply_fmap_point X target
             (fun f => f (x * cos d - y * sin d) (x * sin d + y * cos d))).
  change (wrapper_of (rotate degrees X)) with (wrapper_of X).
  destruct (wrap (wrapper_of X) T pen_T target); [|reflexivity].
  cbn [fmap Result_fmap]. f_equal.
  rewrite !point_map_exact by (exact Hrot || apply rotDegrees_rotate).
  destruct (theta_rotate degrees X) as [z ->]. fold d.
  rewrite cos_period_Z, sin_period_Z.
  change (tx (rotate degrees X)) with (tx X).
  change (ty (rotate degrees X)) with (ty X).
  change (scaleFactor (rotate degrees X)) with (scaleFactor X).
  change (flipYinFac (rotate degrees X)) with (flipYinFac X).
  destruct Hf as [-> | ->].
  - replace (theta X + 1 * d) with (theta X + d) by lra.
    rewrite cos_plus, sin_plus. f_equal; ring.
  - replace (theta X + -1 * d) with (theta X - d) by lra.
    rewrite cos_minus, sin_minus. f_equal; ring.
Qed.

Lemma fmap_wrap_same {T} {pen_T : Pen T} {A} (X' X : t) (target : T)
    (g g' : A) :
  prevTransform X' = prevTransform X -> g = g' ->
  (fun _ => g) <$> wrap (wrapper_of X') T _ target
  = (fun _ => g') <$> wrap (wrapper_of X) T _ target.
Proof. unfold wrapper_of. by intros -> ->. Qed.

Lemma prevTransform_scale (fac : R) (flipY : bool) (X : t) :
  prevTransform (scale fac flipY X) = prevTransform X.
Proof. unfold scale. by destruct (decide (fac < 0.0)), flipY. Qed.

Lemma tx_scale (fac : R) (flipY : bool) (X : t) :
  tx (scale fac flipY X) = tx X.
Proof. unfold scale. by destruct (decide (fac < 0.0)), flipY. Qed.

Lemma ty_scale (fac : R) (flipY : bool) (X : t) :
  ty (scale fac flipY X) = ty X.
Proof. unfold scale. by destruct (decide (fac < 0.0)), flipY. Qed.

Lemma flipYinFac_scale (fac : R) (flipY : bool) (X : t) :
  flipYinFac (scale fac flipY X)
  = if flipY then - flipYinFac X else flipYinFac X.
Proof. unfold scale. by destruct (decide (fac < 0.0)), flipY. Qed.

Lemma scaleFactor_scale (fac : R) (flipY : bool) (X : t) :
  scaleFactor (scale fac flipY X)
  = scaleFactor X * (if decide (fac < 0.0) then - fac else fac).
Proof. unfold scale. by destruct (decide (fac < 0.0)), flipY. Qed.

Lemma theta_scale (fac : R) (flipY : bool) (X : t) :
  theta (scale fac flipY X)
  = if decide (fac < 0.0) then theta (rotate 180 X) else theta X.
Proof. unfold scale. by destruct (decide (fac < 0.0)), flipY. Qed.

(** X20: [scale], on an [XForm] made by the builder, puts its scaling, and its
    mirroring in the x axis when asked, in front of the stored
    transformation; a negative factor is no exception. *)
Theorem scale_composes_in_front {search : FloatBinarySearch} {T}
    {pen_T : Pen T} (calls : list BuilderCall) (fac : R) (flipY : bool)
    (target : T) (x y : R) :
  let X := foldl run_call new calls in
  (fun p => XFormPen.transformPoint p x y) <$> apply (scale fac flipY X) target
  = (fun p => XFormPen.transformPoint p
                (fac * x) (if flipY then - (fac * y) else fac * y))
    <$> apply X target.
Proof.
  intros X.
  assert (in_range X) as HX by apply in_range_run_calls, in_range_new.
  assert (flip_unit X) as Hf by apply flip_unit_run_calls, flip_unit_new.
  pose proof (in_range_scale fac flipY X HX) as [Hrot' _].
  destruct HX as [Hrot _].
  rewrite (apply_fmap_point (scale fac flipY X) target (fun f => f x y)).
  rewrite (apply_fmap_point X target
             (fun f => f (fac * x) (if flipY then - (fac * y) else fac * y))).
  apply fmap_wrap_same; [apply prevTransform_scale|].
  rewrite !point_map_exact by assumption.
  rewrite tx_scale, ty_scale, flipYinFac_scale, scaleFactor_scale,
    theta_scale.
  destruct (decide (fac < 0.0)) as [Hneg|Hpos].
  - destruct (theta_rotate 180 X) as [z ->].
    rewrite cos_period_Z, sin_period_Z.
    destruct Hf as [-> | ->].
    + replace (theta X + 1 * (180 * PI / 180)) with (theta X + PI) by lra.
      rewrite neg_cos, neg_sin. destruct flipY; f_equal; ring.
    + replace (theta X + -1 * (180 * PI / 180)) with (theta X - PI) by lra.
      rewrite cos_minus, sin_minus, cos_PI, sin_PI.
      destruct flipY; f_equal; ring.
  - destruct flipY; f_equal; ring.
Qed.

(** A map of the plane that multiplies every distance by [k]. *)
Definition scales_distances (f : R -> R -> Point2D) (k : R) : Prop :=
  ∀ x1 y1 x2 y2,
    ArcUtils.distance (f x1 y1).1 (f x1 y1).2 (f x2 y2).1 (f x2 y2).2
    = k * ArcUtils.distance x1 y1 x2 y2.

(** X21: The pen [apply] makes from an [XForm] of the builder transforms points
    by a rotation by the stored angle, a mirroring in the x axis when
    [flipYinFac] is -1, a scaling by the stored factor and a shift by
    ([tx], [ty]), in this order; turns keep their size and change sign
    with the mirroring; every distance is multiplied by the stored scale
    factor. *)
Theorem apply_is_similarity {search : FloatBinarySearch} {T} {pen_T : Pen T}
    (calls : list BuilderCall) (target : T) p :
  let X := foldl run_call new calls in
  let a := rotDegrees X * PI / 180.0 in
  apply X target = Ok p ->
  (flipYinFac X = 1 ∨ flipYinFac X = -1)
  ∧ (∀ x y,
       XFormPen.transformPoint p x y
       = (tx X + scaleFactor X * (x * cos a - y * flipYinFac X * sin a),
          ty X + scaleFactor X * (x * sin a + y * flipYinFac X * cos a)))
  ∧ (∀ turn, XFormPen.transformTurn p turn = turn * flipYinFac X)
  ∧ scales_distances (XFormPen.transformPoint p) (scaleFactor X).
Proof.
  intros X a Happly.
  assert (in_range X) as [Hrot Hs] by apply in_range_run_calls, in_range_new.
  assert (flip_unit X) as Hf by apply flip_unit_run_calls, flip_unit_new.
  apply apply_Ok_inv in Happly as (Hpt & Hturn & _).
  assert (∀ x y,
            XFormPen.transformPoint p x y
            = (tx X + scaleFactor X * (x * cos a - y * flipYinFac X * sin a),
               ty X + scaleFactor X * (x * sin a + y * flipYinFac X * cos a)))
    as Hform.
  { intros x y. transitivity (point_map X x y).
    - exact (f_equal (fun g => g x y) Hpt).
    - by apply point_map_exact. }
  split; [exact Hf|]. split; [exact Hform|].
  split; [intros turn; exact (f_equal (fun g => g turn) Hturn)|].
  intros x1 y1 x2 y2. rewrite !Hform. cbn [fst snd].
  unfold ArcUtils.distance, ArcUtils.vecLength.
  pose proof (sin2_cos2 a) as Hsc. unfold Rsqr in Hsc.
  assert (flipYinFac X * flipYinFac X = 1) as Hff
    by (destruct Hf as [-> | ->]; lra).
  set (f := flipYinFac X) in *. set (s := scaleFactor X) in *.
  set (dx := x2 - x1). set (dy := y2 - y1).
  transitivity (sqrt (Rsqr s * (dx * dx + dy * dy))).
  - f_equal. unfold Rsqr.
    transitivity
      (s * s * (dx * dx * (sin a * sin a + cos a * cos a)
                + dy * dy * (f * f) * (sin a * sin a + cos a * cos a))).
    + subst dx dy. ring.
    + rewrite Hsc, Hff. ring.
  - rewrite sqrt_mult_alt by apply Rle_0_sqr.
    by rewrite sqrt_Rsqr by lra.
Qed.

Lemma apply_is_similarity_witness :
  let X := foldl (run_call (search := Sample.search)) new
             [CallRotate 30; CallTranslate 1 2] in
  let a := rotDegrees X * PI / 180.0 in
  ∃ p,
    apply X ([] : LogPen) = Ok p
    ∧ (flipYinFac X = 1 ∨ flipYinFac X = -1)
    ∧ (∀ x y,
         XFormPen.transformPoint p x y
         = (tx X + scaleFactor X * (x * cos a - y * flipYinFac X * sin a),
            ty X + scaleFactor X * (x * sin a + y * flipYinFac X * cos a)))
    ∧ (∀ turn, XFormPen.transformTurn p turn = turn * flipYinFac X)
    ∧ scales_distances (XFormPen.transformPoint p) (scaleFactor X).
Proof.
  intros X a. eexists. split; [reflexivity|].
  exact (apply_is_similarity (search := Sample.search)
           [CallRotate 30; CallTranslate 1 2] ([] : LogPen) _ eq_refl).
Defined.

(** A call as the pen made by [apply] passes it on. *)
Definition map_op (X : t) (o : PenOp) : PenOp :=
  match o with
  | MoveTo x y => MoveTo (point_map X x y).1 (point_map X x y).2
  | ArcTo x y turn =>
      ArcTo (point_map X x y).1 (point_map X x y).2 (turn * flipYinFac X)
  end.

Lemma XFormPen_run_ops {T} {pen_T : Pen T} (X : t) (ops : list PenOp)
    (d : T) :
  run_ops ops
    (XFormPen.mk d (point_map X) (fun turn => turn * flipYinFac X))
  = (fun d' => XFormPen.mk d' (point_map X)
                 (fun turn => turn * flipYinFac X))
    <$> run_ops (map_op X <$> ops) d.
Proof.
  revert d. induction ops as [|o ops IH]; intros d; [reflexivity|].
  destruct o as [x y|x y turn].
  - cbn [fmap list_fmap run_ops run_op map_op].
    unfold Pen.moveTo at 1. cbn [XFormPen.pen]. unfold XFormPen.moveTo.
    cbn [XFormPen.transformPoint XFormPen.transformTurn XFormPen.delegate].
    destruct (Pen.moveTo _ _ d) as [d'|msg]; cbn [mbind Result_bind];
      [apply IH|reflexivity].
  - cbn [fmap list_fmap run_ops run_op map_op].
    unfold Pen.arcTo at 1. cbn [XFormPen.pen]. unfold XFormPen.arcTo.
    cbn [XFormPen.transformPoint XFormPen.transformTurn XFormPen.delegate].
    destruct (Pen.arcTo _ _ _ d) as [d'|msg]; cbn [mbind Result_bind];
      [apply IH|reflexivity].
Qed.

Lemma processPath_run_ops {T} {pen_T : Pen T} (X : t)
    (path : PathFunc) (doMove : bool) (ops : list PenOp) (pen : T) :
  prevTransform X = None ->
  (∀ P (pen_P : Pen P) (p : P), path P pen_P doMove p = run_ops ops p) ->
  processPath pen path doMove X = run_ops (map_op X <$> ops) pen.
Proof.
  intros Hprev Hpath. unfold processPath, apply.
  destruct X as [prev rot s f a b]. cbn in Hprev. subst prev.
  cbn [wrapper_of default prevTransform id_wrapper wrap wrapped unwrap
       wrapped_pen apply_wrapper mbind Result_bind].
  rewrite Hpath.
  pose proof (XFormPen_run_ops (mk None rot s f a b) ops pen) as Hrun.
  unfold point_map in Hrun. cbn [tx ty flipYinFac] in Hrun.
  cbn [tx ty flipYinFac]. rewrite Hrun.
  by destruct (run_ops _ pen).
Qed.

(** X22: [processPath], for an [XForm] with no input processing and a path that
    makes the calls [ops]: the pen receives the same calls in the same
    order, each with its point and turn transformed, and is left as these
    calls leave it; the first exception of the pen ends the path. *)
Theorem processPath_forwards_transformed {T} {pen_T : Pen T} (X : t)
    (path : PathFunc) (doMove : bool) (ops : list PenOp) (pen : T) :
  prevTransform X = None ->
  (∀ P (pen_P : Pen P) (p : P), path P pen_P doMove p = run_ops ops p) ->
  processPath pen path doMove X = run_ops (map_op X <$> ops) pen.
Proof. apply processPath_run_ops. Qed.

Lemma processPath_forwards_transformed_witness :
  prevTransform (translate 1 2 new) = None
  ∧ (∀ P (pen_P : Pen P) (p : P),
       (fun P pen_P (_ : bool) p => run_ops [MoveTo 0 0; ArcTo 1 0 0] p)
         P pen_P true p
       = run_ops [MoveTo 0 0; ArcTo 1 0 0] p)
  ∧ processPath ([] : LogPen)
      (fun P pen_P _ p => run_ops [MoveTo 0 0; ArcTo 1 0 0] p) true
      (translate 1 2 new)
    = run_ops (map_op (translate 1 2 new) <$> [MoveTo 0 0; ArcTo 1 0 0])
        ([] : LogPen).
Proof.
  split; [reflexivity|]. split; [reflexivity|].
  exact (processPath_forwards_transformed (translate 1 2 new)
           (fun P pen_P _ p => run_ops [MoveTo 0 0; ArcTo 1 0 0] p) true
           [MoveTo 0 0; ArcTo 1 0 0] ([] : LogPen) eq_refl
           (fun _ _ _ => eq_refl)).
Defined.

End XFormGeometry.

(* ------------------------------------------------------------------ *)
(** ** index.ts: the outline [drawGearFromTooth] draws *)

Module GearOutline.
Import XForm XFormFacts XFormGeometry GearCutter.









End GearOutline.

(* ------------------------------------------------------------------ *)
(** ** ClippingPen.ts: the state of the pen and straight crossings *)

Module ClippingPenMore.
Import CrappyClippingPen ClippingPenFacts.

Section Generic.
Context {search : FloatBinarySearch}.
Context {T : Type} {pen_T : Pen T}.


(** What every returning call leaves in the pen: the line unchanged, the
    point of the call, and the flag that tells on which side it is. *)
Definition settled (c : t T) : Prop :=
  havePoint c = true
  ∧ (isInside c = true -> tx c * nx c + ty c * ny c >= minprod c)
  ∧ (isInside c = false -> tx c * nx c + ty c * ny c <= minprod c).

Lemma moveTo_settled (x y : R) (c c' : t T) :
  moveTo x y c = Ok c' ->
  same_line c c' ∧ tx c' = x ∧ ty c' = y ∧ settled c'.
Proof.
  unfold moveTo. cbn [isInside target nx ny minprod].
  destruct (bool_decide_reflect (x * nx c + y * ny c > minprod c))
    as [Hin|Hout].
  - destruct (Pen.moveTo x y (target c)) as [t'|msg];
      cbn [mbind Result_bind]; [|discriminate].
    intros [= <-]. unfold same_line, settled. cbn.
    repeat split; try reflexivity; intros; try discriminate; lra.
  - intros [= <-]. unfold same_line, settled. cbn.
    repeat split; try reflexivity; intros; try discriminate; lra.
Qed.

Lemma arcTo_settled (x y turn : R) (c c' : t T) :
  arcTo x y turn c = Ok c' ->
  same_line c c' ∧ tx c' = x ∧ ty c' = y ∧ settled c'.
Proof.
  destruct c as [tg n1 n2 mp px py have ins]. unfold arcTo.
  cbn [havePoint]. destruct have; cbn [negb]; [|apply moveTo_settled].
  cbn [isInside nx ny minprod tx ty target set_isInside set_point
       set_target].
  assert (∀ (m : Result (t T)) b,
            (∀ c1, m = Ok c1 ->
                   nx c1 = n1 ∧ ny c1 = n2 ∧ minprod c1 = mp
                   ∧ havePoint c1 = true ∧ isInside c1 = b) ->
            (b = true -> x * n1 + y * n2 >= mp) ->
            (b = false -> x * n1 + y * n2 <= mp) ->
            (c1 ← m; Ok (set_point c1 x y)) = Ok c' ->
            same_line (mk tg n1 n2 mp px py true ins) c'
            ∧ tx c' = x ∧ ty c' = y ∧ settled c') as Hfinish.
  { intros m b Hm Ht Hf. destruct m as [c1|msg]; cbn [mbind Result_bind];
      [|discriminate].
    intros [= <-]. destruct (Hm c1 eq_refl) as (E1 & E2 & E3 & E4 & E5).
    unfold same_line, settled. cbn. rewrite E1, E2, E3, E4, E5.
    repeat split; auto. }
  destruct ins.
  - destruct (bool_decide_reflect (x * n1 + y * n2 >= mp)) as [Hin|Hout];
      cbn [Bool.eqb negb isInside nx ny minprod tx ty target havePoint
           set_isInside set_point set_target].
    + destruct (Pen.arcTo x y turn tg) as [t'|msg]; cbn [mbind Result_bind];
        [|discriminate].
      intros [= <-]. unfold same_line, settled. cbn.
      repeat split; try reflexivity; intros; try discriminate; lra.
    + apply (Hfinish _ false); [|discriminate|intros _; lra].
      intros c1.
      destruct (decide (turn < 1e-6)).
      * destruct (_ || _).
        -- destruct (Pen.arcTo _ _ 0 tg); cbn [mbind Result_bind];
             [|discriminate]. by intros [= <-].
        -- cbn [mbind Result_bind]. by intros [= <-].
      * destruct (ArcUtils.interpolateArcTurn px py x y turn _) as [mx my].
        destruct (_ || _).
        -- destruct (Pen.arcTo mx my _ tg); cbn [mbind Result_bind];
             [|discriminate]. by intros [= <-].
        -- cbn [mbind Result_bind]. by intros [= <-].
  - destruct (bool_decide_reflect (x * n1 + y * n2 > mp)) as [Hin|Hout];
      cbn [Bool.eqb negb isInside nx ny minprod tx ty target havePoint
           set_isInside set_point set_target].
    + apply (Hfinish _ true); [|intros _; lra|discriminate].
      intros c1.
      destruct (decide (turn < 1e-6)).
      * destruct (Pen.moveTo _ _ tg) as [t1|msg]; cbn [mbind Result_bind];
          [|discriminate].
        destruct (_ || _).
        -- destruct (Pen.arcTo x y 0 t1); cbn [mbind Result_bind];
             [|discriminate]. by intros [= <-].
        -- cbn [mbind Result_bind]. by intros [= <-].
      * destruct (ArcUtils.interpolateArcTurn px py x y turn _) as [mx my].
        destruct (Pen.moveTo mx my tg) as [t1|msg]; cbn [mbind Result_bind];
          [|discriminate].
        destruct (_ || _).
        -- destruct (Pen.arcTo x y _ t1); cbn [mbind Result_bind];
             [|discriminate]. by intros [= <-].
        -- cbn [mbind Result_bind]. by intros [= <-].
    + intros [= <-]. unfold same_line, settled. cbn.
      repeat split; try reflexivity; intros; try discriminate; lra.
Qed.

Lemma run_op_settled (o : PenOp) (c c' : t T) :
  run_op o c = Ok c' ->
  same_line c c' ∧ tx c' = op_x o ∧ ty c' = op_y o ∧ settled c'.
Proof.
  destruct o as [x y|x y turn]; cbn [run_op op_x op_y].
  - apply moveTo_settled.
  - apply arcTo_settled.
Qed.

(** X25: After any calls that return, the pen still has the line it was made
    with, holds the point of the last call, and its flag [isInside] tells
    the side of that point: set, the point is on the line or on the kept
    side; clear, it is on the line or on the other side. *)
Theorem clip_state_follows_last_call (ops : list PenOp) (o : PenOp)
    (c c' : t T) :
  run_ops (ops ++ [o]) c = Ok c' ->
  (nx c' = nx c ∧ ny c' = ny c ∧ minprod c' = minprod c)
  ∧ tx c' = op_x o ∧ ty c' = op_y o
  ∧ havePoint c' = true
  ∧ (isInside c' = true -> op_x o * nx c + op_y o * ny c >= minprod c)
  ∧ (isInside c' = false -> op_x o * nx c + op_y o * ny c <= minprod c).
Proof.
  revert c. induction ops as [|o1 ops IH]; intros c Hrun.
  - cbn [app run_ops] in Hrun.
    destruct (run_op o c) as [c1|msg] eqn:Hop; cbn in Hrun; [|discriminate].
    injection Hrun as <-.
    apply run_op_settled in Hop
      as ((E1 & E2 & E3) & Ex & Ey & Hhave & Hin & Hout).
    rewrite Ex, Ey, E1, E2, E3 in *. auto 10.
  - cbn [app run_ops] in Hrun. change (o1 :: ops ++ [o]) with
      (o1 :: (ops ++ [o])) in Hrun.
    destruct (run_op o1 c) as [c1|msg] eqn:Hop; cbn in Hrun; [|discriminate].
    apply run_op_settled in Hop as ((E1 & E2 & E3) & _).
    rewrite <- E1, <- E2, <- E3. by apply IH.
Qed.

Lemma arcTo_exit_small_turn (x y turn : R) (c : t T) :
  havePoint c = true -> isInside c = true ->
  x * nx c + y * ny c < minprod c ->
  turn < 1e-6 ->
  let p0 := tx c * nx c + ty c * ny c in
  let p1 := x * nx c + y * ny c in
  let t := (minprod c - p0) / (p1 - p0) in
  let mx := tx c + (x - tx c) * t in
  let my := ty c + (y - ty c) * t in
  arcTo x y turn c
  = (target' ← (if negb (bool_decide (mx = tx c))
                   || negb (bool_decide (my = ty c))
                then Pen.arcTo mx my 0 (target c) else Ok (target c));
     Ok (mk target' (nx c) (ny c) (minprod c) x y true false)).
Proof.
  destruct c as [tg n1 n2 mp px py have ins]. cbn.
  intros -> -> Hout Hturn. unfold arcTo.
  destruct (decide (turn < 1e-6)) as [_|Hge]; [|contradiction].
  cbn [havePoint isInside negb nx ny minprod tx ty target
       set_isInside set_point set_target].
  rewrite bool_decide_eq_false_2 by lra.
  cbn [havePoint isInside negb nx ny minprod tx ty target
       set_isInside set_point set_target Bool.eqb].
  destruct (_ || _); cbn [mbind Result_bind].
  - destruct (Pen.arcTo _ _ 0 tg); reflexivity.
  - reflexivity.
Qed.

(** X26: A segment drawn with [turn < 1e-6] from the point the pen holds to a
    point strictly on the other side of the line is cut at a point of the
    segment that lies on the line.  Entering, the target gets a move to the
    cut and a straight segment to the end; leaving, it gets a straight
    segment to the cut; a piece of length zero is left out. *)
Theorem straight_crossing_cut_on_line (x y turn : R) (c : t T) :
  settled c -> turn < 1e-6 ->
  (isInside c = false ∧ x * nx c + y * ny c > minprod c)
  ∨ (isInside c = true ∧ x * nx c + y * ny c < minprod c) ->
  let p0 := tx c * nx c + ty c * ny c in
  let p1 := x * nx c + y * ny c in
  let t := (minprod c - p0) / (p1 - p0) in
  let mx := tx c + (x - tx c) * t in
  let my := ty c + (y - ty c) * t in
  0 <= t <= 1
  ∧ mx * nx c + my * ny c = minprod c
  ∧ target <$> arcTo x y turn c
    = if isInside c then
        if negb (bool_decide (mx = tx c)) || negb (bool_decide (my = ty c))
        then Pen.arcTo mx my 0 (target c) else Ok (target c)
      else
        target' ← Pen.moveTo mx my (target c);
        if negb (bool_decide (x = mx)) || negb (bool_decide (y = my))
        then Pen.arcTo x y 0 target' else Ok target'.
Proof.
  intros (Hhave & Hin & Hout) Hturn Hcross p0 p1 t mx my.
  assert (p1 - p0 ≠ 0 ∧ 0 <= t <= 1) as [Hne Ht].
  { subst t. destruct Hcross as [[Hins Hp]|[Hins Hp]].
    - specialize (Hout Hins). fold p0 in Hout. fold p1 in Hp.
      assert (0 < p1 - p0) as Hd by lra. split; [lra|].
      split.
      + apply Rmult_le_pos; [lra|]. left. by apply Rinv_0_lt_compat.
      + apply Rmult_le_reg_r with (r := p1 - p0); [exact Hd|].
        unfold Rdiv. rewrite Rmult_assoc, Rinv_l by lra. lra.
    - specialize (Hin Hins). fold p0 in Hin. fold p1 in Hp.
      assert (0 < p0 - p1) as Hd by lra. split; [lra|].
      replace ((minprod c - p0) / (p1 - p0))
        with ((p0 - minprod c) / (p0 - p1)) by (field; lra).
      split.
      + apply Rmult_le_pos; [lra|]. left. by apply Rinv_0_lt_compat.
      + apply Rmult_le_reg_r with (r := p0 - p1); [exact Hd|].
        unfold Rdiv. rewrite Rmult_assoc, Rinv_l by lra. lra. }
  split; [exact Ht|]. split.
  - transitivity (p0 + (p1 - p0) * t); [subst mx my p0 p1; ring|].
    subst t. field. exact Hne.
  - destruct Hcross as [[Hins Hp]|[Hins Hp]]; rewrite Hins.
    + rewrite (arcTo_enter_small_turn x y turn c Hhave Hins Hp Hturn).
      fold p0 p1 t mx my.
      destruct (Pen.moveTo mx my (target c)) as [t1|msg];
        cbn [mbind Result_bind fmap Result_fmap]; [|reflexivity].
      destruct (_ || _); [|reflexivity].
      by destruct (Pen.arcTo x y 0 t1).
    + rewrite (arcTo_exit_small_turn x y turn c Hhave Hins Hp Hturn).
      fold p0 p1 t mx my.
      destruct (_ || _); [|reflexivity].
      by destruct (Pen.arcTo mx my 0 (target c)).
Qed.

End Generic.


Lemma clip_state_follows_last_call_witness :
  let c := new ([] : LogPen) 0 1 0 in
  let c' := mk [MoveTo 0 1; ArcTo 1 2 0.5] 0 1 0 1 2 true true in
  let clip := pen (search := Sample.search) in
  run_ops (pen_P := clip) ([MoveTo 0 1] ++ [ArcTo 1 2 0.5]) c = Ok c'
  ∧ (nx c' = nx c ∧ ny c' = ny c ∧ minprod c' = minprod c)
  ∧ tx c' = 1 ∧ ty c' = 2
  ∧ havePoint c' = true
  ∧ (isInside c' = true -> 1 * nx c + 2 * ny c >= minprod c)
  ∧ (isInside c' = false -> 1 * nx c + 2 * ny c <= minprod c).
Proof.
  intros c c' clip.
  assert (run_ops (pen_P := clip) ([MoveTo 0 1] ++ [ArcTo 1 2 0.5]) c
          = Ok c') as Hrun.
  { subst c c'. rewrite new_unit_y. cbn [app run_ops run_op].
    change (Pen.moveTo 0 1 ?c) with (moveTo 0 1 c).
    rewrite moveTo_keep by (cbn; lra).
    cbn [mbind Result_bind target Pen.moveTo LogPen_pen app nx ny minprod].
    change (Pen.arcTo 1 2 0.5 ?c)
      with (arcTo (search := Sample.search) 1 2 0.5 c).
    rewrite arcTo_keep by (try reflexivity; cbn; lra).
    reflexivity. }
  split; [exact Hrun|].
  exact (clip_state_follows_last_call (search := Sample.search)
           [MoveTo 0 1] (ArcTo 1 2 0.5) c c' Hrun).
Defined.

Lemma straight_crossing_cut_on_line_witness :
  let c := mk ([MoveTo 0 0; MoveTo 5 5] : LogPen) 1 0 0 (-1) 0 true false in
  let t := (0 - (-1 * 1 + 0 * 0)) / ((1 * 1 + 0 * 0) - (-1 * 1 + 0 * 0)) in
  let mx := -1 + (1 - -1) * t in
  let my := 0 + (0 - 0) * t in
  settled c
  ∧ -1 < 1e-6
  ∧ ((isInside c = false ∧ 1 * nx c + 0 * ny c > minprod c)
     ∨ (isInside c = true ∧ 1 * nx c + 0 * ny c < minprod c))
  ∧ 0 <= t <= 1
  ∧ mx * 1 + my * 0 = 0
  ∧ target <$> arcTo (search := Sample.search) 1 0 (-1) c
    = (target' ← Pen.moveTo mx my (target c);
       if negb (bool_decide (1 = mx)) || negb (bool_decide (0 = my))
       then Pen.arcTo 1 0 0 target' else Ok target').
Proof.
  intros c t mx my.
  assert (settled c) as Hs.
  { split; [reflexivity|]. split; [discriminate|]. intros _. cbn. lra. }
  assert (-1 < 1e-6) as Hturn by lra.
  assert ((isInside c = false ∧ 1 * nx c + 0 * ny c > minprod c)
          ∨ (isInside c = true ∧ 1 * nx c + 0 * ny c < minprod c)) as Hcross.
  { left. split; [reflexivity|]. cbn. lra. }
  split; [exact Hs|]. split; [exact Hturn|]. split; [exact Hcross|].
  exact (straight_crossing_cut_on_line (search := Sample.search)
           1 0 (-1) c Hs Hturn Hcross).
Defined.

End ClippingPenMore.

(* ------------------------------------------------------------------ *)
(** ** InitialMaxFilletPen.ts: [reverseAndFlipPath] undoes itself *)

Module FilletPathsFacts.
Import RecordingPen RecordingPenFacts FilletPaths.

(** The transformation [new XForm().scale(1, true)]. *)
Definition flip_xform : XForm.t := XForm.scale 1 true XForm.new.

(** An entry mirrored in the x axis. *)
Definition flip_entry (e : entry) : entry :=
  (e.1.1, - e.1.2, neg_turn e.2).

Lemma flip_xform_point (x y : R) :
  XFormGeometry.point_map flip_xform x y = (x, - y).
Proof.
  unfold flip_xform.
  pose proof (XFormFacts.in_range_scale 1 true XForm.new
                XFormFacts.in_range_new) as [Hrot _].
  rewrite XFormGeometry.point_map_exact by exact Hrot.
  rewrite XFormGeometry.tx_scale, XFormGeometry.ty_scale,
    XFormGeometry.flipYinFac_scale, XFormGeometry.scaleFactor_scale,
    XFormGeometry.theta_scale.
  destruct (decide (1 < 0.0)) as [Hneg|_]; [lra|].
  unfold XFormGeometry.theta.
  cbn [XForm.new XForm.rotDegrees XForm.tx XForm.ty XForm.flipYinFac
       XForm.scaleFactor].
  replace (0 * PI / 180.0) with 0 by lra.
  rewrite cos_0, sin_0. f_equal; lra.
Qed.

Lemma flip_xform_turn :
  XForm.flipYinFac flip_xform = -1.
Proof.
  unfold flip_xform. rewrite XFormGeometry.flipYinFac_scale. cbn. lra.
Qed.

Lemma flip_xform_op (e : entry) :
  XFormGeometry.map_op flip_xform (entry_op e) = entry_op (flip_entry e).
Proof.
  destruct e as [[x y] [turn|]]; unfold entry_op, flip_entry;
    cbn [fst snd XFormGeometry.map_op neg_turn fmap option_fmap option_map];
    rewrite flip_xform_point; cbn [fst snd]; [|reflexivity].
  f_equal. rewrite flip_xform_turn. lra.
Qed.

Lemma flip_entry_involutive (e : entry) : flip_entry (flip_entry e) = e.
Proof.
  destruct e as [[x y] [turn|]]; unfold flip_entry; cbn;
    repeat f_equal; lra.
Qed.

Lemma mag2_flip (a b : entry) :
  mag2 (flip_entry a) (flip_entry b) = mag2 a b.
Proof. unfold mag2, flip_entry. cbn [fst snd]. ring. Qed.

Lemma pair_ok_flip (a b : entry) :
  pair_ok a b -> pair_ok (flip_entry a) (flip_entry b).
Proof.
  unfold pair_ok. rewrite mag2_flip.
  destruct b as [[bx by_] [turn|]], a as [[ax ay] [ta|]];
    cbn [flip_entry fst snd neg_turn fmap option_fmap option_map];
    try done.
  - intros [Hfar Hs]. split; [exact Hfar|]. intros Hshort.
    rewrite (Hs Hshort). lra.
  - intros [Hfar Hs]. split; [exact Hfar|]. intros Hshort.
    rewrite (Hs Hshort). lra.
Qed.

Lemma good_flip (es : list entry) : good es -> good (flip_entry <$> es).
Proof.
  intros [Hhead Hadj]. split.
  - intros e. rewrite list_lookup_fmap.
    destruct (es !! 0%nat) as [e0|] eqn:He0; [|discriminate].
    intros [= <-]. cbn. by rewrite (Hhead e0 eq_refl).
  - intros i a b. rewrite !list_lookup_fmap.
    destruct (es !! i) as [a0|] eqn:Ha; [|discriminate].
    destruct (es !! S i) as [b0|] eqn:Hb; [|discriminate].
    intros [= <-] [= <-]. apply pair_ok_flip. by apply (Hadj i).
Qed.

Lemma rev_entry_flip (es : list entry) (i : nat) :
  rev_entry (flip_entry <$> es) i = flip_entry (rev_entry es i).
Proof.
  unfold rev_entry. rewrite !list_lookup_fmap.
  destruct (es !! (i - 1)%nat) as [[[x y] a]|],
           (es !! i) as [[[x' y'] a']|];
    unfold flip_entry; cbn; repeat f_equal; try lra.
  all: try (destruct a'; cbn; f_equal; lra).
Qed.

Lemma rev_entries_upto_flip (es : list entry) (i : nat) :
  rev_entries_upto (flip_entry <$> es) i
  = flip_entry <$> rev_entries_upto es i.
Proof.
  induction i as [|i IH]; [reflexivity|].
  cbn [rev_entries_upto fmap list_fmap]. by rewrite rev_entry_flip, IH.
Qed.

Lemma rev_entries_flip (es : list entry) :
  rev_entries (flip_entry <$> es) = flip_entry <$> rev_entries es.
Proof.
  unfold rev_entries. by rewrite length_fmap, rev_entries_upto_flip.
Qed.

Lemma flip_flip (es : list entry) : flip_entry <$> (flip_entry <$> es) = es.
Proof.
  rewrite <- list_fmap_compose. rewrite <- (list_fmap_id es) at 2.
  apply list_fmap_ext. intros _ e _. apply flip_entry_involutive.
Qed.

(** What [transformPath] makes of a path through the flip: the calls of
    the mirrored entries, on a new recorder. *)
Lemma transformPath_flip (path0 : PathFunc) (es : list entry) :
  (∀ P (pen_P : Pen P) (p : P),
     path0 P pen_P true p = run_ops (entry_op <$> es) p) ->
  XForm.transformPath path0 flip_xform
  = run_ops (entry_op <$> (flip_entry <$> es)) empty.
Proof.
  intros Hpath. unfold XForm.transformPath.
  rewrite (XFormGeometry.processPath_run_ops
             flip_xform path0 true (entry_op <$> es) empty);
    [|unfold flip_xform; apply XFormGeometry.prevTransform_scale|exact Hpath].
  rewrite <- list_fmap_compose.
  rewrite (list_fmap_ext (XFormGeometry.map_op flip_xform ∘ entry_op)
             (entry_op ∘ flip_entry) es)
    by (intros; cbn; apply flip_xform_op).
  by rewrite list_fmap_compose.
Qed.

(** Replaying the reversed entries onto a new recorder gives a recorder
    whose own reversed path is the path of the entries, less a trailing
    bare move. *)
Lemma reversed_replay (es : list entry) :
  good es ->
  ∃ r1,
    run_ops (entry_op <$> rev_entries es) empty = Ok r1
    ∧ (∀ P (pen_P : Pen P) (pen : P),
         reversedPath r1 P _ true pen
         = path (drop_trailing_move (of_entries es)) P _ true pen).
Proof.
  intros Hgood.
  destruct es as [|e es _] using rev_ind.
  { exists empty. split; reflexivity. }
  destruct e as [[x y] [turn|]].
  - assert (clean (es ++ [(x, y, Some turn)])) as Hclean.
    { intros a. rewrite last_snoc. by intros [= <-]. }
    rewrite drop_trailing_move_clean by exact Hclean.
    destruct (reverse_clean _ Hgood Hclean) as (Hfwd & Hops & _).
    eexists. split; [|exact Hops].
    by rewrite <- reversedPath_ops.
  - destruct (last es) as [a|] eqn:Ha.
    + assert (es ≠ []) as Hne by (by intros ->).
      apply good_snoc_inv in Hgood as (Hgood & _ & Hlast).
      assert (clean es) as Hclean.
      { intros a' Ha' _. rewrite Ha in Ha'. injection Ha' as <-.
        exact (Hlast a Ha). }
      rewrite drop_trailing_move_snoc by exact Hne.
      destruct (reverse_clean es Hgood Hclean) as (Hfwd & Hops & _).
      exists (of_entries (rev_entries es)). split; [|exact Hops].
      rewrite rev_entries_snoc_move.
      destruct (rev_entries_head es a Ha) as [l Hl].
      rewrite reversedPath_ops, Hl in Hfwd. rewrite Hl.
      cbn [fmap list_fmap]. unfold entry_op at 1 2. cbn [fst snd].
      rewrite run_ops_move_move. exact Hfwd.
    + apply last_None in Ha as ->.
      assert (clean ([] ++ [(x, y, None)])) as Hclean.
      { intros a _ Hlen. cbn in Hlen. lia. }
      rewrite drop_trailing_move_clean by exact Hclean.
      destruct (reverse_clean _ Hgood Hclean) as (Hfwd & Hops & _).
      eexists. split; [|exact Hops].
      by rewrite <- reversedPath_ops.
Qed.

(** X27: [reverseAndFlipPath] applied twice to the path of a recorder returns a
    path that makes, with [doMove = true] and on any pen, the calls of the
    recorder's path, less a trailing bare move: the two mirrorings and the
    two reversals cancel. *)
Theorem reverseAndFlipPath_twice (r : t) :
  reachable r ->
  ∃ p1 p2 : PathFunc,
    reverseAndFlipPath (path r) = Ok p1
    ∧ reverseAndFlipPath p1 = Ok p2
    ∧ (∀ P (pen_P : Pen P) (pen : P),
         p2 P pen_P true pen
         = path (drop_trailing_move r) P pen_P true pen).
Proof.
  intros (es & -> & Hgood)%reachable_good.
  destruct (reversed_replay es Hgood) as (r1 & Hr1 & Hback).
  exists (reversedPath (of_entries (flip_entry <$> es))), (reversedPath r1).
  split; [|split; [|exact Hback]].
  - unfold reverseAndFlipPath. fold flip_xform.
    rewrite (transformPath_flip _ es)
      by (intros; apply path_ops).
    rewrite replay_forward by (by apply good_flip). reflexivity.
  - unfold reverseAndFlipPath. fold flip_xform.
    rewrite (transformPath_flip _ (rev_entries (flip_entry <$> es)))
      by (intros; apply reversedPath_ops).
    rewrite rev_entries_flip, flip_flip, Hr1. reflexivity.
Qed.

Lemma reverseAndFlipPath_twice_witness :
  reachable sample_recorder
  ∧ ∃ p1 p2 : PathFunc,
      reverseAndFlipPath (path sample_recorder) = Ok p1
      ∧ reverseAndFlipPath p1 = Ok p2
      ∧ (∀ P (pen_P : Pen P) (pen : P),
           p2 P pen_P true pen
           = path (drop_trailing_move sample_recorder) P pen_P true pen).
Proof.
  split; [exact reachable_sample|].
  exact (reverseAndFlipPath_twice sample_recorder reachable_sample).
Defined.

End FilletPathsFacts.

(* ------------------------------------------------------------------ *)
(** ** XFormPen.ts: [clip] on a new [XForm] *)

Module XFormClip.
Import XForm XFormFacts XFormGeometry.

(** [processPath] in general: the pen is wrapped by the input processing,
    the wrapped pen receives the transformed calls, and the pen is what is
    left inside the wrapper. *)
Lemma processPath_wrapped {T} {pen_T : Pen T} (X : t) (path : PathFunc)
    (doMove : bool) (ops : list PenOp) (pen : T) :
  (∀ P (pen_P : Pen P) (p : P), path P pen_P doMove p = run_ops ops p) ->
  processPath pen path doMove X
  = (w ← wrap (wrapper_of X) T _ pen;
     w' ← run_ops (pen_P := wrapped_pen (wrapper_of X) T _)
            (map_op X <$> ops) w;
     Ok (unwrap (wrapper_of X) T w')).
Proof.
  intros Hpath. unfold processPath, apply.
  destruct (wrap (wrapper_of X) T pen_T pen) as [w|msg];
    cbn [mbind Result_bind]; [|reflexivity].
  rewrite Hpath.
  pose proof (XFormPen_run_ops (pen_T := wrapped_pen (wrapper_of X) T _)
                X ops w) as Hrun.
  unfold point_map in Hrun.
  refine (eq_trans (f_equal (fun m => m ≫= _) Hrun) _).
  by destruct (run_ops _ w).
Qed.

Lemma clip_new {search : FloatBinarySearch} (nx ny minprod : R) :
  clip nx ny minprod new
  = mk (Some (clip_wrapper nx ny minprod)) 0 1.0 1.0 0.0 0.0.
Proof.
  unfold clip, processInput. cbn [processInput_depth].
  assert (is_identity new = true) as ->.
  { unfold is_identity. cbn. rewrite !bool_decide_eq_true_2; auto; lra. }
  reflexivity.
Qed.

Lemma map_op_unit (w : option PenWrapper) (o : PenOp) :
  map_op (mk w 0 1.0 1.0 0.0 0.0) o = o.
Proof.
  assert (∀ x y, point_map (mk w 0 1.0 1.0 0.0 0.0) x y = (x, y)) as Hpt.
  { intros x y. rewrite point_map_exact by (cbn; lra).
    unfold theta. cbn [rotDegrees tx ty flipYinFac scaleFactor].
    replace (0 * PI / 180.0) with 0 by lra.
    rewrite cos_0, sin_0. f_equal; lra. }
  destruct o as [x y|x y turn]; unfold map_op; rewrite Hpt; cbn [fst snd];
    [reflexivity|].
  f_equal. cbn. lra.
Qed.

Lemma map_op_unit_list (w : option PenWrapper) (ops : list PenOp) :
  map_op (mk w 0 1.0 1.0 0.0 0.0) <$> ops = ops.
Proof.
  induction ops as [|o ops IH]; [reflexivity|].
  cbn [fmap list_fmap]. rewrite map_op_unit. f_equal. exact IH.
Qed.

(** X28: [new XForm().clip(nx, ny, minprod).processPath(pen, path, doMove)] is
    the path drawn onto a clipping pen made for the line, in front of
    [pen]: the calls reach the clipping pen with their points and turns
    as the path made them. *)
Theorem clip_on_new_puts_clipping_pen_in_front {search : FloatBinarySearch}
    {T} {pen_T : Pen T} (nx ny minprod : R) (path : PathFunc)
    (doMove : bool) (ops : list PenOp) (pen : T) :
  (∀ P (pen_P : Pen P) (p : P), path P pen_P doMove p = run_ops ops p) ->
  processPath pen path doMove (clip nx ny minprod new)
  = CrappyClippingPen.target
    <$> run_ops ops (CrappyClippingPen.new pen nx ny minprod).
Proof.
  intros Hpath. rewrite clip_new.
  rewrite (processPath_wrapped _ path doMove ops pen Hpath).
  cbn [wrapper_of default prevTransform clip_wrapper wrap wrapped unwrap
       wrapped_pen mbind Result_bind].
  rewrite map_op_unit_list. unfold Datatypes.id.
  cbn [clip_wrapper wrap wrapped unwrap wrapped_pen mbind Result_bind].
  by destruct (run_ops ops _).
Qed.

Lemma clip_on_new_puts_clipping_pen_in_front_witness :
  (∀ P (pen_P : Pen P) (p : P),
     (fun P pen_P (_ : bool) p => run_ops [MoveTo 0 1; ArcTo 1 2 0.5] p)
       P pen_P true p
     = run_ops [MoveTo 0 1; ArcTo 1 2 0.5] p)
  ∧ processPath ([] : LogPen)
      (fun P pen_P _ p => run_ops [MoveTo 0 1; ArcTo 1 2 0.5] p) true
      (clip (H := Sample.search) 0 1 0 new)
    = CrappyClippingPen.target
      <$> run_ops (pen_P := CrappyClippingPen.pen (search := Sample.search))
            [MoveTo 0 1; ArcTo 1 2 0.5]
            (CrappyClippingPen.new ([] : LogPen) 0 1 0).
Proof.
  split; [reflexivity|].
  exact (clip_on_new_puts_clipping_pen_in_front (search := Sample.search)
           0 1 0 (fun P pen_P _ p => run_ops [MoveTo 0 1; ArcTo 1 2 0.5] p)
           true [MoveTo 0 1; ArcTo 1 2 0.5] ([] : LogPen)
           (fun _ _ _ => eq_refl)).
Defined.

End XFormClip.
